(** * OpenCAMlib cutting simulation: the octree of [src/cutsim/octree.cpp]

    A shallow embedding of [ocl::Octree] and of the parts of its
    collaborators ([Octnode], [Bbox], [OCTVolume]) that the tree drives,
    followed by the properties of the Boolean-difference pass, of the leaf
    traversal and of the diagnostics.

    Conventions of the embedding.
    - The geometry of the cells (centres, half-widths, bounding boxes) is
      carried by rationals ([Q]).  The arithmetic of [leaf_scale] is that
      of binary64: every operation rounds its exact result to the nearest
      value, overflows to an infinity and underflows to a zero.
      [unsigned int] and [int] values are integers ([Z]) with the
      conversions written out.
    - A node owns its children: [child] is the array of eight slots, each
      empty or holding the owned subtree.  The back pointer
      [current->parent] always designates the node whose loop made the
      call, so [diff_negative] receives that node as an argument and
      returns its new state together with the new state of [current].
    - A pointer to a node held outside the tree (the entries of
      [nodelist]) is the path of slot indices leading to it from the root.
    - [assert] is active unless [NDEBUG] is defined; the flag [ndebug]
      selects the build.  A failed assertion ends the run.  An access
      outside an array or a vector and the dereference of a null pointer
      have no defined behaviour in C++: the embedding records the access,
      with its line, and follows the run no further.  A result [Ok] stands
      for a run free of such accesses; a property stated of [OutOfBounds]
      or [NullDereference] says that the access takes place, not what
      the program does after it.
    - [mc] and [side_triangles] hand the leaves of [get_leaf_nodes] to the
      triangulation of [Octnode], which lies outside this file of the
      library; the two triangulations of a leaf are parameters of the
      embedding. *)

From Stdlib Require Import ZArith QArith Qpower Qround Qabs Lia Lqa List Bool Sorted.
From stdpp Require Import base tactics option list strings pretty.

Open Scope Z_scope.

(** ** Runs that may stop early *)

(** Where the embedding leaves a run: at a failed assertion, at an access
    outside an array or through a null pointer, whose outcome the language
    does not define, or when the frames counted by the fuel are used up. *)
Inductive fault : Type :=
| AssertionFailed (line : Z)
| OutOfBounds (line : Z)
| NullDereference (line : Z)
| OutOfFuel.

Inductive Res (A : Type) : Type :=
| Ok (a : A)
| Fault (f : fault).

Arguments Ok {A} a.
Arguments Fault {A} f.

#[global] Instance Res_bind : MBind Res := fun A B k r =>
  match r with
  | Ok a => k a
  | Fault f => Fault f
  end.

(** [assert(cond)] at source line [line]. *)
Definition assert (ndebug : bool) (line : Z) (cond : bool) : Res unit :=
  if ndebug || cond then Ok tt else Fault (AssertionFailed line).

(** ** Geometry: points and bounding boxes *)

Record Point : Type := mkPoint { px : Q; py : Q; pz : Q }.

Record Bbox : Type := mkBbox { minpt : Point; maxpt : Point }.

(** Modelled from the spec: [Bbox::overlaps] is declared in bbox.h, which
    is not part of the sources at hand.  Two boxes overlap when their
    closed extents meet on every axis. *)
Definition overlaps (a b : Bbox) : bool :=
  Qle_bool (px (minpt b)) (px (maxpt a)) && Qle_bool (px (minpt a)) (px (maxpt b))
  && Qle_bool (py (minpt b)) (py (maxpt a)) && Qle_bool (py (minpt a)) (py (maxpt b))
  && Qle_bool (pz (minpt b)) (pz (maxpt a)) && Qle_bool (pz (minpt a)) (pz (maxpt b)).

(** ** The cutting volume *)

Inductive Classification : Type := Inside | Outside | Boundary.

(** Modelled from the spec: the class [OCTVolume] is declared in volume.h,
    which is not part of the sources at hand.  The tree reads two things
    from a volume: its bounding box [vol->bb], and, through
    [Octnode::evaluate], its classification of a cubic cell given by
    centre and half-width. *)
Module OCTVolume.
Record t : Type := mk {
  bb : Bbox;
  classify : Point -> Q -> Classification
}.
End OCTVolume.

(** ** Nodes *)

#[local] Unset Elimination Schemes.
Inductive Octnode : Type := mkOctnode {
  idx : Z;                          (* index among the siblings *)
  depth : Z;                        (* 0 at the root *)
  scale : Q;                        (* half-width of the cube *)
  center : Point;
  bb : Bbox;
  childcount : Z;
  child : list (option Octnode);    (* child[8]; None is the null pointer *)
  inside : bool;
  outside : bool;
  surface : list bool               (* surface[6] *)
}.
#[local] Set Elimination Schemes.

Definition set_child (n : Octnode) (cs : list (option Octnode)) : Octnode :=
  mkOctnode (idx n) (depth n) (scale n) (center n) (bb n) (childcount n) cs
            (inside n) (outside n) (surface n).

Definition set_childcount (n : Octnode) (c : Z) : Octnode :=
  mkOctnode (idx n) (depth n) (scale n) (center n) (bb n) c (child n)
            (inside n) (outside n) (surface n).

Definition set_flags (n : Octnode) (i o : bool) : Octnode :=
  mkOctnode (idx n) (depth n) (scale n) (center n) (bb n) (childcount n) (child n)
            i o (surface n).

Definition set_surface (n : Octnode) (s : list bool) : Octnode :=
  mkOctnode (idx n) (depth n) (scale n) (center n) (bb n) (childcount n) (child n)
            (inside n) (outside n) s.

(** The cube with centre [c] and half-width [s]. *)
Definition cube (c : Point) (s : Q) : Bbox :=
  mkBbox (mkPoint (px c - s) (py c - s) (pz c - s))
         (mkPoint (px c + s) (py c + s) (pz c + s)).

(** Modelled from the spec: the constructor [Octnode(parent, idx, scale,
    depth)] is defined in octnode.cpp, which is not part of the sources at
    hand.  A new node is a leaf with both classification flags and all
    surface flags cleared; its bounding box is derived from centre and
    half-width. *)
Definition new_Octnode (i : Z) (c : Point) (s : Q) (d : Z) : Octnode :=
  mkOctnode i d s c (cube c s) 0 (replicate 8 None) false false (replicate 6 false).

(** Direction of octant [n] along the axis selected by bit [k] of [n]. *)
Definition direction (n k : nat) : Q :=
  if Nat.testbit n k then 1%Q else (-1)%Q.

Definition octant_center (c : Point) (s : Q) (n : nat) : Point :=
  mkPoint (px c + direction n 0 * (s / 2))
          (py c + direction n 1 * (s / 2))
          (pz c + direction n 2 * (s / 2)).

(** Faces are numbered -x, +x, -y, +y, -z, +z.  Octant [n] keeps the
    parent's flag on the three faces it shares with the parent. *)
Definition octant_surface (sf : list bool) (n : nat) : list bool :=
  imap (fun f b => b && Bool.eqb (Nat.testbit n (Nat.div2 f)) (Nat.odd f)) sf.

Definition octant (p : Octnode) (n : nat) : Octnode :=
  set_surface
    (new_Octnode (Z.of_nat n) (octant_center (center p) (scale p) n)
                 (scale p / 2) (depth p + 1))
    (octant_surface (surface p) n).

(** Modelled from the spec: [Octnode::subdivide] is defined in
    octnode.cpp, which is not part of the sources at hand.  It creates the
    eight children, one per octant, at depth + 1 and half the scale, and
    sets [childcount] to 8. *)
Definition subdivide (p : Octnode) : Octnode :=
  set_childcount (set_child p (map (fun n => Some (octant p n)) (seq 0 8))) 8.

(** Modelled from the spec: [Octnode::evaluate] is defined in octnode.cpp,
    which is not part of the sources at hand.  It overwrites the two flags
    with the volume's classification of the node's cell. *)
Definition evaluate (vol : OCTVolume.t) (n : Octnode) : Octnode :=
  match OCTVolume.classify vol (center n) (scale n) with
  | Inside => set_flags n true false
  | Outside => set_flags n false true
  | Boundary => set_flags n false false
  end.

(** ** Binary64 *)

(** The values of the type [double]: the two zeros, the non-zero finite
    values, the two infinities and not-a-number.  [negative] is the sign
    bit. *)
Inductive double : Type :=
| Zero (negative : bool)
| Finite (q : Q)
| Infinity (negative : bool)
| NaN.

Definition Qnegative (q : Q) : bool := negb (Qle_bool 0 q).

Definition signbit (x : double) : bool :=
  match x with
  | Zero s | Infinity s => s
  | Finite q => Qnegative q
  | NaN => false
  end.

(** The integer [k] with 2^k <= a < 2^(k+1), for a positive [a]. *)
Definition Qlog2 (a : Q) : Z :=
  let k := Z.log2 (Qnum a) - Z.log2 (Zpos (Qden a)) in
  if Qle_bool (2 ^ k) a then k else k - 1.

(** The integer nearest to [x], the even one of the two when [x] lies
    halfway. *)
Definition round_half_even (x : Q) : Z :=
  let f := Qfloor x in
  match (x - inject_Z f ?= 1 # 2)%Q with
  | Lt => f
  | Eq => if Z.even f then f else f + 1
  | Gt => f + 1
  end.

(** Rounding of an exact result to the nearest binary64 value: 53
    significant bits, the exponent of the last bit not below -1074
    (the subnormal values), and an overflow to infinity from 2^1024 on. *)
Definition round64 (q : Q) : double :=
  let a := Qabs q in
  let e := Z.max (Qlog2 a - 52) (-1074) in
  let m := round_half_even (a / 2 ^ e) in
  if m =? 0 then Zero (Qnegative q)
  else if Qle_bool (2 ^ 1024) (inject_Z m * 2 ^ e) then Infinity (Qnegative q)
  else Finite (if Qnegative q then - (inject_Z m * 2 ^ e) else inject_Z m * 2 ^ e).

(** [x * y] *)
Definition dmul (x y : double) : double :=
  let s := xorb (signbit x) (signbit y) in
  match x, y with
  | NaN, _ | _, NaN => NaN
  | Infinity _, Zero _ | Zero _, Infinity _ => NaN
  | Infinity _, _ | _, Infinity _ => Infinity s
  | Zero _, _ | _, Zero _ => Zero s
  | Finite a, Finite b => round64 (a * b)
  end.

(** [x / y] *)
Definition ddiv (x y : double) : double :=
  let s := xorb (signbit x) (signbit y) in
  match x, y with
  | NaN, _ | _, NaN => NaN
  | Infinity _, Infinity _ | Zero _, Zero _ => NaN
  | Infinity _, _ | _, Zero _ => Infinity s
  | Zero _, _ | _, Infinity _ => Zero s
  | Finite a, Finite b => round64 (a / b)
  end.

(** The number a [double] stands for, if it is one. *)
Definition double_value (x : double) : option Q :=
  match x with
  | Zero _ => Some 0%Q
  | Finite q => Some q
  | Infinity _ | NaN => None
  end.

(** ** The tree *)

Record Octree : Type := mkOctree {
  root : Octnode;
  root_scale : Q;
  max_depth : Z                     (* unsigned int *)
}.

(** [Octree::Octree(scale, depth, centerp)] *)
Definition new_Octree (scale0 : Q) (depth0 : Z) (centerp : Point) : Octree :=
  let root0 := new_Octnode 0 centerp scale0 0 in
  mkOctree (set_surface root0 (replicate 6 true)) scale0 depth0.

Definition get_max_depth (t : Octree) : Z := max_depth t.

Definition get_root_scale (t : Octree) : Q := root_scale t.

(** Conversion of an [unsigned int] to [int], both 32 bits wide. *)
Definition int_of_unsigned (u : Z) : Z :=
  if u <? 2 ^ 31 then u else u - 2 ^ 32.

(** [pow(2.0, n)], the power function of the C library: the power of 2.0
    rounded to binary64. *)
Definition pow2 (n : Z) : double := round64 (2 ^ n).

(** [Octree::leaf_scale]; the field [root_scale] holds the value of a
    [double], which [round64] leaves as it is. *)
Definition leaf_scale (t : Octree) : double :=
  ddiv (dmul (Finite 2) (round64 (root_scale t)))
       (pow2 (int_of_unsigned (max_depth t))).

(** ** Pointers into the tree *)

(** A pointer to a node is the path of slot indices from the root. *)
Definition ptr : Type := list nat.

(** The node a pointer designates, if it is not dangling. *)
Fixpoint node_at (r : Octnode) (p : ptr) : option Octnode :=
  match p with
  | [] => Some r
  | m :: p' =>
      match child r !! m with
      | Some (Some c) => node_at c p'
      | _ => None
      end
  end.

(** In-place update through a pointer; [line] is the source line of the
    access. *)
Fixpoint update_at (line : Z) (f : Octnode -> Octnode) (p : ptr) (r : Octnode)
  : Res Octnode :=
  match p with
  | [] => Ok (f r)
  | m :: p' =>
      match child r !! m with
      | Some (Some c) =>
          c' ← update_at line f p' c;
          Ok (set_child r (<[m := Some c']> (child r)))
      | _ => Fault (NullDereference line)
      end
  end.

(** ** Traversals *)

(** The loop [for (n = 0; n < 8; ++n) if (child[n] != 0) visit(child[n])]
    over the slots of a node; [n] is the index of the first slot of
    [slots] and [k] the number of iterations left. *)
Definition for_slots {A : Type} (visit : Octnode -> nat -> A -> A)
  : list (option Octnode) -> nat -> nat -> A -> A :=
  fix loop (slots : list (option Octnode)) (n k : nat) (acc : A) : A :=
    match k, slots with
    | S k', slot :: slots' =>
        loop slots' (S n) k'
             match slot with
             | Some c => visit c n acc
             | None => acc
             end
    | _, _ => acc
    end.

(** [Octree::get_leaf_nodes(current, nodelist)]; [here] is the pointer
    [current] itself. *)
Fixpoint get_leaf_nodes (current : Octnode) (here : ptr) (nodelist : list ptr)
  : list ptr :=
  if childcount current =? 0 then nodelist ++ [here]
  else
    for_slots (fun c n nodelist => get_leaf_nodes c (here ++ [n]) nodelist)
              (child current) 0%nat 8%nat nodelist.

(** [Octree::get_all_nodes(current, nodelist)]; the root pointer is never
    null, so [current] is a node. *)
Fixpoint get_all_nodes (current : Octnode) (here : ptr) (nodelist : list ptr)
  : list ptr :=
  for_slots (fun c n nodelist => get_all_nodes c (here ++ [n]) nodelist)
            (child current) 0%nat 8%nat (nodelist ++ [here]).

(** The same with the test of line 89: [current] may be the null
    pointer. *)
Definition get_all_nodes_ptr (current : option Octnode) (here : ptr)
           (nodelist : list ptr) : list ptr :=
  match current with
  | Some current => get_all_nodes current here nodelist
  | None => nodelist
  end.

(** A loop [for (m = ...)] over the indices [ms] threading the state [s]. *)
Fixpoint for_each {S : Type} (ms : list nat) (body : nat -> S -> Res S) (s : S)
  : Res S :=
  match ms with
  | [] => Ok s
  | m :: ms' => s' ← body m s; for_each ms' body s'
  end.

(** [Octree::init(n)] *)
Definition init_round (r : Octnode) : Res Octnode :=
  let nodelist := get_leaf_nodes r [] [] in
  foldl (fun acc node => r' ← acc; update_at 70 subdivide node r') (Ok r) nodelist.

Fixpoint init_rounds (n : nat) (r : Octnode) : Res Octnode :=
  match n with
  | O => Ok r
  | S n' => r' ← init_round r; init_rounds n' r'
  end.

Definition init (n : nat) (t : Octree) : Res Octree :=
  r ← init_rounds n (root t);
  Ok (mkOctree r (root_scale t) (max_depth t)).

(** ** Boolean difference *)

(** What a call of [diff_negative] leaves behind: [current] is still in
    place, in a new state, or it was deleted and its parent updated. *)
Inductive outcome : Type :=
| Kept (current : Octnode)
| Deleted (parent : Octnode).

Section Difference.
Variable ndebug : bool.
Variable maxdepth : Z.             (* this->max_depth *)
Variable vol : OCTVolume.t.

(** Lines 158-159 and 168-169: the call on child [c], found in slot [m]
    of [cur], when the bounding boxes overlap.  [call] is
    [diff_negative]; [cur] is the parent of [c]. *)
Definition build_child (call : option Octnode -> Octnode -> Res outcome)
           (m : nat) (cur c : Octnode) : Res Octnode :=
  if overlaps (OCTVolume.bb vol) (bb c) then
    o ← call (Some cur) c;
    match o with
    | Kept c' => Ok (set_child cur (<[m := Some c']> (child cur)))
    | Deleted cur' => Ok cur'
    end
  else Ok cur.

(** Lines 156-160: the loop over the children just created. *)
Definition build_new_children (call : option Octnode -> Octnode -> Res outcome)
           (current : Octnode) : Res Octnode :=
  for_each (seq 0 8) (fun m cur =>
      _ ← assert ndebug 157 (bool_decide (is_Some (mjoin (child cur !! m))));
      match child cur !! m with
      | Some (Some c) => build_child call m cur c
      | _ => Fault (NullDereference 158)
      end) current.

(** Lines 166-171: the loop over the existing children. *)
Definition build_children (call : option Octnode -> Octnode -> Res outcome)
           (current : Octnode) : Res Octnode :=
  for_each (seq 0 8) (fun m cur =>
      match child cur !! m with
      | Some (Some c) => build_child call m cur c
      | _ => Ok cur
      end) current.

(** Lines 139-149: [current], an inside leaf, is deleted from [parent]. *)
Definition delete_leaf (parent current : Octnode) : Res outcome :=
  let delete_index := idx current in
  _ ← assert ndebug 140 ((0 <=? delete_index) && (delete_index <=? 7));
  if negb ((0 <=? delete_index) && (delete_index <=? 7))
  then Fault (OutOfBounds 141)
  else
    let parent :=
      set_child parent (<[Z.to_nat delete_index := None]> (child parent)) in
    let parent := set_childcount parent (childcount parent - 1) in
    _ ← assert ndebug 144 ((0 <=? childcount parent) && (childcount parent <=? 8));
    if childcount parent =? 0 then
      let parent := evaluate vol parent in
      _ ← assert ndebug 148 (inside parent);
      Ok (Deleted parent)
    else Ok (Deleted parent).

(** [Octree::diff_negative(current, vol)], with the frames of the
    recursion counted by [fuel]. *)
Fixpoint diff_negative (fuel : nat) (parent : option Octnode) (current : Octnode)
  : Res outcome :=
  match fuel with
  | O => Fault OutOfFuel
  | S fuel' =>
      let current := evaluate vol current in
      if childcount current =? 0 then
        if inside current then
          _ ← assert ndebug 137 (bool_decide (is_Some parent));
          match parent with
          | Some parent => delete_leaf parent current
          | None => Ok (Kept current)
          end
        else if outside current then Ok (Kept current)
        else
          if depth current <? maxdepth then
            let current := subdivide current in
            _ ← assert ndebug 155 (childcount current =? 8);
            current ← build_new_children (diff_negative fuel') current;
            Ok (Kept current)
          else Ok (Kept current)
      else
        current ← build_children (diff_negative fuel') current;
        Ok (Kept current)
  end.

(** A number of frames that suffices below [n]: a leaf is refined down
    to [maxdepth] at most, an inner node is as deep as its deepest
    child. *)
Fixpoint frames (n : Octnode) : nat :=
  S (if childcount n =? 0 then Z.to_nat (maxdepth - depth n)
     else max_list (map (fun slot => match slot with
                                     | Some c => frames c
                                     | None => 0%nat
                                     end) (child n))).
End Difference.

(** [Octree::diff_negative_root(vol)] *)
Definition diff_negative_root (ndebug : bool) (t : Octree) (vol : OCTVolume.t)
  : Res Octree :=
  o ← diff_negative ndebug (max_depth t) vol (frames (max_depth t) (root t))
                    None (root t);
  match o with
  | Kept r => Ok (mkOctree r (root_scale t) (max_depth t))
  | Deleted _ => Fault (NullDereference 141)   (* the root has no parent *)
  end.

(** ** Diagnostics *)

(** Lines 182-185 of [Octree::str]: the leaf count of each depth level. *)
Definition nodelevels (t : Octree) : Res (list Z) :=
  let nodelist := get_leaf_nodes (root t) [] [] in
  let nodelevel := replicate (Z.to_nat (max_depth t)) 0 in
  foldl (fun acc n =>
           nodelevel ← acc;
           match node_at (root t) n with
           | None => Fault (NullDereference 184)
           | Some nd =>
               match nodelevel !! Z.to_nat (depth nd) with
               | Some count =>
                   if 0 <=? depth nd
                   then Ok (<[Z.to_nat (depth nd) := count + 1]> nodelevel)
                   else Fault (OutOfBounds 184)
               | None => Fault (OutOfBounds 184)
               end
           end) (Ok nodelevel) nodelist.

(** Lines 188-191: one line per entry of [nodelevel]. *)
Definition level_lines (nodelevel : list Z) : string :=
  String.concat "" (imap (fun m count =>
    "depth=" +:+ pretty m +:+ " has " +:+ pretty count +:+ " nodes" +:+ "
") nodelevel).

(** [Octree::str] *)
Definition str (t : Octree) : Res string :=
  let nodelist := get_leaf_nodes (root t) [] [] in
  nodelevel ← nodelevels t;
  Ok (" Octree:
" +:+ "  " +:+ pretty (length nodelist) +:+ " leaf-nodes:
" +:+ level_lines nodelevel).

(** ** Surface extraction *)

Section Triangulation.
(** Modelled from the spec: [Triangle] is declared in triangle.h, and
    [Octnode::mc_triangles] and [Octnode::side_triangles] are defined in
    octnode.cpp; neither is part of the sources at hand.  The two
    triangulations are queries of a leaf that leave the tree as it is. *)
Variable Triangle : Type.
Variable node_mc_triangles : Octnode -> list Triangle.
Variable node_side_triangles : Octnode -> list Triangle.

(** The loop [BOOST_FOREACH(Triangle t, tris) triangles.push_back(t)]. *)
Definition push_back_all (tris triangles : list Triangle) : list Triangle :=
  foldl (fun triangles t => triangles ++ [t]) triangles tris.

(** [Octree::mc] *)
Definition mc (t : Octree) : Res (list Triangle) :=
  let leaf_nodes := get_leaf_nodes (root t) [] [] in
  foldl (fun acc n =>
           mc_triangles ← acc;
           match node_at (root t) n with
           | None => Fault (NullDereference 105)
           | Some nd => Ok (push_back_all (node_mc_triangles nd) mc_triangles)
           end) (Ok []) leaf_nodes.

(** [Octree::side_triangles] *)
Definition side_triangles (t : Octree) : Res (list Triangle) :=
  let leaf_nodes := get_leaf_nodes (root t) [] [] in
  foldl (fun acc n =>
           s_triangles ← acc;
           match node_at (root t) n with
           | None => Fault (NullDereference 120)
           | Some nd => Ok (push_back_all (node_side_triangles nd) s_triangles)
           end) (Ok []) leaf_nodes.
End Triangulation.

(** ** Vocabulary for the traversal properties *)

(** The children a slot loop meets, with their indices: the non-null
    entries among the first [k] of [slots], where [n] is the index of the
    first one. *)
Fixpoint present (slots : list (option Octnode)) (n k : nat)
  : list (nat * Octnode) :=
  match k, slots with
  | S k', slot :: slots' =>
      match slot with Some c => [(n, c)] | None => [] end
      ++ present slots' (S n) k'
  | _, _ => []
  end.

(** [reaches start p n]: descending from [start] through non-null slots
    0..7 of nodes that have children leads, along [p], to [n]. *)
Inductive reaches (start : Octnode) : ptr -> Octnode -> Prop :=
| reaches_here : reaches start [] start
| reaches_child (m : nat) (c : Octnode) (p : ptr) (n : Octnode) :
    childcount start <> 0 ->
    (m < 8)%nat ->
    child start !! m = Some (Some c) ->
    reaches c p n ->
    reaches start (m :: p) n.

(** Depth-first pre-order on pointers: a node comes before its
    descendants, and the subtree in a lower slot before the subtree in a
    higher one. *)
Fixpoint preorder_lt (p q : ptr) : Prop :=
  match p, q with
  | [], [] => False
  | [], _ :: _ => True
  | _ :: _, [] => False
  | m :: p', k :: q' => (m < k)%nat \/ (m = k /\ preorder_lt p' q')
  end.

(** The pointers, relative to [n], of the leaves below [n], slot by slot. *)
Fixpoint leaf_paths (n : Octnode) : list ptr :=
  if childcount n =? 0 then [[]]
  else for_slots (fun c m acc => acc ++ map (cons m) (leaf_paths c))
                 (child n) 0%nat 8%nat [].

(** Two pointers part ways: neither node is at or below the other. *)
Fixpoint diverge (p q : ptr) : Prop :=
  match p, q with
  | m :: p', k :: q' => m <> k \/ (m = k /\ diverge p' q')
  | _, _ => False
  end.

(** ** Vocabulary for the diagnostics *)

(** The depths of the leaves, in the order of [get_leaf_nodes] from the
    root. *)
Definition leaf_depths (t : Octree) : list Z :=
  omap (fun p => depth <$> node_at (root t) p) (get_leaf_nodes (root t) [] []).

(** Number of leaves of depth [d] in that sequence. *)
Definition leaves_at_depth (t : Octree) (d : Z) : Z :=
  Z.of_nat (count_occ Z.eq_dec (leaf_depths t) d).

(** Line 184, [++nodelevel[d]], on its own. *)
Definition bump (d : Z) (nodelevel : list Z) : Res (list Z) :=
  match nodelevel !! Z.to_nat d with
  | Some count =>
      if 0 <=? d then Ok (<[Z.to_nat d := count + 1]> nodelevel)
      else Fault (OutOfBounds 184)
  | None => Fault (OutOfBounds 184)
  end.

(** ** Vocabulary for the difference properties *)

(** Two states of a node that differ at most in flags, children and
    child count. *)
Definition same_cell (a b : Octnode) : Prop :=
  idx a = idx b /\ depth a = depth b /\ scale a = scale b
  /\ center a = center b /\ bb a = bb b /\ surface a = surface b.

(** The flags [evaluate] gives to a cell. *)
Definition inside_flag (vol : OCTVolume.t) (c : Point) (s : Q) : bool :=
  match OCTVolume.classify vol c s with Inside => true | _ => false end.

Definition outside_flag (vol : OCTVolume.t) (c : Point) (s : Q) : bool :=
  match OCTVolume.classify vol c s with Outside => true | _ => false end.

(** The parent [p] of the deleted leaf [c] after line 143. *)
Definition detached (p c : Octnode) : Octnode :=
  set_childcount (set_child p (<[Z.to_nat (idx c) := None]> (child p)))
                 (childcount p - 1).

(** The parent [p] of the deleted leaf [c] after line 149. *)
Definition collapsed (vol : OCTVolume.t) (p c : Octnode) : Octnode :=
  if childcount p - 1 =? 0 then evaluate vol (detached p c) else detached p c.

(** ** Structural invariants *)

(** Number of non-null slots. *)
Definition occupied (slots : list (option Octnode)) : nat :=
  length (omap id slots).

(** [ok m c] holds of every child [c], where [m] is its slot; [k] is the
    index of the first slot of [slots]. *)
Definition all_slots (ok : nat -> Octnode -> bool)
  : list (option Octnode) -> nat -> bool :=
  fix go (slots : list (option Octnode)) (k : nat) : bool :=
    match slots with
    | [] => true
    | slot :: slots' =>
        match slot with
        | Some c => ok k c
        | None => true
        end && go slots' (S k)
    end.

(** The topology of a subtree is consistent: every node has eight slots,
    its [childcount] is the number of non-null ones, and the child in slot
    [m] carries the index [m]. *)
Fixpoint wfb (n : Octnode) : bool :=
  (length (child n) =? 8)%nat
  && (childcount n =? Z.of_nat (occupied (child n)))
  && all_slots (fun m c => (idx c =? Z.of_nat m) && wfb c) (child n) 0.

Definition wf (n : Octnode) : Prop := wfb n = true.

(** The invariant the specification states for every node. *)
Definition count_ok (n : Octnode) : Prop :=
  childcount n = Z.of_nat (occupied (child n)) /\ 0 <= childcount n <= 8.

(** Number of nodes of a subtree. *)
Fixpoint size (n : Octnode) : nat :=
  S ((fix total (slots : list (option Octnode)) : nat :=
        match slots with
        | [] => 0%nat
        | slot :: slots' =>
            (match slot with Some c => size c | None => 0%nat end + total slots')%nat
        end) (child n)).

(** ** Vocabulary for the collapse *)

(** Every child occupies the octant of its slot. *)
Inductive placed : Octnode -> Prop :=
| placed_intro (n : Octnode) :
    (forall m ch, child n !! m = Some (Some ch) ->
                  center ch = octant_center (center n) (scale n) m
                  /\ scale ch = (scale n / 2)%Q) ->
    (forall m ch, child n !! m = Some (Some ch) -> placed ch) ->
    placed n.

(** The classification respects the partition of a cell into its
    octants: a cell whose eight octants are inside is inside. *)
Definition octant_sound (vol : OCTVolume.t) : Prop :=
  forall c s,
    (forall m, (m < 8)%nat ->
               inside_flag vol (octant_center c s m) (s / 2)%Q = true) ->
    inside_flag vol c s = true.

(** The null slots of [n] are octants that the volume classifies as
    inside. *)
Definition cleared_inside (vol : OCTVolume.t) (n : Octnode) : Prop :=
  forall m, (m < 8)%nat -> child n !! m = Some None ->
            inside_flag vol (octant_center (center n) (scale n) m) (scale n / 2)%Q
            = true.

(** Below [n], every node that has children has lost only children that
    the volume classifies as inside. *)
Inductive collapsible (vol : OCTVolume.t) : Octnode -> Prop :=
| collapsible_intro (n : Octnode) :
    (childcount n <> 0 -> cleared_inside vol n) ->
    (forall m ch, child n !! m = Some (Some ch) -> collapsible vol ch) ->
    collapsible vol n.

(** Below [n], every node that has children has all eight. *)
Inductive full : Octnode -> Prop :=
| full_intro (n : Octnode) :
    (childcount n <> 0 -> forall m, (m < 8)%nat -> child n !! m <> Some None) ->
    (forall m ch, child n !! m = Some (Some ch) -> full ch) ->
    full n.

(** The point [pt] lies in the cube with centre [c] and half-width [s]. *)
Definition in_cube (pt c : Point) (s : Q) : Prop :=
  (px c - s <= px pt <= px c + s
   /\ py c - s <= py pt <= py c + s
   /\ pz c - s <= pz pt <= pz c + s)%Q.

(** Checkers for sample trees. *)
Definition Q_same (a b : Q) : bool :=
  (Qnum a =? Qnum b) && (Qden a =? Qden b)%positive.

Definition Point_same (a b : Point) : bool :=
  Q_same (px a) (px b) && Q_same (py a) (py b) && Q_same (pz a) (pz b).

Fixpoint placedb (n : Octnode) : bool :=
  all_slots (fun m c =>
               Point_same (center c) (octant_center (center n) (scale n) m)
               && Q_same (scale c) (scale n / 2)%Q
               && placedb c) (child n) 0.

Fixpoint fullb (n : Octnode) : bool :=
  ((childcount n =? 0) || forallb (fun slot => bool_decide (is_Some slot)) (child n))
  && all_slots (fun _ c => fullb c) (child n) 0.

(** ** Vocabulary for the engulfed tree *)

(** [n] is subdivided uniformly, [d] levels deep. *)
Fixpoint perfect (d : nat) (n : Octnode) : Prop :=
  match d with
  | O => childcount n = 0
  | S d' =>
      childcount n <> 0
      /\ forall m, (m < 8)%nat ->
                   exists ch, child n !! m = Some (Some ch) /\ perfect d' ch
  end.

(** The volume classifies the cell of every node below [n] as inside, and
    its bounding box overlaps the bounding box of every such node. *)
Definition engulfs (vol : OCTVolume.t) (n : Octnode) : Prop :=
  forall p x, node_at n p = Some x ->
              inside_flag vol (center x) (scale x) = true
              /\ overlaps (OCTVolume.bb vol) (bb x) = true.


Fixpoint perfectb (d : nat) (n : Octnode) : bool :=
  match d with
  | O => childcount n =? 0
  | S d' =>
      negb (childcount n =? 0)
      && forallb (fun m => match child n !! m with
                           | Some (Some ch) => perfectb d' ch
                           | _ => false
                           end) (seq 0 8)
  end.


(** What the pass leaves of a slot of an engulfed node: a leaf is
    deleted, a node with children stays, in its new state. *)
Definition peel_slot (peel : Octnode -> Octnode) (slot : option Octnode)
  : option Octnode :=
  match slot with
  | Some c => if childcount c =? 0 then None else Some (peel c)
  | None => None
  end.

(** The number of leaves among the children. *)
Definition leaf_children (slots : list (option Octnode)) : nat :=
  length (filter (fun c : Octnode => childcount c = 0) (omap id slots)).

(** What the pass leaves of an engulfed node that has children: the node
    is evaluated, the children that are leaves are deleted, the others are
    left in their new state. *)
Fixpoint peel (vol : OCTVolume.t) (n : Octnode) : Octnode :=
  set_childcount
    (set_child (evaluate vol n) (map (peel_slot (peel vol)) (child n)))
    (childcount n - Z.of_nat (leaf_children (child n))).


(** The bounding box of every node below [r] is the cube of its centre
    and half-width. *)
Definition boxed (r : Octnode) : Prop :=
  forall p x, node_at r p = Some x -> bb x = cube (center x) (scale x).

(** ** Sample volumes and trees *)

(** [a] lies within [b]. *)
Definition within (a b : Bbox) : bool :=
  Qle_bool (px (minpt b)) (px (minpt a)) && Qle_bool (px (maxpt a)) (px (maxpt b))
  && Qle_bool (py (minpt b)) (py (minpt a)) && Qle_bool (py (maxpt a)) (py (maxpt b))
  && Qle_bool (pz (minpt b)) (pz (minpt a)) && Qle_bool (pz (maxpt a)) (pz (maxpt b)).

(** A solid box, classifying a cell by its extent: inside when the cell
    lies within the box, outside when it does not meet the box. *)
Definition box_volume (b : Bbox) : OCTVolume.t :=
  OCTVolume.mk b (fun c s =>
    if within (cube c s) b then Inside
    else if overlaps b (cube c s) then Boundary
    else Outside).



Definition box (x0 y0 z0 x1 y1 z1 : Q) : Bbox :=
  mkBbox (mkPoint x0 y0 z0) (mkPoint x1 y1 z1).

Definition origin : Point := mkPoint 0 0 0.

(** The cube of half-width 2 around the origin, engulfing the unit root. *)
Definition everything : OCTVolume.t := box_volume (box (-2) (-2) (-2) 2 2 2).

(** The halves below and above the plane z = 0. *)
Definition lower_half : OCTVolume.t := box_volume (box (-2) (-2) (-2) 2 2 0).
Definition upper_half : OCTVolume.t := box_volume (box (-2) (-2) 0 2 2 2).

(** A box away from the unit root. *)
Definition far_away : OCTVolume.t := box_volume (box 10 10 10 11 11 11).

(** A box covering the corner (1,1,1) of the unit root. *)
Definition corner : OCTVolume.t := box_volume (box (1 # 2) (1 # 2) (1 # 2) 2 2 2).


(** The tree of a run, or the fresh unit tree if the run stopped. *)
Definition tree_of (dflt : Octree) (r : Res Octree) : Octree :=
  match r with Ok t => t | Fault _ => dflt end.

(** The unit root with ceiling [d], and the same after [n] rounds of
    uniform subdivision. *)
Definition unit_tree (d : Z) : Octree := new_Octree 1 d origin.

Definition uniform_tree (d : Z) (n : nat) : Octree :=
  tree_of (unit_tree d) (init n (unit_tree d)).


(** The unit root with ceiling 1 after the corner (1,1,1) was cut away:
    the root is subdivided, its leaves are at depth 1. *)
Definition corner_cut_tree : Octree :=
  tree_of (unit_tree 1) (diff_negative_root false (unit_tree 1) corner).

(** ** Reachable trees *)

(** The trees a program can hold: built by the constructor and carried
    through [init] and [diff_negative_root] runs that returned. *)
Inductive reachable (ndebug : bool) : Octree -> Prop :=
| reachable_new (scale0 : Q) (depth0 : Z) (centerp : Point) :
    reachable ndebug (new_Octree scale0 depth0 centerp)
| reachable_init (n : nat) (t t' : Octree) :
    reachable ndebug t -> init n t = Ok t' -> reachable ndebug t'
| reachable_diff (vol : OCTVolume.t) (t t' : Octree) :
    reachable ndebug t -> diff_negative_root ndebug t vol = Ok t' ->
    reachable ndebug t'.

(** The trees built by the constructor from the half-width [scale0], the
    ceiling [depth0] and the centre [centerp], and carried through [init]
    and [diff_negative_root] runs that returned. *)
Inductive built_from (ndebug : bool) (scale0 : Q) (depth0 : Z) (centerp : Point)
  : Octree -> Prop :=
| built_new : built_from ndebug scale0 depth0 centerp (new_Octree scale0 depth0 centerp)
| built_init (n : nat) (t t' : Octree) :
    built_from ndebug scale0 depth0 centerp t -> init n t = Ok t' ->
    built_from ndebug scale0 depth0 centerp t'
| built_diff (vol : OCTVolume.t) (t t' : Octree) :
    built_from ndebug scale0 depth0 centerp t ->
    diff_negative_root ndebug t vol = Ok t' ->
    built_from ndebug scale0 depth0 centerp t'.

(** ** Vocabulary for the traversals of all nodes and of the leaves *)

(** The pointers, relative to [n], of the nodes below [n]: [n] first,
    then the subtrees slot by slot. *)
Fixpoint all_paths (n : Octnode) : list ptr :=
  [] :: for_slots (fun c m acc => acc ++ map (cons m) (all_paths c))
                  (child n) 0%nat 8%nat [].

(** The pointer [p] designates a leaf of the tree below [r]. *)
Definition leaf_at (r : Octnode) (p : ptr) : bool :=
  match node_at r p with
  | Some n => childcount n =? 0
  | None => false
  end.

(** The leaves below [n], slot by slot. *)
Fixpoint leaves (n : Octnode) : list Octnode :=
  if childcount n =? 0 then [n]
  else for_slots (fun c _ acc => acc ++ leaves c) (child n) 0%nat 8%nat [].

(** ** Vocabulary for the uniform subdivision *)

(** One round of subdivision by recursion on the tree: every leaf is
    subdivided, every node that has children keeps its state and has its
    children refined. *)
Fixpoint refine (n : Octnode) : Octnode :=
  if childcount n =? 0 then subdivide n
  else set_child n (map (option_map refine) (child n)).

(** The depth grows by one from a node to its children. *)
Definition leveled (r : Octnode) : Prop :=
  forall p x, node_at r p = Some x -> depth x = depth r + Z.of_nat (length p).

(** The sum of the entries of [nodelevel]. *)
Definition total_count (counts : list Z) : Z := foldr Z.add 0 counts.

(** ** Vocabulary for the depth ceiling and the cells *)

(** Every node below [n] has depth at most [D]. *)
Definition shallow (D : Z) (n : Octnode) : Prop :=
  forall p x, node_at n p = Some x -> depth x <= D.

(** The volume classifies the cell of [x] as neither inside nor outside. *)
Definition straddles (vol : OCTVolume.t) (x : Octnode) : Prop :=
  inside_flag vol (center x) (scale x) = false
  /\ outside_flag vol (center x) (scale x) = false.

(** A pointer that is valid in both trees designates the same cell. *)
Definition cells_kept (a b : Octnode) : Prop :=
  forall p x y, node_at a p = Some x -> node_at b p = Some y -> same_cell x y.

(** * Properties *)

(** ** The leaf scale *)

Lemma int_of_unsigned_small (u : Z) : u < 2 ^ 31 -> int_of_unsigned u = u.
Proof.
  intros Hu. unfold int_of_unsigned.
  destruct (Z.ltb_spec u (2 ^ 31)); [reflexivity | lia].
Qed.

Lemma two_not_zero : ~ (2 == 0)%Q.
Proof. discriminate. Qed.

Lemma Qpow2_pos (n : Z) : (0 < 2 ^ n)%Q.
Proof. apply Qpower_0_lt. reflexivity. Qed.

Lemma Qpow2_nonzero (n : Z) : ~ (2 ^ n == 0)%Q.
Proof. intros H. pose proof (Qpow2_pos n) as Hp. rewrite H in Hp. inversion Hp. Qed.

Lemma Qpow2_inject (n : Z) : 0 <= n -> (inject_Z (2 ^ n) == 2 ^ n)%Q.
Proof. intros Hn. rewrite Zpower_Qpower by exact Hn. reflexivity. Qed.

Lemma Qpow2_le (n m : Z) : n <= m -> (2 ^ n <= 2 ^ m)%Q.
Proof. intros H. apply Qpower_le_compat_l; [exact H | discriminate]. Qed.

Lemma Qpow2_lt (n m : Z) : n < m -> (2 ^ n < 2 ^ m)%Q.
Proof. intros H. apply Qpower_lt_compat_l; [exact H | reflexivity]. Qed.

Lemma Qpow2_lt_inv (n m : Z) : (2 ^ n < 2 ^ m)%Q -> n < m.
Proof. intros H. eapply Qpower_lt_compat_l_inv; [exact H | reflexivity]. Qed.

Lemma Qpow2_le_inv (n m : Z) : (2 ^ n <= 2 ^ m)%Q -> n <= m.
Proof. intros H. eapply Qpower_le_compat_l_inv; [exact H | reflexivity]. Qed.

(** Division by a power of 2 shifts the exponent. *)
Lemma Qpow2_div (n m : Z) : (2 ^ n / 2 ^ m == 2 ^ (n - m))%Q.
Proof. rewrite (Qpower_minus 2 n m two_not_zero). reflexivity. Qed.

Lemma Qpow2_mul (n m : Z) : (2 ^ n * 2 ^ m == 2 ^ (n + m))%Q.
Proof. rewrite (Qpower_plus 2 n m two_not_zero). reflexivity. Qed.

Lemma Qlog2_spec (a : Q) :
  (0 < a)%Q -> (2 ^ Qlog2 a <= a)%Q /\ (a < 2 ^ (Qlog2 a + 1))%Q.
Proof.
  intros Ha. destruct a as [n d]. unfold Qlog2. cbn [Qnum Qden].
  assert (Hn : 0 < n) by (unfold Qlt in Ha; simpl in Ha; lia).
  pose proof (Z.log2_spec n Hn) as [Hn1 Hn2].
  pose proof (Z.log2_spec (Z.pos d) (Pos2Z.is_pos d)) as [Hd1 Hd2].
  pose proof (Z.log2_nonneg n) as Hln.
  pose proof (Z.log2_nonneg (Z.pos d)) as Hld.
  set (ln := Z.log2 n) in *. set (ld := Z.log2 (Z.pos d)) in *.
  assert (Hq : (n # d == inject_Z n / inject_Z (Z.pos d))%Q) by apply Qmake_Qdiv.
  assert (Hdpos : (0 < inject_Z (Z.pos d))%Q) by reflexivity.
  assert (Hlow : (2 ^ (ln - ld - 1) <= n # d)%Q).
  { rewrite Hq. apply Qle_shift_div_l; [exact Hdpos |].
    apply Qle_trans with (2 ^ (ln - ld - 1) * 2 ^ (ld + 1))%Q.
    - apply Qmult_le_l; [apply Qpow2_pos |].
      rewrite <- Qpow2_inject by lia. rewrite <- Zle_Qle. unfold Z.succ in Hd2. lia.
    - rewrite Qpow2_mul. replace (ln - ld - 1 + (ld + 1)) with ln by lia.
      rewrite <- Qpow2_inject by lia. rewrite <- Zle_Qle. exact Hn1. }
  assert (Hhigh : (n # d < 2 ^ (ln - ld + 1))%Q).
  { rewrite Hq. apply Qlt_shift_div_r; [exact Hdpos |].
    apply Qlt_le_trans with (2 ^ (ln + 1))%Q.
    - rewrite <- Qpow2_inject by lia. rewrite <- Zlt_Qlt. exact Hn2.
    - replace (ln + 1) with (ln - ld + 1 + ld) by lia. rewrite <- Qpow2_mul.
      apply Qmult_le_l; [apply Qpow2_pos |].
      rewrite <- Qpow2_inject by lia. rewrite <- Zle_Qle. exact Hd1. }
  destruct (Qle_bool (2 ^ (ln - ld)) (n # d)) eqn:Hb.
  - apply Qle_bool_iff in Hb. split; assumption.
  - split; [exact Hlow |]. replace (ln - ld - 1 + 1) with (ln - ld) by lia.
    apply Qnot_le_lt. intros Hle. apply Qle_bool_iff in Hle. congruence.
Qed.

Lemma Qlog2_unique (a : Q) (k : Z) :
  (2 ^ k <= a)%Q -> (a < 2 ^ (k + 1))%Q -> Qlog2 a = k.
Proof.
  intros Hlo Hhi.
  assert (Ha : (0 < a)%Q) by (eapply Qlt_le_trans; [apply (Qpow2_pos k) | exact Hlo]).
  destruct (Qlog2_spec a Ha) as [Hlo' Hhi'].
  assert (k < Qlog2 a + 1)
    by (apply Qpow2_lt_inv; eapply Qle_lt_trans; eassumption).
  assert (Qlog2 a < k + 1)
    by (apply Qpow2_lt_inv; eapply Qle_lt_trans; eassumption).
  lia.
Qed.

Lemma round_half_even_Z (x : Q) (z : Z) :
  (x == inject_Z z)%Q -> round_half_even x = z.
Proof.
  intros Hx. unfold round_half_even.
  rewrite (Qfloor_comp _ _ Hx), Qfloor_Z.
  assert (Hlt : (x - inject_Z z < 1 # 2)%Q) by (rewrite Hx; lra).
  rewrite (proj1 (Qlt_alt _ _) Hlt). reflexivity.
Qed.

Lemma round_half_even_floor (x : Q) : Qfloor x <= round_half_even x.
Proof.
  unfold round_half_even.
  destruct (x - inject_Z (Qfloor x) ?= 1 # 2)%Q; [destruct (Z.even _) | |]; lia.
Qed.

Lemma round_half_even_ge (x : Q) (z : Z) :
  (inject_Z z <= x)%Q -> z <= round_half_even x.
Proof.
  intros H. apply Qfloor_resp_le in H. rewrite Qfloor_Z in H.
  pose proof (round_half_even_floor x). lia.
Qed.

Lemma round_half_even_small (x : Q) :
  (0 <= x)%Q -> (x <= 1 # 2)%Q -> round_half_even x = 0.
Proof.
  intros H0 H1.
  assert (Hf : Qfloor x = 0).
  { pose proof (Qfloor_resp_le _ _ H0) as Hlo. change (Qfloor 0) with 0 in Hlo.
    pose proof (Qfloor_le x) as Hle.
    assert (Hlt : (inject_Z (Qfloor x) < inject_Z 1)%Q)
      by (eapply Qle_lt_trans; [exact Hle |]; eapply Qle_lt_trans; [exact H1 | reflexivity]).
    rewrite <- Zlt_Qlt in Hlt. lia. }
  unfold round_half_even. rewrite Hf.
  destruct (Qcompare_spec (x - inject_Z 0) (1 # 2)) as [Hc | Hc | Hc];
    [reflexivity | reflexivity |].
  change (inject_Z 0) with 0%Q in Hc. lra.
Qed.

Lemma Qnegative_false (q : Q) : (0 <= q)%Q -> Qnegative q = false.
Proof.
  intros H. unfold Qnegative. apply Qle_bool_iff in H. rewrite H. reflexivity.
Qed.

Lemma Qnegative_true (q : Q) : (q < 0)%Q -> Qnegative q = true.
Proof.
  intros H. unfold Qnegative. destruct (Qle_bool 0 q) eqn:Hb; [| reflexivity].
  apply Qle_bool_iff in Hb. lra.
Qed.

(** A binary64 value is rounded to itself. *)
Lemma round64_exact (q : Q) (m e : Z) :
  (q == inject_Z m * 2 ^ e)%Q ->
  0 < Z.abs m < 2 ^ 53 -> -1074 <= e -> Z.log2 (Z.abs m) + e <= 1023 ->
  exists q', round64 q = Finite q' /\ (q' == q)%Q.
Proof.
  intros Hq Hm He Htop.
  pose proof (Qpow2_pos e) as Hpe.
  assert (Ha : (Qabs q == inject_Z (Z.abs m) * 2 ^ e)%Q).
  { rewrite (Qabs_wd _ _ Hq), Qabs_Qmult, (Qabs_pos (2 ^ e)) by lra.
    apply Qmult_comp; [| reflexivity].
    unfold Qabs, inject_Z. reflexivity. }
  pose proof (Z.log2_spec (Z.abs m) ltac:(lia)) as [Hl1 Hl2].
  pose proof (Z.log2_nonneg (Z.abs m)) as Hl0.
  set (l := Z.log2 (Z.abs m)) in *.
  assert (Hl52 : l <= 52).
  { assert (2 ^ l < 2 ^ 53) by lia.
    apply Z.pow_lt_mono_r_iff in H; lia. }
  assert (Hlog : Qlog2 (Qabs q) = l + e).
  { apply Qlog2_unique; rewrite Ha.
    - rewrite <- Qpow2_mul. apply Qmult_le_compat_r; [| lra].
      rewrite <- Qpow2_inject by lia. rewrite <- Zle_Qle. exact Hl1.
    - replace (l + e + 1) with (l + 1 + e) by lia. rewrite <- Qpow2_mul.
      apply Qmult_lt_compat_r; [exact Hpe |].
      rewrite <- Qpow2_inject by lia. rewrite <- Zlt_Qlt. exact Hl2. }
  unfold round64. rewrite Hlog.
  set (e' := Z.max (l + e - 52) (-1074)).
  assert (He' : -1074 <= e' <= e) by (unfold e'; lia).
  set (M := Z.abs m * 2 ^ (e - e')).
  assert (HM : (Qabs q / 2 ^ e' == inject_Z M)%Q).
  { unfold M. rewrite inject_Z_mult, Qpow2_inject by lia.
    rewrite Ha. unfold Qdiv. rewrite <- Qmult_assoc.
    apply Qmult_comp; [reflexivity |]. fold (Qdiv (2 ^ e) (2 ^ e')).
    apply Qpow2_div. }
  rewrite (round_half_even_Z _ _ HM).
  assert (HMpos : 0 < M) by (unfold M; apply Z.mul_pos_pos; [lia | apply Z.pow_pos_nonneg; lia]).
  destruct (Z.eqb_spec M 0) as [HM0 | _]; [lia |].
  assert (Hback : (inject_Z M * 2 ^ e' == Qabs q)%Q).
  { rewrite <- HM. field. apply Qpow2_nonzero. }
  assert (Hsmall : (Qabs q < 2 ^ 1024)%Q).
  { rewrite Ha. apply Qlt_le_trans with (2 ^ (l + 1) * 2 ^ e)%Q.
    - apply Qmult_lt_compat_r; [exact Hpe |].
      rewrite <- Qpow2_inject by lia. rewrite <- Zlt_Qlt. exact Hl2.
    - rewrite Qpow2_mul. apply Qpow2_le. lia. }
  destruct (Qle_bool (2 ^ 1024) (inject_Z M * 2 ^ e')) eqn:Hov.
  { apply Qle_bool_iff in Hov. rewrite Hback in Hov. lra. }
  eexists. split; [reflexivity |].
  destruct (Qlt_le_dec q 0) as [Hneg | Hpos].
  - rewrite (Qnegative_true _ Hneg), Hback, Qabs_neg by lra. ring.
  - rewrite (Qnegative_false _ Hpos), Hback, Qabs_pos by lra. reflexivity.
Qed.

Lemma round64_zero (q : Q) : (q == 0)%Q -> round64 q = Zero false.
Proof.
  intros Hq. unfold round64.
  rewrite (round_half_even_Z _ 0).
  - simpl. rewrite Qnegative_false by lra. reflexivity.
  - generalize (Z.max (Qlog2 (Qabs q) - 52) (-1074)). intros e.
    rewrite (Qabs_wd _ _ Hq). change (Qabs 0) with 0%Q. change (inject_Z 0) with 0%Q.
    unfold Qdiv. ring.
Qed.

(** From 2^1024 on the rounding overflows. *)
Lemma round64_overflow (q : Q) : (2 ^ 1024 <= q)%Q -> round64 q = Infinity false.
Proof.
  intros Hq.
  assert (Hpos : (0 < q)%Q) by (eapply Qlt_le_trans; [apply (Qpow2_pos 1024) | exact Hq]).
  destruct (Qlog2_spec q Hpos) as [Hlo Hhi].
  assert (HL : 1024 <= Qlog2 q).
  { assert (1024 < Qlog2 q + 1); [| lia].
    apply Qpow2_lt_inv. eapply Qle_lt_trans; eassumption. }
  unfold round64. rewrite (Qnegative_false q) by lra.
  assert (Habs : (Qabs q == q)%Q) by (apply Qabs_pos; lra).
  set (a := Qabs q) in *.
  assert (Hlog : Qlog2 a = Qlog2 q).
  { apply Qlog2_unique; rewrite Habs; assumption. }
  rewrite Hlog. set (L := Qlog2 q) in *.
  replace (Z.max (L - 52) (-1074)) with (L - 52) by lia.
  pose proof (Qpow2_pos (L - 52)) as Hpe.
  assert (Hm : 2 ^ 52 <= round_half_even (a / 2 ^ (L - 52))).
  { apply round_half_even_ge. rewrite Qpow2_inject by lia.
    apply Qle_shift_div_l; [exact Hpe |].
    rewrite Qpow2_mul. replace (52 + (L - 52)) with L by lia. rewrite Habs. exact Hlo. }
  set (M := round_half_even (a / 2 ^ (L - 52))) in *.
  destruct (Z.eqb_spec M 0) as [HM0 | _]; [lia |].
  assert (Hov : (2 ^ 1024 <= inject_Z M * 2 ^ (L - 52))%Q).
  { apply Qle_trans with (2 ^ L)%Q; [apply Qpow2_le; lia |].
    replace L with (52 + (L - 52)) at 1 by lia. rewrite <- Qpow2_mul.
    apply Qmult_le_compat_r; [| lra].
    rewrite <- Qpow2_inject by lia. rewrite <- Zle_Qle. exact Hm. }
  apply Qle_bool_iff in Hov. rewrite Hov. reflexivity.
Qed.

(** Up to the middle between zero and the least positive value the
    rounding underflows to zero. *)
Lemma round64_underflow (q : Q) :
  (0 < q)%Q -> (q <= 2 ^ (-1075))%Q -> round64 q = Zero false.
Proof.
  intros Hpos Hq.
  destruct (Qlog2_spec q Hpos) as [Hlo Hhi].
  assert (HL : Qlog2 q <= -1075).
  { apply Qpow2_le_inv. eapply Qle_trans; eassumption. }
  unfold round64. rewrite (Qnegative_false q) by lra.
  assert (Habs : (Qabs q == q)%Q) by (apply Qabs_pos; lra).
  set (a := Qabs q) in *.
  assert (Hlog : Qlog2 a = Qlog2 q).
  { apply Qlog2_unique; rewrite Habs; assumption. }
  rewrite Hlog. set (L := Qlog2 q) in *.
  replace (Z.max (L - 52) (-1074)) with (-1074) by lia.
  rewrite round_half_even_small; [reflexivity | |].
  - apply Qle_shift_div_l; [apply Qpow2_pos |]. rewrite Habs. lra.
  - apply Qle_shift_div_r; [apply Qpow2_pos |]. rewrite Habs.
    eapply Qle_trans; [exact Hq |]. vm_compute. discriminate.
Qed.

(** From the least positive value on the rounding gives a positive value
    or overflows. *)
Lemma round64_positive (q : Q) :
  (2 ^ (-1074) <= q)%Q ->
  (exists q', round64 q = Finite q' /\ (2 ^ (-1074) <= q')%Q)
  \/ round64 q = Infinity false.
Proof.
  intros Hq.
  assert (Hpos : (0 < q)%Q) by (eapply Qlt_le_trans; [apply (Qpow2_pos (-1074)) | exact Hq]).
  unfold round64. rewrite (Qnegative_false q) by lra.
  assert (Habs : (Qabs q == q)%Q) by (apply Qabs_pos; lra).
  set (a := Qabs q) in *.
  assert (Ha : (0 < a)%Q) by (rewrite Habs; exact Hpos).
  destruct (Qlog2_spec a Ha) as [Hlo Hhi].
  set (L := Qlog2 a) in *. set (e := Z.max (L - 52) (-1074)).
  pose proof (Qpow2_pos e) as Hpe.
  assert (Hm : 1 <= round_half_even (a / 2 ^ e)).
  { apply round_half_even_ge. change (inject_Z 1) with 1%Q.
    apply Qle_shift_div_l; [exact Hpe |]. rewrite Qmult_1_l.
    destruct (Z.max_spec (L - 52) (-1074)) as [[_ He] | [_ He]]; fold e in He; rewrite He.
    - rewrite Habs. exact Hq.
    - eapply Qle_trans; [| exact Hlo]. apply Qpow2_le. lia. }
  set (M := round_half_even (a / 2 ^ e)) in *.
  destruct (Z.eqb_spec M 0) as [HM0 | _]; [lia |].
  destruct (Qle_bool (2 ^ 1024) (inject_Z M * 2 ^ e)); [right; reflexivity |].
  left. eexists. split; [reflexivity |].
  apply Qle_trans with (1 * 2 ^ e)%Q.
  - rewrite Qmult_1_l. apply Qpow2_le. unfold e. lia.
  - apply Qmult_le_compat_r; [| lra].
    change 1%Q with (inject_Z 1). rewrite <- Zle_Qle. exact Hm.
Qed.

(** The powers of 2.0: exact from 2^-1074 to 2^1023, infinite above,
    zero below. *)
Lemma pow2_exact (n : Z) :
  -1074 <= n <= 1023 -> exists q, pow2 n = Finite q /\ (q == 2 ^ n)%Q.
Proof.
  intros Hn. unfold pow2. apply (round64_exact (2 ^ n) 1 n).
  - change (inject_Z 1) with 1%Q. ring.
  - split; reflexivity.
  - lia.
  - change (Z.log2 (Z.abs 1)) with 0. lia.
Qed.

Lemma pow2_overflow (n : Z) : 1024 <= n -> pow2 n = Infinity false.
Proof. intros Hn. apply round64_overflow, Qpow2_le, Hn. Qed.

Lemma pow2_underflow (n : Z) : n <= -1075 -> pow2 n = Zero false.
Proof.
  intros Hn. apply round64_underflow; [apply Qpow2_pos | apply Qpow2_le, Hn].
Qed.

(** ** Induction on subtrees *)

Lemma size_child (n c : Octnode) (m : nat) :
  child n !! m = Some (Some c) -> (size c < size n)%nat.
Proof.
  destruct n as [i d s ce b cc slots ins outs sf]. simpl.
  revert m. induction slots as [| slot slots IH]; intros m Hm; [discriminate |].
  destruct m as [| m]; simpl in Hm.
  - injection Hm as ->. lia.
  - specialize (IH m Hm). lia.
Qed.

Lemma Octnode_ind (P : Octnode -> Prop) :
  (forall n, (forall m c, child n !! m = Some (Some c) -> P c) -> P n) ->
  forall n, P n.
Proof.
  intros step n.
  induction n as [n IH] using (induction_ltof1 _ size). unfold ltof in IH.
  apply step. intros m c Hc. apply IH. eapply size_child, Hc.
Qed.

(** ** Consistency of the topology *)

Lemma occupied_cons (slot : option Octnode) (slots : list (option Octnode)) :
  occupied (slot :: slots)
  = (match slot with Some _ => 1 | None => 0 end + occupied slots)%nat.
Proof. unfold occupied. destruct slot; reflexivity. Qed.

Lemma occupied_le_length (slots : list (option Octnode)) :
  (occupied slots <= length slots)%nat.
Proof.
  induction slots as [| slot slots IH]; [reflexivity |].
  rewrite occupied_cons. destruct slot; simpl; lia.
Qed.

Lemma occupied_clear (slots : list (option Octnode)) (m : nat) (c : Octnode) :
  slots !! m = Some (Some c) ->
  occupied slots = S (occupied (<[m := None]> slots)).
Proof.
  revert m. induction slots as [| slot slots IH]; intros m Hm; [discriminate |].
  destruct m as [| m]; simpl in Hm.
  - injection Hm as ->. reflexivity.
  - simpl. rewrite !occupied_cons, (IH m Hm). destruct slot; lia.
Qed.

Lemma occupied_replace (slots : list (option Octnode)) (m : nat) (c c' : Octnode) :
  slots !! m = Some (Some c) ->
  occupied (<[m := Some c']> slots) = occupied slots.
Proof.
  revert m. induction slots as [| slot slots IH]; intros m Hm; [discriminate |].
  destruct m as [| m]; simpl in Hm.
  - injection Hm as ->. reflexivity.
  - simpl. rewrite !occupied_cons, (IH m Hm). reflexivity.
Qed.

Lemma occupied_none (slots : list (option Octnode)) :
  occupied slots = 0%nat ->
  forall m, (m < length slots)%nat -> slots !! m = Some None.
Proof.
  induction slots as [| slot slots IH]; intros Hocc m Hm; simpl in Hm; [lia |].
  rewrite occupied_cons in Hocc. destruct slot; [discriminate |].
  destruct m as [| m]; [reflexivity |]. simpl. apply IH; [exact Hocc | lia].
Qed.

Lemma all_slots_spec (ok : nat -> Octnode -> bool)
      (slots : list (option Octnode)) (k : nat) :
  all_slots ok slots k = true
  <-> forall m c, slots !! m = Some (Some c) -> ok (k + m)%nat c = true.
Proof.
  revert k. induction slots as [| slot slots IH]; intros k.
  - split; [intros _ m c Hm; discriminate | reflexivity].
  - cbn [all_slots]. fold (all_slots ok). rewrite andb_true_iff, IH. split.
    + intros [Hslot Hrest] m c Hm. destruct m as [| m]; simpl in Hm.
      * injection Hm as ->. rewrite Nat.add_0_r. exact Hslot.
      * replace (k + S m)%nat with (S k + m)%nat by lia. apply Hrest, Hm.
    + intros H. split.
      * destruct slot as [c |]; [| reflexivity].
        specialize (H 0%nat c eq_refl). rewrite Nat.add_0_r in H. exact H.
      * intros m c Hm. replace (S k + m)%nat with (k + S m)%nat by lia.
        apply H, Hm.
Qed.

Lemma wf_unfold (n : Octnode) :
  wf n <->
  length (child n) = 8%nat
  /\ childcount n = Z.of_nat (occupied (child n))
  /\ forall m c, child n !! m = Some (Some c) -> idx c = Z.of_nat m /\ wf c.
Proof.
  unfold wf at 1. destruct n as [i d s ce b cc slots ins outs sf].
  cbn [wfb child childcount]. fold wfb.
  rewrite !andb_true_iff, all_slots_spec, Nat.eqb_eq, Z.eqb_eq.
  split.
  - intros [[Hlen Hcc] Hch]. split; [exact Hlen |]. split; [exact Hcc |].
    intros m c Hm. apply Hch in Hm. apply andb_true_iff in Hm as [Hi Hw].
    split; [apply Z.eqb_eq, Hi | exact Hw].
  - intros (Hlen & Hcc & Hch). split; [auto |].
    intros m c Hm. destruct (Hch m c Hm) as [Hi Hw].
    apply andb_true_iff. split; [apply Z.eqb_eq, Hi | exact Hw].
Qed.

Lemma wf_count_ok (n : Octnode) : wf n -> count_ok n.
Proof.
  intros (Hlen & Hcc & _)%wf_unfold. split; [exact Hcc |].
  pose proof (occupied_le_length (child n)). lia.
Qed.

Lemma wf_child (n c : Octnode) (m : nat) :
  wf n -> child n !! m = Some (Some c) -> wf c.
Proof. intros (_ & _ & H)%wf_unfold Hm. apply (H m c Hm). Qed.

Lemma wf_child_idx (n c : Octnode) (m : nat) :
  wf n -> child n !! m = Some (Some c) -> idx c = Z.of_nat m.
Proof. intros (_ & _ & H)%wf_unfold Hm. apply (H m c Hm). Qed.

Lemma wf_node_at (r n : Octnode) (p : ptr) :
  wf r -> node_at r p = Some n -> wf n.
Proof.
  revert r. induction p as [| m p IH]; intros r Hr Hn; simpl in Hn.
  - injection Hn as <-. exact Hr.
  - destruct (child r !! m) as [[c |] |] eqn:Hm; try discriminate.
    eapply IH; [eapply wf_child; eassumption | exact Hn].
Qed.

(** ** Slot loops *)

Lemma for_slots_present {A : Type} (visit : Octnode -> nat -> A -> A)
      (slots : list (option Octnode)) (n k : nat) (acc : A) :
  for_slots visit slots n k acc
  = foldl (fun acc mc => visit (snd mc) (fst mc) acc) acc (present slots n k).
Proof.
  revert n k acc. induction slots as [| slot slots IH]; intros n k acc.
  - destruct k; reflexivity.
  - destruct k as [| k]; [reflexivity |]. simpl.
    rewrite IH. destruct slot; reflexivity.
Qed.

Lemma in_present (slots : list (option Octnode)) (n k m : nat) (c : Octnode) :
  In (m, c) (present slots n k)
  <-> exists j, m = (n + j)%nat /\ (j < k)%nat /\ slots !! j = Some (Some c).
Proof.
  revert n k. induction slots as [| slot slots IH]; intros n k.
  - destruct k; simpl; split; try tauto; intros (j & _ & _ & Hj); discriminate.
  - destruct k as [| k]; simpl.
    + split; [tauto | intros (j & _ & Hj & _); lia].
    + rewrite in_app_iff, IH. split.
      * intros [Hin | (j & -> & Hj & Hs)].
        -- destruct slot as [c0 |]; [| destruct Hin].
           destruct Hin as [Heq | []]. injection Heq as -> ->.
           exists 0%nat. split; [lia | split; [lia | reflexivity]].
        -- exists (S j). split; [lia | split; [lia | exact Hs]].
      * intros ([| j] & -> & Hj & Hs); simpl in Hs.
        -- injection Hs as ->. left. left. f_equal. lia.
        -- right. exists j. split; [lia | split; [lia | exact Hs]].
Qed.

Lemma present_from (slots : list (option Octnode)) (n k m : nat) (c : Octnode) :
  In (m, c) (present slots n k) -> (n <= m)%nat.
Proof. intros (j & -> & _)%in_present. lia. Qed.

Lemma foldl_app_blocks {A B : Type} (f : B -> list A) (l : list B) (acc : list A) :
  foldl (fun acc b => acc ++ f b) acc l = acc ++ concat (map f l).
Proof.
  revert acc. induction l as [| b l IH]; intros acc; simpl.
  - symmetry. apply app_nil_r.
  - rewrite IH. symmetry. apply app_assoc.
Qed.

(** ** The leaf traversal *)

Lemma leaf_paths_leaf (n : Octnode) :
  childcount n = 0 -> leaf_paths n = [[]].
Proof. intros H. destruct n. simpl in *. subst. reflexivity. Qed.

Lemma leaf_paths_inner (n : Octnode) :
  childcount n <> 0 ->
  leaf_paths n
  = concat (map (fun mc => map (cons (fst mc)) (leaf_paths (snd mc)))
                (present (child n) 0 8)).
Proof.
  intros H. destruct n as [i d s ce b cc slots ins outs sf]. simpl in *.
  destruct (Z.eqb_spec cc 0); [contradiction |].
  rewrite for_slots_present.
  apply (foldl_app_blocks (fun mc => map (cons (fst mc)) (leaf_paths (snd mc)))).
Qed.

Lemma get_leaf_nodes_leaf_paths (start : Octnode) :
  forall here nodelist,
    get_leaf_nodes start here nodelist
    = nodelist ++ map (app here) (leaf_paths start).
Proof.
  induction start as [start IH] using Octnode_ind. intros here nodelist.
  destruct (Z.eq_dec (childcount start) 0) as [Hleaf | Hinner].
  - rewrite (leaf_paths_leaf _ Hleaf). destruct start; simpl in *. subst. simpl.
    rewrite app_nil_r. reflexivity.
  - rewrite (leaf_paths_inner _ Hinner).
    destruct start as [i d s ce b cc slots ins outs sf]. simpl in *.
    destruct (Z.eqb_spec cc 0); [contradiction |].
    rewrite for_slots_present.
    assert (Hin : forall m c, In (m, c) (present slots 0 8) ->
                              slots !! m = Some (Some c)).
    { intros m c (j & -> & _ & Hj)%in_present. exact Hj. }
    revert nodelist Hin. generalize (present slots 0 8) as l.
    induction l as [| [m c] l IHl]; intros nodelist Hin; simpl.
    + symmetry. apply app_nil_r.
    + rewrite IHl by (intros; apply Hin; right; assumption).
      rewrite (IH m c) by (apply Hin; left; reflexivity).
      rewrite map_app, map_map, app_assoc. do 2 f_equal.
      apply map_ext. intros p. rewrite <- app_assoc. reflexivity.
Qed.

Lemma reaches_node_at (start n : Octnode) (p : ptr) :
  reaches start p n -> node_at start p = Some n.
Proof.
  induction 1 as [| start m c p n _ _ Hm _ IH]; [reflexivity |].
  simpl. rewrite Hm. exact IH.
Qed.

Lemma in_leaf_paths (n : Octnode) :
  forall p, In p (leaf_paths n) <-> exists x, reaches n p x /\ childcount x = 0.
Proof.
  induction n as [n IH] using Octnode_ind. intros p.
  destruct (Z.eq_dec (childcount n) 0) as [Hleaf | Hinner].
  - rewrite (leaf_paths_leaf _ Hleaf). simpl. split.
    + intros [<- | []]. exists n. split; [constructor | exact Hleaf].
    + intros (x & Hr & _). inversion Hr; subst; [left; reflexivity | contradiction].
  - rewrite (leaf_paths_inner _ Hinner), in_concat. split.
    + intros (block & Hblock & Hp).
      apply in_map_iff in Hblock as ([m c] & <- & Hmc). simpl in Hp.
      apply in_map_iff in Hp as (p' & <- & Hp').
      apply in_present in Hmc as (j & -> & Hj & Hslot). simpl in *.
      apply (IH j c Hslot) in Hp' as (x & Hr & Hx).
      exists x. split; [| exact Hx]. econstructor; eassumption.
    + intros (x & Hr & Hx). inversion Hr as [| m c p' x' _ Hm Hslot Hr']; subst.
      * contradiction.
      * exists (map (cons m) (leaf_paths c)). split.
        -- apply in_map_iff. exists (m, c). split; [reflexivity |].
           apply in_present. exists m. auto.
        -- apply in_map. apply (IH m c Hslot). exists x. auto.
Qed.

Lemma sorted_app {A : Type} (R : A -> A -> Prop) (l1 l2 : list A) :
  StronglySorted R l1 -> StronglySorted R l2 ->
  (forall x y, In x l1 -> In y l2 -> R x y) ->
  StronglySorted R (l1 ++ l2).
Proof.
  intros H1 H2 H12. induction H1 as [| a l1 Hl1 IH Ha]; [exact H2 |].
  simpl. constructor.
  - apply IH. intros x y Hx Hy. apply H12; [right; exact Hx | exact Hy].
  - apply Forall_app. split; [exact Ha |].
    apply Forall_forall. intros y Hy%list_elem_of_In.
    apply H12; [left; reflexivity | exact Hy].
Qed.

Lemma sorted_below (m : nat) (l : list ptr) :
  StronglySorted preorder_lt l -> StronglySorted preorder_lt (map (cons m) l).
Proof.
  induction 1 as [| p l _ IH Hp]; simpl; constructor; [exact IH |].
  apply Forall_forall. intros q' Hq'%list_elem_of_In.
  apply in_map_iff in Hq' as (q & <- & Hq).
  rewrite Forall_forall in Hp. simpl. right. split; [reflexivity |].
  apply Hp, list_elem_of_In, Hq.
Qed.

Lemma present_sorted (slots : list (option Octnode)) (n k : nat) :
  StronglySorted (fun a b : nat * Octnode => (fst a < fst b)%nat)
                 (present slots n k).
Proof.
  revert n k. induction slots as [| slot slots IH]; intros n k.
  - destruct k; constructor.
  - destruct k as [| k]; [constructor |]. simpl.
    destruct slot as [c |]; simpl; [| apply IH].
    constructor; [apply IH |].
    apply Forall_forall. intros [m c'] Hin%list_elem_of_In.
    apply present_from in Hin. simpl. lia.
Qed.

Lemma leaf_paths_sorted (n : Octnode) :
  StronglySorted preorder_lt (leaf_paths n).
Proof.
  induction n as [n IH] using Octnode_ind.
  destruct (Z.eq_dec (childcount n) 0) as [Hleaf | Hinner].
  - rewrite (leaf_paths_leaf _ Hleaf). repeat constructor.
  - rewrite (leaf_paths_inner _ Hinner).
    assert (Hin : forall m c, In (m, c) (present (child n) 0 8) ->
                              StronglySorted preorder_lt (leaf_paths c)).
    { intros m c (j & -> & _ & Hj)%in_present. apply (IH _ _ Hj). }
    pose proof (present_sorted (child n) 0 8) as Hs.
    revert Hin Hs. generalize (present (child n) 0 8) as l. clear IH.
    induction l as [| [m c] l IHl]; intros Hin Hs; simpl; [constructor |].
    apply StronglySorted_inv in Hs as [Hs Hm].
    apply sorted_app.
    + apply sorted_below, (Hin m c). left. reflexivity.
    + apply IHl; [| exact Hs]. intros m' c' H'. apply (Hin m' c'). right. exact H'.
    + intros x y Hx Hy.
      apply in_map_iff in Hx as (p & <- & _).
      apply in_concat in Hy as (block & Hblock & Hy).
      apply in_map_iff in Hblock as ([m' c'] & <- & Hmc').
      apply in_map_iff in Hy as (q & <- & _).
      rewrite Forall_forall in Hm.
      specialize (Hm (m', c')). simpl in *. left. apply Hm, list_elem_of_In, Hmc'.
Qed.

(** C8.  [get_leaf_nodes] appends to [nodelist] the pointers of exactly
    the leaves (childcount 0) that the descent from the start node reaches
    through the non-null slots 0..7, in depth-first pre-order. It is a
    function of the subtree alone and returns nothing but the list, so
    the tree is left as it was. *)
Theorem get_leaf_nodes_preorder (start : Octnode) (here : ptr) (nodelist : list ptr) :
  exists leaves : list ptr,
    get_leaf_nodes start here nodelist = nodelist ++ map (app here) leaves
    /\ (forall p, In p leaves <->
                  exists n, reaches start p n /\ node_at start p = Some n
                            /\ childcount n = 0)
    /\ StronglySorted preorder_lt leaves.
Proof.
  exists (leaf_paths start). split; [apply get_leaf_nodes_leaf_paths |].
  split; [| apply leaf_paths_sorted].
  intros p. rewrite in_leaf_paths. split.
  - intros (n & Hr & Hn). exists n. auto using reaches_node_at.
  - intros (n & Hr & _ & Hn). exists n. auto.
Qed.

(** ** The diagnostics *)

Lemma get_leaf_nodes_root (r : Octnode) :
  get_leaf_nodes r [] [] = leaf_paths r.
Proof. rewrite get_leaf_nodes_leaf_paths. simpl. apply map_id. Qed.

Lemma leaf_paths_valid (r : Octnode) (p : ptr) :
  In p (leaf_paths r) -> exists n, node_at r p = Some n /\ childcount n = 0.
Proof.
  intros (n & Hr & Hn)%in_leaf_paths. exists n. auto using reaches_node_at.
Qed.

Lemma nodelevels_fold (t : Octree) :
  nodelevels t
  = foldl (fun acc d => nodelevel ← acc; bump d nodelevel)
          (Ok (replicate (Z.to_nat (max_depth t)) 0)) (leaf_depths t).
Proof.
  unfold nodelevels, leaf_depths. rewrite get_leaf_nodes_root.
  pose proof (leaf_paths_valid (root t)) as Hvalid.
  revert Hvalid. generalize (leaf_paths (root t)) as l.
  generalize (Ok (replicate (Z.to_nat (max_depth t)) 0)) as acc.
  intros acc l. revert acc.
  induction l as [| p l IH]; intros acc Hvalid; [reflexivity |].
  destruct (Hvalid p) as (n & Hn & _); [left; reflexivity |].
  simpl. rewrite Hn. simpl. rewrite <- IH by (intros; apply Hvalid; right; assumption).
  reflexivity.
Qed.

Lemma fold_fault {A B : Type} (f : B -> A -> Res A) (l : list B) (e : fault) :
  foldl (fun acc b => a ← acc; f b a) (Fault e) l = Fault e.
Proof. induction l as [| b l IH]; [reflexivity | exact IH]. Qed.

Lemma bump_ok (d : Z) (lv : list Z) :
  0 <= d < Z.of_nat (length lv) ->
  exists count, lv !! Z.to_nat d = Some count
                /\ bump d lv = Ok (<[Z.to_nat d := count + 1]> lv).
Proof.
  intros Hd. destruct (lookup_lt_is_Some_2 lv (Z.to_nat d)) as [count Hc]; [lia |].
  exists count. split; [exact Hc |]. unfold bump. rewrite Hc.
  destruct (Z.leb_spec 0 d); [reflexivity | lia].
Qed.

Lemma bump_fault (d : Z) (lv : list Z) :
  ~ 0 <= d < Z.of_nat (length lv) -> bump d lv = Fault (OutOfBounds 184).
Proof.
  intros Hd. unfold bump. destruct (lv !! Z.to_nat d) as [count |] eqn:Hc; [| reflexivity].
  apply lookup_lt_Some in Hc. destruct (Z.leb_spec 0 d); [lia | reflexivity].
Qed.

Lemma fold_bump_ok (ds : list Z) (lv : list Z) :
  (forall d, In d ds -> 0 <= d < Z.of_nat (length lv)) ->
  exists lv',
    foldl (fun acc d => nodelevel ← acc; bump d nodelevel) (Ok lv) ds = Ok lv'
    /\ length lv' = length lv
    /\ forall d, 0 <= d ->
         lv' !! Z.to_nat d
         = (fun c => c + Z.of_nat (count_occ Z.eq_dec ds d)) <$> lv !! Z.to_nat d.
Proof.
  revert lv. induction ds as [| d0 ds IH]; intros lv Hds.
  - exists lv. split; [reflexivity |]. split; [reflexivity |].
    intros d _. simpl. destruct (lv !! Z.to_nat d); simpl; [f_equal; lia | reflexivity].
  - destruct (bump_ok d0 lv) as (count & Hc & Hb); [apply Hds; left; reflexivity |].
    simpl. rewrite Hb.
    destruct (IH (<[Z.to_nat d0 := count + 1]> lv)) as (lv' & Hf & Hlen & Hget).
    { intros d Hd. rewrite length_insert. apply Hds. right. exact Hd. }
    exists lv'. split; [exact Hf |]. rewrite length_insert in Hlen.
    split; [exact Hlen |]. intros d Hd. rewrite (Hget d Hd).
    destruct (Z.eq_dec d0 d) as [-> | Hne].
    + rewrite list_lookup_insert_eq by (apply lookup_lt_Some in Hc; exact Hc).
      rewrite Hc. simpl. f_equal. lia.
    + rewrite list_lookup_insert_ne.
      * destruct (lv !! Z.to_nat d); reflexivity.
      * assert (0 <= d0) by (specialize (Hds d0 (or_introl eq_refl)); lia). lia.
Qed.

Lemma fold_bump_fault (ds : list Z) (lv : list Z) (d : Z) :
  In d ds -> ~ 0 <= d < Z.of_nat (length lv) ->
  foldl (fun acc d => nodelevel ← acc; bump d nodelevel) (Ok lv) ds
  = Fault (OutOfBounds 184).
Proof.
  revert lv. induction ds as [| d0 ds IH]; intros lv Hin Hd; [destruct Hin |].
  simpl. destruct (Z.eq_dec d0 d) as [-> | Hne].
  - rewrite (bump_fault d lv Hd). apply (fold_fault bump).
  - destruct Hin as [Heq | Hin]; [contradiction |].
    unfold bump at 2. destruct (lv !! Z.to_nat d0) as [count |] eqn:Hc.
    + destruct (0 <=? d0).
      * apply IH; [exact Hin | rewrite length_insert; exact Hd].
      * apply (fold_fault bump).
    + apply (fold_fault bump).
Qed.

(** While every leaf lies above the ceiling, the report has one entry per
    level 0 .. max_depth - 1, and the entry of level [d] is the number of
    leaves of depth [d]. *)
Theorem nodelevels_counts (t : Octree) :
  (forall d, In d (leaf_depths t) -> 0 <= d < max_depth t) ->
  exists nodelevel,
    nodelevels t = Ok nodelevel
    /\ length nodelevel = Z.to_nat (max_depth t)
    /\ forall d, 0 <= d < max_depth t ->
         nodelevel !! Z.to_nat d = Some (leaves_at_depth t d).
Proof.
  intros Hds. rewrite nodelevels_fold.
  destruct (fold_bump_ok (leaf_depths t) (replicate (Z.to_nat (max_depth t)) 0))
    as (lv' & Hf & Hlen & Hget).
  { intros d Hd. rewrite length_replicate. specialize (Hds d Hd). lia. }
  exists lv'. split; [exact Hf |]. rewrite length_replicate in Hlen.
  split; [exact Hlen |]. intros d Hd. rewrite Hget by lia.
  rewrite lookup_replicate_2 by lia. reflexivity.
Qed.

(** C7 (the defect).  [str] keeps max_depth counters, for the levels
    0 .. max_depth - 1.  A leaf at depth max_depth makes line 184 write
    past the end of [nodelevel], and no level max_depth is reported. *)
Theorem str_overruns_at_max_depth (t : Octree) :
  In (max_depth t) (leaf_depths t) ->
  nodelevels t = Fault (OutOfBounds 184) /\ str t = Fault (OutOfBounds 184).
Proof.
  intros Hin.
  assert (H : nodelevels t = Fault (OutOfBounds 184)).
  { rewrite nodelevels_fold. apply (fold_bump_fault _ _ (max_depth t) Hin).
    rewrite length_replicate. lia. }
  split; [exact H |]. unfold str. rewrite H. reflexivity.
Qed.

Lemma str_overruns_at_max_depth_witness :
  In (max_depth corner_cut_tree) (leaf_depths corner_cut_tree)
  /\ str corner_cut_tree = Fault (OutOfBounds 184).
Proof.
  assert (H : In (max_depth corner_cut_tree) (leaf_depths corner_cut_tree))
    by (vm_compute; left; reflexivity).
  split; [exact H |]. apply (str_overruns_at_max_depth corner_cut_tree H).
Defined.

(** ** Loops and assertions *)

Lemma for_each_rule {S : Type} (P : list nat -> S -> Prop) (Q : Res S -> Prop)
      (body : nat -> S -> Res S) (ms : list nat) (s : S) :
  P ms s ->
  (forall s', P [] s' -> Q (Ok s')) ->
  (forall m ms' s0, P (m :: ms') s0 ->
     match body m s0 with
     | Ok s' => P ms' s'
     | Fault e => Q (Fault e)
     end) ->
  Q (for_each ms body s).
Proof.
  intros Hstart Hend Hstep. revert s Hstart.
  induction ms as [| m ms IH]; intros s Hstart; simpl.
  - apply Hend, Hstart.
  - specialize (Hstep m ms s Hstart).
    destruct (body m s) as [s' | e]; simpl; [apply IH, Hstep | exact Hstep].
Qed.

Lemma assert_cases (ndebug : bool) (line : Z) (cond : bool) :
  assert ndebug line cond = Ok tt
  \/ (ndebug = false /\ cond = false
      /\ assert ndebug line cond = Fault (AssertionFailed line)).
Proof. unfold assert. destruct ndebug, cond; simpl; auto. Qed.

Lemma assert_true (ndebug : bool) (line : Z) : assert ndebug line true = Ok tt.
Proof. unfold assert. rewrite orb_true_r. reflexivity. Qed.

(** ** Evaluation touches the flags only *)

Section Evaluate.
Variable vol : OCTVolume.t.

Lemma evaluate_flags (n : Octnode) :
  evaluate vol n
  = set_flags n (inside_flag vol (center n) (scale n))
                (outside_flag vol (center n) (scale n)).
Proof.
  unfold evaluate, inside_flag, outside_flag.
  destruct (OCTVolume.classify vol (center n) (scale n)); reflexivity.
Qed.

Lemma child_evaluate (n : Octnode) : child (evaluate vol n) = child n.
Proof. rewrite evaluate_flags. reflexivity. Qed.

Lemma childcount_evaluate (n : Octnode) : childcount (evaluate vol n) = childcount n.
Proof. rewrite evaluate_flags. reflexivity. Qed.

Lemma idx_evaluate (n : Octnode) : idx (evaluate vol n) = idx n.
Proof. rewrite evaluate_flags. reflexivity. Qed.

Lemma depth_evaluate (n : Octnode) : depth (evaluate vol n) = depth n.
Proof. rewrite evaluate_flags. reflexivity. Qed.

Lemma inside_evaluate (n : Octnode) :
  inside (evaluate vol n) = inside_flag vol (center n) (scale n).
Proof. rewrite evaluate_flags. reflexivity. Qed.

Lemma outside_evaluate (n : Octnode) :
  outside (evaluate vol n) = outside_flag vol (center n) (scale n).
Proof. rewrite evaluate_flags. reflexivity. Qed.

Lemma same_cell_evaluate (n : Octnode) : same_cell n (evaluate vol n).
Proof. rewrite evaluate_flags. repeat split. Qed.
End Evaluate.

Lemma same_cell_refl (a : Octnode) : same_cell a a.
Proof. repeat split. Qed.

Lemma same_cell_trans (a b c : Octnode) :
  same_cell a b -> same_cell b c -> same_cell a c.
Proof.
  intros (? & ? & ? & ? & ? & ?) (? & ? & ? & ? & ? & ?).
  repeat split; congruence.
Qed.

Lemma bind_ok {A B : Type} (r : Res A) (k : A -> Res B) (b : B) :
  (a ← r; k a) = Ok b -> exists a, r = Ok a /\ k a = Ok b.
Proof. intros H. destruct r as [a | e]; [eauto | discriminate]. Qed.

Lemma bind_fault {A B : Type} (r : Res A) (k : A -> Res B) (e : fault) :
  (a ← r; k a) = Fault e -> r = Fault e \/ exists a, r = Ok a /\ k a = Fault e.
Proof.
  intros H. destruct r as [a | e']; [eauto |].
  left. injection H as ->. reflexivity.
Qed.

(** ** One frame of the difference *)

Section Frame.
Variable ndebug : bool.
Variable maxdepth : Z.
Variable vol : OCTVolume.t.

Lemma diff_negative_S (fuel : nat) (parent : option Octnode) (current : Octnode) :
  diff_negative ndebug maxdepth vol (S fuel) parent current
  = let current := evaluate vol current in
    if childcount current =? 0 then
      if inside current then
        _ ← assert ndebug 137 (bool_decide (is_Some parent));
        match parent with
        | Some parent => delete_leaf ndebug vol parent current
        | None => Ok (Kept current)
        end
      else if outside current then Ok (Kept current)
      else
        if depth current <? maxdepth then
          let current := subdivide current in
          _ ← assert ndebug 155 (childcount current =? 8);
          current ← build_new_children ndebug vol (diff_negative ndebug maxdepth vol fuel) current;
          Ok (Kept current)
        else Ok (Kept current)
    else
      current ← build_children vol (diff_negative ndebug maxdepth vol fuel) current;
      Ok (Kept current).
Proof. reflexivity. Qed.

Lemma delete_leaf_ok (p c : Octnode) (o : outcome) :
  delete_leaf ndebug vol p c = Ok o ->
  o = Deleted (collapsed vol p c) /\ 0 <= idx c <= 7.
Proof.
  unfold delete_leaf, collapsed. fold (detached p c).
  intros (_ & _ & H)%bind_ok.
  destruct (Z.leb_spec 0 (idx c)), (Z.leb_spec (idx c) 7);
    simpl in H; try discriminate.
  apply bind_ok in H as (_ & _ & H).
  change (childcount (detached p c)) with (childcount p - 1) in H.
  destruct (childcount p - 1 =? 0).
  - apply bind_ok in H as (_ & _ & H). injection H as <-. split; [reflexivity | lia].
  - injection H as <-. split; [reflexivity | lia].
Qed.

Lemma delete_leaf_safe (p c : Octnode) :
  0 <= idx c <= 7 ->
  1 <= childcount p <= 9 ->
  (childcount p = 1 -> inside_flag vol (center p) (scale p) = true) ->
  delete_leaf ndebug vol p c = Ok (Deleted (collapsed vol p c)).
Proof.
  intros Hidx Hcc Hin. unfold delete_leaf, collapsed. fold (detached p c).
  destruct (Z.leb_spec 0 (idx c)), (Z.leb_spec (idx c) 7); try lia.
  simpl. rewrite assert_true. simpl.
  change (childcount (detached p c)) with (childcount p - 1).
  destruct (Z.leb_spec 0 (childcount p - 1)), (Z.leb_spec (childcount p - 1) 8);
    try lia.
  simpl. rewrite assert_true. simpl.
  destruct (Z.eqb_spec (childcount p - 1) 0) as [Hz | Hz]; [| reflexivity].
  fold (detached p c). rewrite inside_evaluate.
  change (center (detached p c)) with (center p).
  change (scale (detached p c)) with (scale p).
  rewrite Hin by lia. rewrite assert_true. reflexivity.
Qed.

Lemma delete_leaf_fault (p c : Octnode) (e : fault) :
  delete_leaf ndebug vol p c = Fault e ->
  (~ 0 <= idx c <= 7
   /\ e = if ndebug then OutOfBounds 141 else AssertionFailed 140)
  \/ (ndebug = false /\ ~ 1 <= childcount p <= 9 /\ e = AssertionFailed 144)
  \/ (ndebug = false /\ childcount p = 1
      /\ inside_flag vol (center p) (scale p) = false
      /\ e = AssertionFailed 148).
Proof.
  unfold delete_leaf. fold (detached p c). intros H.
  destruct (Z.leb_spec 0 (idx c)), (Z.leb_spec (idx c) 7); simpl in H;
    try (left; split; [lia |]; unfold assert in H; rewrite orb_false_r in H;
         destruct ndebug; simpl in H; congruence).
  rewrite assert_true in H. simpl in H. right.
  change (childcount (detached p c)) with (childcount p - 1) in H.
  apply bind_fault in H as [H | (_ & _ & H)].
  - left. destruct (assert_cases ndebug 144
              ((0 <=? childcount p - 1) && (childcount p - 1 <=? 8)))
      as [Hok | (Hn & Hc & Hf)]; [congruence |].
    split; [exact Hn |]. split; [| congruence].
    apply andb_false_iff in Hc as [Hc | Hc]; [apply Z.leb_gt in Hc | apply Z.leb_gt in Hc]; lia.
  - right. destruct (Z.eqb_spec (childcount p - 1) 0) as [Hz | Hz]; [| discriminate].
    apply bind_fault in H as [H | (_ & _ & H)]; [| discriminate].
    destruct (assert_cases ndebug 148 (inside (evaluate vol (detached p c))))
      as [Hok | (Hn & Hc & Hf)]; unfold detached in *; [congruence |].
    rewrite inside_evaluate in Hc.
    split; [exact Hn |]. split; [lia |]. split; [exact Hc | congruence].
Qed.

Lemma same_cell_collapsed (p c : Octnode) : same_cell p (collapsed vol p c).
Proof.
  unfold collapsed. destruct (childcount p - 1 =? 0).
  - eapply same_cell_trans; [| apply same_cell_evaluate]. repeat split.
  - repeat split.
Qed.

Lemma child_collapsed (p c : Octnode) :
  child (collapsed vol p c) = <[Z.to_nat (idx c) := None]> (child p).
Proof.
  unfold collapsed. destruct (childcount p - 1 =? 0);
    [rewrite child_evaluate |]; reflexivity.
Qed.

Lemma childcount_collapsed (p c : Octnode) :
  childcount (collapsed vol p c) = childcount p - 1.
Proof.
  unfold collapsed. destruct (childcount p - 1 =? 0);
    [rewrite childcount_evaluate |]; reflexivity.
Qed.

Lemma flags_collapsed (p c : Octnode) :
  (inside (collapsed vol p c) = inside p /\ outside (collapsed vol p c) = outside p)
  \/ (inside (collapsed vol p c) = inside_flag vol (center p) (scale p)
      /\ outside (collapsed vol p c) = outside_flag vol (center p) (scale p)).
Proof.
  unfold collapsed. destruct (childcount p - 1 =? 0).
  - right. rewrite inside_evaluate, outside_evaluate. split; reflexivity.
  - left. split; reflexivity.
Qed.
End Frame.

(** ** Operations that keep the topology consistent *)

Lemma wf_same_children (n n' : Octnode) :
  child n' = child n -> childcount n' = childcount n -> wf n -> wf n'.
Proof.
  intros Hc Hcc (Hlen & Hocc & Hch)%wf_unfold. apply wf_unfold.
  rewrite Hc, Hcc. auto.
Qed.

Lemma wf_evaluate (vol : OCTVolume.t) (n : Octnode) : wf n -> wf (evaluate vol n).
Proof. apply wf_same_children; [apply child_evaluate | apply childcount_evaluate]. Qed.

Lemma child_subdivide (n : Octnode) (m : nat) :
  (m < 8)%nat -> child (subdivide n) !! m = Some (Some (octant n m)).
Proof.
  intros Hm. unfold subdivide. cbn [child set_childcount set_child].
  rewrite list_lookup_fmap, lookup_seq_lt by exact Hm. reflexivity.
Qed.

Lemma child_subdivide_inv (n c : Octnode) (m : nat) :
  child (subdivide n) !! m = Some (Some c) -> (m < 8)%nat /\ c = octant n m.
Proof.
  intros H. assert (Hm : (m < 8)%nat).
  { apply lookup_lt_Some in H. unfold subdivide in H.
    cbn [child set_childcount set_child] in H.
    rewrite length_map, length_seq in H. exact H. }
  rewrite (child_subdivide n m Hm) in H. injection H as <-. auto.
Qed.

Lemma wf_subdivide (n : Octnode) : wf (subdivide n).
Proof.
  apply wf_unfold. split; [reflexivity |]. split; [reflexivity |].
  intros m c (Hm & ->)%child_subdivide_inv. split; reflexivity.
Qed.

Lemma wf_replace_child (n c c' : Octnode) (m : nat) :
  wf n -> child n !! m = Some (Some c) -> wf c' -> idx c' = Z.of_nat m ->
  wf (set_child n (<[m := Some c']> (child n))).
Proof.
  intros (Hlen & Hocc & Hch)%wf_unfold Hm Hc' Hidx. apply wf_unfold.
  cbn [child childcount set_child]. rewrite length_insert.
  split; [exact Hlen |]. split; [rewrite (occupied_replace _ _ c) by exact Hm; exact Hocc |].
  intros j x Hj. destruct (Nat.eq_dec m j) as [<- | Hne].
  - rewrite list_lookup_insert_eq in Hj by (eapply lookup_lt_Some, Hm).
    injection Hj as <-. auto.
  - rewrite list_lookup_insert_ne in Hj by exact Hne. apply (Hch j x Hj).
Qed.

Lemma wf_detached (p c x : Octnode) :
  wf p -> 0 <= idx c -> child p !! Z.to_nat (idx c) = Some (Some x) ->
  wf (detached p c).
Proof.
  intros (Hlen & Hocc & Hch)%wf_unfold Hidx Hx. apply wf_unfold.
  unfold detached. cbn [child childcount set_child set_childcount].
  rewrite length_insert. split; [exact Hlen |].
  split; [rewrite Hocc, (occupied_clear _ _ x Hx); lia |].
  intros j y Hj. destruct (Nat.eq_dec (Z.to_nat (idx c)) j) as [<- | Hne].
  - rewrite list_lookup_insert_eq in Hj by (eapply lookup_lt_Some, Hx). discriminate.
  - rewrite list_lookup_insert_ne in Hj by exact Hne. apply (Hch j y Hj).
Qed.

Lemma wf_collapsed (vol : OCTVolume.t) (p c x : Octnode) :
  wf p -> 0 <= idx c -> child p !! Z.to_nat (idx c) = Some (Some x) ->
  wf (collapsed vol p c).
Proof.
  intros Hp Hidx Hx. unfold collapsed.
  destruct (childcount p - 1 =? 0); [apply wf_evaluate |]; eapply wf_detached; eassumption.
Qed.

Lemma collapsed_evaluate (vol : OCTVolume.t) (p c : Octnode) :
  collapsed vol p (evaluate vol c) = collapsed vol p c.
Proof. unfold collapsed, detached. rewrite idx_evaluate. reflexivity. Qed.

(** ** What a call leaves behind *)

Section Outcome.
Variable ndebug : bool.
Variable maxdepth : Z.
Variable vol : OCTVolume.t.

Lemma build_child_ok (call : option Octnode -> Octnode -> Res outcome)
      (m : nat) (cur c cur' : Octnode) :
  build_child vol call m cur c = Ok cur' ->
  (overlaps (OCTVolume.bb vol) (bb c) = false /\ cur' = cur)
  \/ (overlaps (OCTVolume.bb vol) (bb c) = true
      /\ ((exists c', call (Some cur) c = Ok (Kept c')
                      /\ cur' = set_child cur (<[m := Some c']> (child cur)))
          \/ call (Some cur) c = Ok (Deleted cur'))).
Proof.
  unfold build_child. destruct (overlaps (OCTVolume.bb vol) (bb c)).
  - intros ([c' | x] & Hcall & H)%bind_ok; injection H as <-; right; eauto.
  - intros H. injection H as <-. left. auto.
Qed.

(** A deletion is the work of the frame of the deleted leaf itself. *)
Lemma diff_negative_deleted (fuel : nat) (parent : option Octnode)
      (current p' : Octnode) :
  diff_negative ndebug maxdepth vol fuel parent current = Ok (Deleted p') ->
  exists p, parent = Some p
            /\ p' = collapsed vol p current
            /\ childcount current = 0
            /\ inside_flag vol (center current) (scale current) = true
            /\ 0 <= idx current <= 7.
Proof.
  destruct fuel as [| fuel]; [discriminate |]. rewrite diff_negative_S. cbv zeta.
  rewrite childcount_evaluate, inside_evaluate.
  destruct (Z.eqb_spec (childcount current) 0) as [Hleaf | Hinner].
  - destruct (inside_flag vol (center current) (scale current)) eqn:Hin.
    + intros (_ & _ & H)%bind_ok. destruct parent as [p |]; [| discriminate].
      apply delete_leaf_ok in H as [H Hidx]. injection H as ->.
      rewrite collapsed_evaluate, idx_evaluate in *. exists p. auto.
    + destruct (outside (evaluate vol current)); [discriminate |].
      destruct (depth (evaluate vol current) <? maxdepth); [| discriminate].
      intros (_ & _ & (x & _ & H)%bind_ok)%bind_ok. discriminate.
  - intros (x & _ & H)%bind_ok. discriminate.
Qed.
End Outcome.

(** ** The loops over the children *)

Section Loops.
Variable ndebug : bool.
Variable maxdepth : Z.
Variable vol : OCTVolume.t.

(** A property of the looping node that survives the replacement of a
    child and the deletion of a child survives the loops. *)
Lemma build_children_local (call : option Octnode -> Octnode -> Res outcome)
      (I : Octnode -> Prop) (cur0 cur' : Octnode) :
  (forall p c x, call (Some p) c = Ok (Deleted x) -> x = collapsed vol p c) ->
  (forall cur m c', I cur -> I (set_child cur (<[m := Some c']> (child cur)))) ->
  (forall cur c, I cur -> I (collapsed vol cur c)) ->
  I cur0 ->
  build_children vol call cur0 = Ok cur' -> I cur'.
Proof.
  intros Hdel Hrepl Hcoll Hstart. unfold build_children.
  apply (for_each_rule (fun _ cur => I cur)
                       (fun r => forall cur', r = Ok cur' -> I cur')).
  - exact Hstart.
  - intros s' Hs' cur'' [= <-]. exact Hs'.
  - intros m ms' cur Hcur.
    destruct (child cur !! m) as [[c |] |] eqn:Hm; [| exact Hcur | exact Hcur].
    destruct (build_child vol call m cur c) as [cur1 | e] eqn:Hb; [| discriminate].
    apply build_child_ok in Hb as [[_ ->] | [_ [(c' & _ & ->) | Hd]]].
    + exact Hcur.
    + apply Hrepl, Hcur.
    + rewrite (Hdel _ _ _ Hd). apply Hcoll, Hcur.
Qed.

Lemma build_new_children_local (call : option Octnode -> Octnode -> Res outcome)
      (I : Octnode -> Prop) (cur0 cur' : Octnode) :
  (forall p c x, call (Some p) c = Ok (Deleted x) -> x = collapsed vol p c) ->
  (forall cur m c', I cur -> I (set_child cur (<[m := Some c']> (child cur)))) ->
  (forall cur c, I cur -> I (collapsed vol cur c)) ->
  I cur0 ->
  build_new_children ndebug vol call cur0 = Ok cur' -> I cur'.
Proof.
  intros Hdel Hrepl Hcoll Hstart. unfold build_new_children.
  apply (for_each_rule (fun _ cur => I cur)
                       (fun r => forall cur', r = Ok cur' -> I cur')).
  - exact Hstart.
  - intros s' Hs' cur'' [= <-]. exact Hs'.
  - intros m ms' cur Hcur.
    destruct (assert ndebug 157 (bool_decide (is_Some (mjoin (child cur !! m)))));
      [| discriminate]. simpl.
    destruct (child cur !! m) as [[c |] |] eqn:Hm; [| discriminate | discriminate].
    destruct (build_child vol call m cur c) as [cur1 | e] eqn:Hb; [| discriminate].
    apply build_child_ok in Hb as [[_ ->] | [_ [(c' & _ & ->) | Hd]]].
    + exact Hcur.
    + apply Hrepl, Hcur.
    + rewrite (Hdel _ _ _ Hd). apply Hcoll, Hcur.
Qed.

Lemma diff_negative_deletes (fuel : nat) (p c x : Octnode) :
  diff_negative ndebug maxdepth vol fuel (Some p) c = Ok (Deleted x) ->
  x = collapsed vol p c.
Proof.
  intros (p0 & [= <-] & -> & _)%diff_negative_deleted. reflexivity.
Qed.

(** A node that stays has kept its cell, and its flags are the
    classification of that cell by the volume. *)
Lemma diff_negative_kept (fuel : nat) (parent : option Octnode)
      (current c' : Octnode) :
  diff_negative ndebug maxdepth vol fuel parent current = Ok (Kept c') ->
  same_cell current c'
  /\ inside c' = inside_flag vol (center current) (scale current)
  /\ outside c' = outside_flag vol (center current) (scale current).
Proof.
  set (I := fun cur : Octnode =>
              same_cell current cur
              /\ inside cur = inside_flag vol (center current) (scale current)
              /\ outside cur = outside_flag vol (center current) (scale current)).
  assert (Hrepl : forall cur m c0, I cur ->
                    I (set_child cur (<[m := Some c0]> (child cur)))).
  { intros cur m c0 H. exact H. }
  assert (Hcoll : forall cur c0, I cur -> I (collapsed vol cur c0)).
  { intros cur c0 (Hcell & Hin & Hout). split; [| split].
    - eapply same_cell_trans; [exact Hcell | apply same_cell_collapsed].
    - destruct (flags_collapsed vol cur c0) as [[-> _] | [-> _]]; [exact Hin |].
      destruct Hcell as (_ & _ & -> & -> & _). reflexivity.
    - destruct (flags_collapsed vol cur c0) as [[_ ->] | [_ ->]]; [exact Hout |].
      destruct Hcell as (_ & _ & -> & -> & _). reflexivity. }
  assert (Hev : I (evaluate vol current)).
  { split; [apply same_cell_evaluate |].
    rewrite inside_evaluate, outside_evaluate. auto. }
  fold (I c').
  destruct fuel as [| fuel]; [discriminate |]. rewrite diff_negative_S. cbv zeta.
  destruct (childcount (evaluate vol current) =? 0).
  - destruct (inside (evaluate vol current)).
    + intros (_ & _ & H)%bind_ok. destruct parent as [p |].
      * apply delete_leaf_ok in H as [H _]. discriminate.
      * injection H as <-. exact Hev.
    + destruct (outside (evaluate vol current)); [intros [= <-]; exact Hev |].
      destruct (depth (evaluate vol current) <? maxdepth);
        [| intros [= <-]; exact Hev].
      intros (_ & _ & (x & Hloop & [= <-])%bind_ok)%bind_ok.
      eapply build_new_children_local; [| exact Hrepl | exact Hcoll | | exact Hloop].
      * apply diff_negative_deletes.
      * exact Hev.
  - intros (x & Hloop & [= <-])%bind_ok.
    eapply build_children_local; [| exact Hrepl | exact Hcoll | | exact Hloop].
    + apply diff_negative_deletes.
    + exact Hev.
Qed.
End Loops.

Lemma for_each_agree {S : Type} (P : list nat -> S -> Prop)
      (body1 body2 : nat -> S -> Res S) (ms : list nat) (s : S) :
  P ms s ->
  (forall m ms' s0, P (m :: ms') s0 ->
     body1 m s0 = body2 m s0 /\ forall s', body2 m s0 = Ok s' -> P ms' s') ->
  for_each ms body1 s = for_each ms body2 s.
Proof.
  intros Hstart Hstep. revert s Hstart.
  induction ms as [| m ms IH]; intros s Hstart; [reflexivity |].
  destruct (Hstep m ms s Hstart) as [Heq Hnext]. simpl. rewrite Heq.
  destruct (body2 m s) as [s' | e]; [| reflexivity]. simpl. apply IH, Hnext.
  reflexivity.
Qed.

Section Rules.
Variable ndebug : bool.
Variable maxdepth : Z.
Variable vol : OCTVolume.t.

(** After [subdivide] the assertion of line 157 holds at every turn of
    the loop: child [m] is deleted, if at all, by its own call. *)
Lemma build_new_children_subdivide (fuel : nat) (c : Octnode) :
  build_new_children ndebug vol (diff_negative ndebug maxdepth vol fuel) (subdivide c)
  = build_children vol (diff_negative ndebug maxdepth vol fuel) (subdivide c).
Proof.
  unfold build_new_children, build_children.
  apply (for_each_agree
           (fun ms cur => NoDup ms
              /\ forall j, In j ms ->
                   exists ch, child cur !! j = Some (Some ch) /\ idx ch = Z.of_nat j)).
  - split; [apply NoDup_seq |]. intros j Hj%in_seq.
    exists (octant c j). split; [apply child_subdivide; lia | reflexivity].
  - intros m ms' cur [Hnd Hslots].
    destruct (Hslots m (or_introl eq_refl)) as (ch & Hm & Hidx).
    rewrite Hm. simpl. try rewrite bool_decide_true by eauto. rewrite assert_true.
    split; [reflexivity |].
    apply NoDup_cons in Hnd as [Hm' Hnd]. rewrite list_elem_of_In in Hm'.
    intros cur' Hb. split; [exact Hnd |]. intros j Hj.
    assert (Hne : m <> j) by (intros ->; contradiction).
    destruct (Hslots j (or_intror Hj)) as (chj & Hchj & Hidxj).
    exists chj. split; [| exact Hidxj].
    apply build_child_ok in Hb as [[_ ->] | [_ [(c' & _ & ->) | Hd]]].
    + exact Hchj.
    + cbn [child set_child]. rewrite list_lookup_insert_ne by exact Hne. exact Hchj.
    + apply diff_negative_deletes in Hd as ->. rewrite child_collapsed.
      rewrite list_lookup_insert_ne by lia. exact Hchj.
Qed.

Lemma build_children_rule (call : option Octnode -> Octnode -> Res outcome)
      (P : Octnode -> Prop) (Q : Res Octnode -> Prop) (cur0 : Octnode) :
  P cur0 ->
  (forall cur, P cur -> Q (Ok cur)) ->
  (forall m cur ch,
     (m < 8)%nat -> P cur -> child cur !! m = Some (Some ch) ->
     overlaps (OCTVolume.bb vol) (bb ch) = true ->
     match call (Some cur) ch with
     | Ok (Kept ch') => P (set_child cur (<[m := Some ch']> (child cur)))
     | Ok (Deleted x) => P x
     | Fault e => Q (Fault e)
     end) ->
  Q (build_children vol call cur0).
Proof.
  intros Hstart Hend Hstep. unfold build_children.
  apply (for_each_rule (fun ms cur => P cur /\ forall m, In m ms -> (m < 8)%nat) Q).
  - split; [exact Hstart |]. intros m Hm%in_seq. lia.
  - intros cur [Hcur _]. apply Hend, Hcur.
  - intros m ms' cur [Hcur Hms].
    assert (Hms' : forall j, In j ms' -> (j < 8)%nat) by (intros; apply Hms; right; assumption).
    destruct (child cur !! m) as [[ch |] |] eqn:Hm; [| auto | auto].
    unfold build_child. destruct (overlaps (OCTVolume.bb vol) (bb ch)) eqn:Hov; [| auto].
    specialize (Hstep m cur ch (Hms m (or_introl eq_refl)) Hcur Hm Hov).
    destruct (call (Some cur) ch) as [[ch' | x] | e]; simpl; auto.
Qed.

(** The pass keeps the topology consistent. *)
Lemma diff_negative_wf (fuel : nat) :
  forall (parent : option Octnode) (current : Octnode) (o : outcome),
    wf current ->
    (forall p, parent = Some p ->
               wf p /\ exists x, child p !! Z.to_nat (idx current) = Some (Some x)) ->
    diff_negative ndebug maxdepth vol fuel parent current = Ok o ->
    match o with
    | Kept c' => wf c'
    | Deleted p' => wf p'
    end.
Proof.
  induction fuel as [| fuel IH]; intros parent current o Hwf Hpar; [discriminate |].
  assert (Hloop : forall cur0 cur',
             wf cur0 ->
             build_children vol (diff_negative ndebug maxdepth vol fuel) cur0 = Ok cur' ->
             wf cur').
  { intros cur0 cur' Hcur0.
    apply (build_children_rule _ wf (fun r => r = Ok cur' -> wf cur')).
    - exact Hcur0.
    - intros cur Hcur [= <-]. exact Hcur.
    - intros m cur ch Hm Hcur Hch Hov.
      pose proof (wf_child _ _ _ Hcur Hch) as Hwch.
      pose proof (wf_child_idx _ _ _ Hcur Hch) as Hidx.
      destruct (diff_negative ndebug maxdepth vol fuel (Some cur) ch)
        as [[ch' | x] | e] eqn:Hcall; [| | discriminate].
      + eapply wf_replace_child; [exact Hcur | exact Hch | |].
        * apply (IH _ _ _ Hwch) in Hcall; [exact Hcall |].
          intros p [= <-]. split; [exact Hcur |]. rewrite Hidx, Nat2Z.id. eauto.
        * apply diff_negative_kept in Hcall as ((<- & _) & _). exact Hidx.
      + apply (IH _ _ _ Hwch) in Hcall; [exact Hcall |].
        intros p [= <-]. split; [exact Hcur |]. rewrite Hidx, Nat2Z.id. eauto. }
  rewrite diff_negative_S. cbv zeta.
  pose proof (wf_evaluate vol _ Hwf) as Hev.
  destruct (childcount (evaluate vol current) =? 0).
  - destruct (inside (evaluate vol current)).
    + intros (_ & _ & H)%bind_ok. destruct parent as [p |].
      * apply delete_leaf_ok in H as [-> Hidx]. rewrite idx_evaluate in Hidx.
        rewrite collapsed_evaluate.
        destruct (Hpar p eq_refl) as [Hp [x Hx]].
        eapply wf_collapsed; [exact Hp | lia | exact Hx].
      * injection H as <-. exact Hev.
    + destruct (outside (evaluate vol current)); [intros [= <-]; exact Hev |].
      destruct (depth (evaluate vol current) <? maxdepth);
        [| intros [= <-]; exact Hev].
      intros (_ & _ & (x & Hl & [= <-])%bind_ok)%bind_ok.
      rewrite build_new_children_subdivide in Hl.
      eapply Hloop; [apply wf_subdivide | exact Hl].
  - intros (x & Hl & [= <-])%bind_ok. eapply Hloop; [exact Hev | exact Hl].
Qed.
End Rules.

Section Tracked.
Variable ndebug : bool.
Variable maxdepth : Z.
Variable vol : OCTVolume.t.

(** The loop rule with a property [R] of the children that the loop has
    not reached yet: such a child is the one the loop started with. *)
Lemma build_children_tracked (fuel : nat)
      (P : Octnode -> Prop) (R : nat -> Octnode -> Prop)
      (Q : Res Octnode -> Prop) (cur0 : Octnode) :
  P cur0 ->
  (forall m ch, child cur0 !! m = Some (Some ch) -> R m ch) ->
  (forall cur, P cur -> Q (Ok cur)) ->
  (forall m cur ch,
     (m < 8)%nat -> P cur -> R m ch -> child cur !! m = Some (Some ch) ->
     overlaps (OCTVolume.bb vol) (bb ch) = true ->
     match diff_negative ndebug maxdepth vol fuel (Some cur) ch with
     | Ok (Kept ch') => P (set_child cur (<[m := Some ch']> (child cur)))
     | Ok (Deleted x) => P x
     | Fault e => Q (Fault e)
     end) ->
  Q (build_children vol (diff_negative ndebug maxdepth vol fuel) cur0).
Proof.
  intros Hstart HR Hend Hstep. unfold build_children.
  apply (for_each_rule
           (fun ms cur => P cur /\ NoDup ms /\ (forall m, In m ms -> (m < 8)%nat)
                          /\ forall m ch, In m ms ->
                               child cur !! m = Some (Some ch) -> R m ch) Q).
  - split; [exact Hstart |]. split; [apply NoDup_seq |].
    split; [intros m Hm%in_seq; lia | intros m ch _; apply HR].
  - intros cur [Hcur _]. apply Hend, Hcur.
  - intros m ms' cur (Hcur & Hnd & Hms & Hrest).
    apply NoDup_cons in Hnd as [Hm' Hnd]. rewrite list_elem_of_In in Hm'.
    assert (Hms' : forall j, In j ms' -> (j < 8)%nat)
      by (intros; apply Hms; right; assumption).
    assert (Hrest' : forall j ch, In j ms' -> child cur !! j = Some (Some ch) -> R j ch)
      by (intros j ch Hj; apply Hrest; right; exact Hj).
    destruct (child cur !! m) as [[ch |] |] eqn:Hm; [| auto | auto].
    unfold build_child. destruct (overlaps (OCTVolume.bb vol) (bb ch)) eqn:Hov; [| auto].
    specialize (Hstep m cur ch (Hms m (or_introl eq_refl)) Hcur
                      (Hrest m ch (or_introl eq_refl) Hm) Hm Hov).
    destruct (diff_negative ndebug maxdepth vol fuel (Some cur) ch)
      as [[ch' | x] | e] eqn:Hcall; simpl; [| | exact Hstep].
    + split; [exact Hstep |]. split; [exact Hnd |]. split; [exact Hms' |].
      intros j chj Hj Hchj. cbn [child set_child] in Hchj.
      rewrite list_lookup_insert_ne in Hchj by (intros ->; contradiction).
      apply (Hrest' j chj Hj Hchj).
    + split; [exact Hstep |]. split; [exact Hnd |]. split; [exact Hms' |].
      intros j chj Hj Hchj.
      apply diff_negative_deletes in Hcall as ->. rewrite child_collapsed in Hchj.
      destruct (Nat.eq_dec (Z.to_nat (idx ch)) j) as [Heq | Hne].
      * rewrite Heq in Hchj. apply list_lookup_insert_Some in Hchj.
        destruct Hchj as [(_ & Habs & _) | (Habs & _)];
          [discriminate | contradiction].
      * rewrite list_lookup_insert_ne in Hchj by exact Hne.
        apply (Hrest' j chj Hj Hchj).
Qed.

Lemma frames_child (n c : Octnode) (m : nat) :
  childcount n <> 0 -> child n !! m = Some (Some c) ->
  (S (frames maxdepth c) <= frames maxdepth n)%nat.
Proof.
  intros Hcc Hm. destruct n as [i d s ce b cc slots ins outs sf].
  cbn [frames childcount child] in *.
  destruct (Z.eqb_spec cc 0) as [-> | _]; [contradiction |].
  apply le_n_S. apply max_list_elem_of_le.
  apply list_elem_of_In, in_map_iff. exists (Some c). split; [reflexivity |].
  apply list_elem_of_In. eapply list_elem_of_lookup_2, Hm.
Qed.

Lemma frames_leaf (n : Octnode) :
  childcount n = 0 -> frames maxdepth n = S (Z.to_nat (maxdepth - depth n)).
Proof.
  intros Hcc. destruct n as [i d s ce b cc slots ins outs sf].
  cbn [frames childcount depth] in *. subst cc. reflexivity.
Qed.

(** [frames] frames are enough: the recursion ends by itself. *)
Lemma diff_negative_fuel (fuel : nat) :
  forall (parent : option Octnode) (current : Octnode),
    (frames maxdepth current <= fuel)%nat ->
    diff_negative ndebug maxdepth vol fuel parent current <> Fault OutOfFuel.
Proof.
  induction fuel as [| fuel IH]; intros parent current Hfuel.
  { destruct current. cbn [frames] in Hfuel. lia. }
  assert (Hloop : forall cur0,
             (forall m ch, child cur0 !! m = Some (Some ch) ->
                           (frames maxdepth ch <= fuel)%nat) ->
             build_children vol (diff_negative ndebug maxdepth vol fuel) cur0
             <> Fault OutOfFuel).
  { intros cur0 Hch.
    apply (build_children_tracked fuel (fun _ => True)
             (fun _ ch => (frames maxdepth ch <= fuel)%nat)
             (fun r => r <> Fault OutOfFuel)); [exact I | exact Hch | discriminate |].
    intros m cur ch _ _ Hfr _ _.
    pose proof (IH (Some cur) ch Hfr) as Hne.
    destruct (diff_negative ndebug maxdepth vol fuel (Some cur) ch)
      as [[ch' | x] | e]; [exact I | exact I | congruence]. }
  rewrite diff_negative_S. cbv zeta.
  rewrite childcount_evaluate.
  destruct (Z.eqb_spec (childcount current) 0) as [Hleaf | Hinner].
  - destruct (inside (evaluate vol current)).
    + intros [H | (_ & _ & H)]%bind_fault.
      * destruct (assert_cases ndebug 137 (bool_decide (is_Some parent)))
          as [Hok | (_ & _ & Hf)]; congruence.
      * destruct parent as [p |]; [| discriminate].
        apply delete_leaf_fault in H as [[_ H] | [(_ & _ & H) | (_ & _ & _ & H)]];
          [destruct ndebug |..]; discriminate.
    + destruct (outside (evaluate vol current)); [discriminate |].
      destruct (Z.ltb_spec (depth (evaluate vol current)) maxdepth) as [Hd | Hd];
        [| discriminate].
      rewrite depth_evaluate in Hd.
      change (childcount (subdivide (evaluate vol current)) =? 8) with true.
      rewrite assert_true. simpl. rewrite build_new_children_subdivide.
      intros [H | (x & _ & H)]%bind_fault; [| discriminate]. revert H.
      apply Hloop. intros m ch (Hm & ->)%child_subdivide_inv.
      rewrite (frames_leaf _ Hleaf) in Hfuel. rewrite frames_leaf by reflexivity.
      change (depth (octant (evaluate vol current) m))
        with (depth (evaluate vol current) + 1).
      rewrite depth_evaluate. lia.
  - intros [H | (x & _ & H)]%bind_fault; [| discriminate]. revert H.
    apply Hloop. intros m ch Hm. rewrite child_evaluate in Hm.
    pose proof (frames_child _ _ _ Hinner Hm). lia.
Qed.
End Tracked.

Section Pass.
Variable ndebug : bool.
Variable maxdepth : Z.
Variable vol : OCTVolume.t.

(** The loop rule for a consistent node: what is known of every call the
    loop makes and of its outcome. *)
Lemma build_children_wf (fuel : nat)
      (P : Octnode -> Prop) (R : nat -> Octnode -> Prop)
      (Q : Res Octnode -> Prop) (cur0 : Octnode) :
  wf cur0 -> P cur0 ->
  (forall m ch, child cur0 !! m = Some (Some ch) -> R m ch) ->
  (forall cur, wf cur -> same_cell cur0 cur -> P cur -> Q (Ok cur)) ->
  (forall m cur ch,
     (m < 8)%nat -> wf cur -> same_cell cur0 cur -> P cur -> R m ch ->
     child cur !! m = Some (Some ch) -> idx ch = Z.of_nat m -> wf ch ->
     overlaps (OCTVolume.bb vol) (bb ch) = true ->
     match diff_negative ndebug maxdepth vol fuel (Some cur) ch with
     | Ok (Kept ch') =>
         wf ch' -> same_cell ch ch' ->
         P (set_child cur (<[m := Some ch']> (child cur)))
     | Ok (Deleted x) =>
         x = collapsed vol cur ch -> childcount ch = 0 ->
         inside_flag vol (center ch) (scale ch) = true ->
         P x
     | Fault e => Q (Fault e)
     end) ->
  Q (build_children vol (diff_negative ndebug maxdepth vol fuel) cur0).
Proof.
  intros Hwf0 Hstart HR Hend Hstep.
  apply (build_children_tracked ndebug maxdepth vol fuel
           (fun cur => wf cur /\ same_cell cur0 cur /\ P cur) R Q).
  - split; [exact Hwf0 |]. split; [apply same_cell_refl | exact Hstart].
  - exact HR.
  - intros cur (Hcur & Hcell & HP). apply Hend; assumption.
  - intros m cur ch Hm (Hcur & Hcell & HP) Hr Hch Hov.
    pose proof (wf_child _ _ _ Hcur Hch) as Hwch.
    pose proof (wf_child_idx _ _ _ Hcur Hch) as Hidx.
    specialize (Hstep m cur ch Hm Hcur Hcell HP Hr Hch Hidx Hwch Hov).
    assert (Hpar : forall p, Some cur = Some p ->
                     wf p /\ exists x, child p !! Z.to_nat (idx ch) = Some (Some x)).
    { intros p [= <-]. split; [exact Hcur |]. rewrite Hidx, Nat2Z.id. eauto. }
    destruct (diff_negative ndebug maxdepth vol fuel (Some cur) ch)
      as [[ch' | x] | e] eqn:Hcall; [| | exact Hstep].
    + pose proof (diff_negative_wf _ _ _ _ _ _ _ Hwch Hpar Hcall) as Hwch'.
      pose proof (diff_negative_kept _ _ _ _ _ _ _ Hcall) as (Hcell' & _).
      split; [| split; [exact Hcell | apply Hstep; assumption]].
      eapply wf_replace_child; [exact Hcur | exact Hch | exact Hwch' |].
      destruct Hcell' as (<- & _). exact Hidx.
    + pose proof (diff_negative_wf _ _ _ _ _ _ _ Hwch Hpar Hcall) as Hwx.
      apply diff_negative_deleted in Hcall as (p & [= <-] & -> & Hleaf & Hin & _).
      split; [exact Hwx |].
      split; [eapply same_cell_trans; [exact Hcell | apply same_cell_collapsed] |].
      apply Hstep; auto.
Qed.

(** The frame of a node that has children: the node stays, and the
    frame is the loop of lines 166-171. *)
Lemma diff_negative_inner (fuel : nat) (parent : option Octnode) (current : Octnode) :
  childcount current <> 0 ->
  diff_negative ndebug maxdepth vol (S fuel) parent current
  = (cur ← build_children vol (diff_negative ndebug maxdepth vol fuel)
                           (evaluate vol current);
     Ok (Kept cur)).
Proof.
  intros Hcc. rewrite diff_negative_S. cbv zeta. rewrite childcount_evaluate.
  destruct (Z.eqb_spec (childcount current) 0); [contradiction | reflexivity].
Qed.
End Pass.

(** ** The root is evaluated by every call *)

Lemma diff_negative_root_ok (ndebug : bool) (t t' : Octree) (vol : OCTVolume.t) :
  diff_negative_root ndebug t vol = Ok t' ->
  exists r, diff_negative ndebug (max_depth t) vol (frames (max_depth t) (root t))
                          None (root t) = Ok (Kept r)
            /\ t' = mkOctree r (root_scale t) (max_depth t).
Proof.
  unfold diff_negative_root. intros ([r | x] & Hcall & H)%bind_ok; [| discriminate].
  injection H as <-. eauto.
Qed.

Lemma diff_negative_root_fuel (ndebug : bool) (t : Octree) (vol : OCTVolume.t) :
  diff_negative_root ndebug t vol <> Fault OutOfFuel.
Proof.
  unfold diff_negative_root. intros [H | ([r | x] & Hcall & H)]%bind_fault.
  - revert H. apply diff_negative_fuel. reflexivity.
  - discriminate.
  - apply diff_negative_deleted in Hcall as (p & Hp & _). discriminate.
Qed.

(** C10.  Every call of [diff_negative_root] that returns has evaluated
    the root against the volume: the root's flags are the classification
    of the root cell, whatever the flags were and wherever the volume's
    bounding box lies.  The overlap test is made for children only.  The
    call always ends. *)
Theorem root_always_evaluated (ndebug : bool) (t : Octree) (vol : OCTVolume.t) :
  diff_negative_root ndebug t vol <> Fault OutOfFuel
  /\ forall t', diff_negative_root ndebug t vol = Ok t' ->
       inside (root t') = inside_flag vol (center (root t)) (scale (root t))
       /\ outside (root t') = outside_flag vol (center (root t)) (scale (root t)).
Proof.
  split; [apply diff_negative_root_fuel |].
  intros t' (r & Hcall & ->)%diff_negative_root_ok.
  apply diff_negative_kept in Hcall as (_ & Hin & Hout). auto.
Qed.

Lemma root_always_evaluated_witness :
  overlaps (OCTVolume.bb far_away) (bb (root (uniform_tree 3 1))) = false
  /\ outside (root (tree_of (unit_tree 3)
                            (diff_negative_root false (uniform_tree 3 1) far_away)))
     = true.
Proof.
  split; [reflexivity |].
  apply (proj2 (root_always_evaluated false (uniform_tree 3 1) far_away)).
  vm_compute. reflexivity.
Defined.

(** ** A fresh tree under a volume away from it *)

(** C5 (as amended).  A volume whose bounding box does not meet the root
    and which classifies the root cell as outside leaves a fresh tree a
    single leaf, but not unflagged: the root is evaluated and flagged
    outside. *)
Theorem fresh_tree_flagged_outside (ndebug : bool) (scale0 : Q) (depth0 : Z)
        (centerp : Point) (vol : OCTVolume.t) :
  overlaps (OCTVolume.bb vol) (bb (root (new_Octree scale0 depth0 centerp))) = false ->
  OCTVolume.classify vol centerp scale0 = Outside ->
  exists t',
    diff_negative_root ndebug (new_Octree scale0 depth0 centerp) vol = Ok t'
    /\ root t' = set_flags (root (new_Octree scale0 depth0 centerp)) false true
    /\ get_leaf_nodes (root t') [] [] = [[]]
    /\ inside (root t') = false /\ outside (root t') = true.
Proof.
  intros _ Hout. eexists. split.
  { unfold diff_negative_root.
    change (frames (max_depth (new_Octree scale0 depth0 centerp))
                   (root (new_Octree scale0 depth0 centerp)))
      with (S (Z.to_nat (depth0 - 0))).
    rewrite diff_negative_S. cbv zeta. unfold evaluate.
    cbn [root new_Octree center scale set_surface new_Octnode]. rewrite Hout.
    reflexivity. }
  repeat split.
Qed.

Lemma fresh_tree_flagged_outside_witness :
  exists t',
    diff_negative_root false (unit_tree 3) far_away = Ok t'
    /\ root t' = set_flags (root (unit_tree 3)) false true
    /\ get_leaf_nodes (root t') [] [] = [[]]
    /\ inside (root t') = false /\ outside (root t') = true.
Proof.
  apply (fresh_tree_flagged_outside false 1 3 origin far_away); reflexivity.
Defined.

(** The fresh unit tree under a box away from it: the call changes the
    tree, the root comes back flagged outside. *)
Lemma fresh_tree_unchanged_counterexample :
  overlaps (OCTVolume.bb far_away) (bb (root (unit_tree 3))) = false
  /\ diff_negative_root false (unit_tree 3) far_away <> Ok (unit_tree 3)
  /\ outside (root (unit_tree 3)) = false
  /\ outside (root (tree_of (unit_tree 3)
                            (diff_negative_root false (unit_tree 3) far_away)))
     = true.
Proof. vm_compute. repeat split. discriminate. Qed.

(** ** Nodes with children *)

Lemma wf_inner (n c : Octnode) (m : nat) :
  wf n -> child n !! m = Some (Some c) -> childcount n <> 0.
Proof.
  intros (_ & Hocc & _)%wf_unfold Hm.
  rewrite Hocc, (occupied_clear _ _ _ Hm). lia.
Qed.

Lemma node_at_cons (n : Octnode) (m : nat) (p : ptr) :
  node_at n (m :: p)
  = match child n !! m with
    | Some (Some c) => node_at c p
    | _ => None
    end.
Proof. reflexivity. Qed.

Section Inner.
Variable ndebug : bool.
Variable maxdepth : Z.
Variable vol : OCTVolume.t.

(** C3 (as amended).  A node that has children is evaluated like any
    other when the pass visits it: its flags are overwritten with the
    classification of its cell.  The node itself stays in place with its
    cell, a null slot stays null, and a child whose bounding box does not
    overlap the volume's stays as it is: only the existing, overlapping
    children are entered. *)
Theorem inner_node_visit (fuel : nat) (parent : option Octnode)
        (current : Octnode) (o : outcome) :
  wf current ->
  childcount current <> 0 ->
  diff_negative ndebug maxdepth vol fuel parent current = Ok o ->
  exists c',
    o = Kept c'
    /\ same_cell current c'
    /\ inside c' = inside_flag vol (center current) (scale current)
    /\ outside c' = outside_flag vol (center current) (scale current)
    /\ forall m,
         match child current !! m with
         | Some (Some ch) =>
             overlaps (OCTVolume.bb vol) (bb ch) = false ->
             child c' !! m = Some (Some ch)
         | _ => child c' !! m = child current !! m
         end.
Proof.
  intros Hwf Hcc Hcall. destruct fuel as [| fuel]; [discriminate |].
  pose proof Hcall as Hloop. rewrite (diff_negative_inner _ _ _ _ _ _ Hcc) in Hloop.
  apply bind_ok in Hloop as (c' & Hloop & [= <-]).
  exists c'. split; [reflexivity |].
  apply diff_negative_kept in Hcall as (Hcell & Hin & Hout).
  split; [exact Hcell |]. split; [exact Hin |]. split; [exact Hout |].
  set (P := fun cur : Octnode =>
              forall m,
                match child current !! m with
                | Some (Some ch) =>
                    overlaps (OCTVolume.bb vol) (bb ch) = false ->
                    child cur !! m = Some (Some ch)
                | _ => child cur !! m = child current !! m
                end).
  fold (P c'). revert Hloop.
  apply (build_children_wf ndebug maxdepth vol fuel P (fun _ _ => True)
           (fun r => r = Ok c' -> P c')).
  - apply wf_evaluate, Hwf.
  - intros m. rewrite child_evaluate.
    destruct (child current !! m) as [[ch |] |]; auto.
  - auto.
  - intros cur _ _ Hcur [= <-]. exact Hcur.
  - intros m cur ch Hm Hcur _ HP _ Hch Hidx _ Hov.
    assert (Hstep : forall slots : list (option Octnode),
               (forall j, j <> m -> slots !! j = child cur !! j) ->
               forall j,
                 match child current !! j with
                 | Some (Some ch0) =>
                     overlaps (OCTVolume.bb vol) (bb ch0) = false ->
                     slots !! j = Some (Some ch0)
                 | _ => slots !! j = child current !! j
                 end).
    { intros slots Hslots j. specialize (HP j).
      destruct (Nat.eq_dec j m) as [-> | Hne].
      - rewrite Hch in HP.
        destruct (child current !! m) as [[ch0 |] |]; [| discriminate | discriminate].
        intros Hov0. specialize (HP Hov0). injection HP as ->. congruence.
      - rewrite (Hslots j Hne). exact HP. }
    destruct (diff_negative ndebug maxdepth vol fuel (Some cur) ch)
      as [[ch' | x] | e]; [| | discriminate].
    + intros _ _. refine (Hstep (<[m := Some ch']> (child cur)) _).
      intros j Hne. apply list_lookup_insert_ne. auto.
    + intros -> _ _. unfold P. rewrite child_collapsed.
      refine (Hstep (<[Z.to_nat (idx ch) := None]> (child cur)) _).
      intros j Hne. apply list_lookup_insert_ne. lia.
Qed.

(** A subtree below [current] whose bounding box does not overlap the
    volume's is the same after the call. *)
Lemma diff_negative_frame (fuel : nat) :
  forall (parent : option Octnode) (current : Octnode) (o : outcome)
         (p : ptr) (s : Octnode),
    wf current -> p <> [] -> node_at current p = Some s ->
    overlaps (OCTVolume.bb vol) (bb s) = false ->
    diff_negative ndebug maxdepth vol fuel parent current = Ok o ->
    exists c', o = Kept c' /\ node_at c' p = Some s.
Proof.
  induction fuel as [| fuel IH]; intros parent current o p s Hwf Hp Hs Hov Hcall;
    [discriminate |].
  destruct p as [| m0 rest]; [contradiction |]. clear Hp.
  rewrite node_at_cons in Hs.
  destruct (child current !! m0) as [[a |] |] eqn:Ha; [| discriminate | discriminate].
  rewrite (diff_negative_inner _ _ _ _ _ _ (wf_inner _ _ _ Hwf Ha)) in Hcall.
  apply bind_ok in Hcall as (c' & Hloop & [= <-]).
  exists c'. split; [reflexivity |]. revert Hloop.
  apply (build_children_wf ndebug maxdepth vol fuel
           (fun cur => node_at cur (m0 :: rest) = Some s) (fun _ _ => True)
           (fun r => r = Ok c' -> node_at c' (m0 :: rest) = Some s)).
  - apply wf_evaluate, Hwf.
  - rewrite node_at_cons, child_evaluate, Ha. exact Hs.
  - auto.
  - intros cur _ _ Hcur [= <-]. exact Hcur.
  - intros m cur ch Hm Hcur _ HP _ Hch Hidx Hwch Hovch.
    rewrite node_at_cons in HP.
    destruct (Nat.eq_dec m m0) as [-> | Hne].
    + rewrite Hch in HP. destruct rest as [| m1 rest].
      * injection HP as ->. congruence.
      * destruct (diff_negative ndebug maxdepth vol fuel (Some cur) ch)
          as [[ch' | x] | e] eqn:Hcall; [| | discriminate].
        -- intros _ _. rewrite node_at_cons. cbn [child set_child].
           rewrite list_lookup_insert_eq by (eapply lookup_lt_Some, Hch).
           destruct (IH _ _ _ (m1 :: rest) s Hwch ltac:(discriminate) HP Hov Hcall)
             as (c0 & [= <-] & Hc0). exact Hc0.
        -- destruct (IH _ _ _ (m1 :: rest) s Hwch ltac:(discriminate) HP Hov Hcall)
             as (c0 & Habs & _). discriminate.
    + destruct (diff_negative ndebug maxdepth vol fuel (Some cur) ch)
        as [[ch' | x] | e]; [| | discriminate].
      * intros _ _. rewrite node_at_cons. cbn [child set_child].
        rewrite list_lookup_insert_ne by exact Hne. exact HP.
      * intros -> _ _. rewrite node_at_cons, child_collapsed.
        rewrite list_lookup_insert_ne by lia. exact HP.
Qed.
End Inner.

(** C4 (as amended).  In a consistent tree, every subtree below the root
    whose bounding box does not overlap the volume's bounding box is the
    same after a difference operation that returns: same nodes, same
    leaves, same flags. *)
Theorem pruned_subtree_unchanged (ndebug : bool) (t t' : Octree)
        (vol : OCTVolume.t) (p : ptr) (s : Octnode) :
  wf (root t) ->
  p <> [] ->
  node_at (root t) p = Some s ->
  overlaps (OCTVolume.bb vol) (bb s) = false ->
  diff_negative_root ndebug t vol = Ok t' ->
  node_at (root t') p = Some s.
Proof.
  intros Hwf Hp Hs Hov (r & Hcall & ->)%diff_negative_root_ok.
  destruct (diff_negative_frame _ _ _ _ _ _ _ _ _ Hwf Hp Hs Hov Hcall)
    as (c' & [= <-] & Hc'). exact Hc'.
Qed.

Lemma pruned_subtree_unchanged_witness :
  node_at (root (tree_of (unit_tree 3)
                         (diff_negative_root false (uniform_tree 3 1) corner)))
          [0%nat]
  = Some (octant (root (unit_tree 3)) 0).
Proof.
  apply (pruned_subtree_unchanged false (uniform_tree 3 1) _ corner).
  - reflexivity.
  - discriminate.
  - reflexivity.
  - reflexivity.
  - vm_compute. reflexivity.
Defined.

(** The subtree at the root itself: the box away from the unit root does
    not overlap the root's bounding box, and the call changes the root. *)
Lemma pruned_subtree_counterexample :
  overlaps (OCTVolume.bb far_away) (bb (root (uniform_tree 3 2))) = false
  /\ node_at (root (tree_of (unit_tree 3)
                            (diff_negative_root false (uniform_tree 3 2) far_away)))
             []
     <> node_at (root (uniform_tree 3 2)) [].
Proof. split; [reflexivity |]. vm_compute. discriminate. Qed.

Lemma inner_node_visit_witness :
  exists c',
    Kept (root (tree_of (unit_tree 3)
                        (diff_negative_root false (uniform_tree 3 1) corner)))
    = Kept c'
    /\ same_cell (root (uniform_tree 3 1)) c'
    /\ inside c' = inside_flag corner (center (root (uniform_tree 3 1)))
                               (scale (root (uniform_tree 3 1)))
    /\ outside c' = outside_flag corner (center (root (uniform_tree 3 1)))
                                 (scale (root (uniform_tree 3 1)))
    /\ forall m,
         match child (root (uniform_tree 3 1)) !! m with
         | Some (Some ch) =>
             overlaps (OCTVolume.bb corner) (bb ch) = false ->
             child c' !! m = Some (Some ch)
         | _ => child c' !! m = child (root (uniform_tree 3 1)) !! m
         end.
Proof.
  apply (inner_node_visit false 3 corner
           (frames 3 (root (uniform_tree 3 1))) None (root (uniform_tree 3 1))).
  - reflexivity.
  - vm_compute. discriminate.
  - vm_compute. reflexivity.
Defined.

(** The root of the once subdivided unit tree has children and is
    unflagged; the call with the box away from it flags it outside. *)
Lemma inner_node_flags_counterexample :
  childcount (root (uniform_tree 3 1)) <> 0
  /\ inside (root (uniform_tree 3 1)) = false
  /\ outside (root (uniform_tree 3 1)) = false
  /\ exists t', diff_negative_root false (uniform_tree 3 1) far_away = Ok t'
                /\ outside (root t') = true.
Proof.
  split; [vm_compute; discriminate |]. split; [vm_compute; reflexivity |].
  split; [vm_compute; reflexivity |].
  eexists. split; [vm_compute; reflexivity | reflexivity].
Qed.

(** ** The child count of every node *)

Lemma update_at_wf (line : Z) (f : Octnode -> Octnode) (p : ptr) :
  (forall n, wf (f n) /\ idx (f n) = idx n) ->
  forall r r', wf r -> update_at line f p r = Ok r' -> wf r' /\ idx r' = idx r.
Proof.
  intros Hf. induction p as [| m p IH]; intros r r' Hr Hup; simpl in Hup.
  - injection Hup as <-. apply Hf.
  - destruct (child r !! m) as [[c |] |] eqn:Hm; try discriminate.
    apply bind_ok in Hup as (c' & Hc' & [= <-]).
    destruct (IH c c' (wf_child _ _ _ Hr Hm) Hc') as [Hw Hi].
    split; [| reflexivity].
    eapply wf_replace_child; [exact Hr | exact Hm | exact Hw |].
    rewrite Hi. apply (wf_child_idx r c m Hr Hm).
Qed.

Lemma init_round_wf (r r' : Octnode) : wf r -> init_round r = Ok r' -> wf r'.
Proof.
  unfold init_round. generalize (get_leaf_nodes r [] []) as nodelist.
  intros nodelist. revert r.
  induction nodelist as [| node nodelist IH]; intros r Hr Hround; simpl in Hround.
  - injection Hround as <-. exact Hr.
  - destruct (update_at 70 subdivide node r) as [r1 | e] eqn:Hup.
    + apply (IH r1); [| exact Hround].
      eapply update_at_wf; [| exact Hr | exact Hup].
      intros n. split; [apply wf_subdivide | reflexivity].
    + rewrite (fold_fault (fun node r' => update_at 70 subdivide node r')) in Hround.
      discriminate.
Qed.

Lemma init_rounds_wf (n : nat) :
  forall r r', wf r -> init_rounds n r = Ok r' -> wf r'.
Proof.
  induction n as [| n IH]; intros r r' Hr Hinit; simpl in Hinit.
  - injection Hinit as <-. exact Hr.
  - apply bind_ok in Hinit as (r1 & Hround & Hrest).
    eapply IH; [eapply init_round_wf; eassumption | exact Hrest].
Qed.

Lemma diff_negative_root_wf (ndebug : bool) (t t' : Octree) (vol : OCTVolume.t) :
  wf (root t) -> diff_negative_root ndebug t vol = Ok t' -> wf (root t').
Proof.
  intros Hwf (r & Hcall & ->)%diff_negative_root_ok.
  apply (diff_negative_wf _ _ _ _ _ _ _ Hwf) in Hcall; [exact Hcall |].
  intros p Hp. discriminate.
Qed.

Lemma reachable_wf (ndebug : bool) (t : Octree) : reachable ndebug t -> wf (root t).
Proof.
  induction 1 as [scale0 depth0 centerp | n t t' _ IH Hinit | vol t t' _ IH Hdiff].
  - reflexivity.
  - unfold init in Hinit. apply bind_ok in Hinit as (r & Hr & [= <-]).
    eapply init_rounds_wf; eassumption.
  - eapply diff_negative_root_wf; eassumption.
Qed.

(** Without assertions the deletion returns whatever the parent. *)
Lemma delete_leaf_ndebug (vol : OCTVolume.t) (p c : Octnode) :
  0 <= idx c <= 7 ->
  delete_leaf true vol p c = Ok (Deleted (collapsed vol p c)).
Proof.
  intros Hidx. unfold delete_leaf, collapsed. fold (detached p c).
  destruct (Z.leb_spec 0 (idx c)), (Z.leb_spec (idx c) 7); try lia.
  simpl. change (childcount (detached p c)) with (childcount p - 1).
  destruct (childcount p - 1 =? 0); reflexivity.
Qed.

(** C6.  In every tree built by the constructor and carried through
    [init] and [diff_negative_root], every node has a child count equal
    to the number of its non-null slots, between 0 and 8.  The call of
    [diff_negative] on a leaf that the volume classifies as inside, held
    by a consistent parent, deletes it: the call returns, the one slot of
    that leaf is cleared, every other slot is as it was, and the child
    count of the parent is lower by one and again the number of its
    non-null slots.  (With assertions on, the call on the last child of a
    parent that the volume does not classify as inside does not return;
    the deletion itself is the same in every call that does.) *)
Theorem childcount_invariant (ndebug : bool) :
  (forall t, reachable ndebug t ->
     forall p n, node_at (root t) p = Some n ->
       childcount n = Z.of_nat (occupied (child n)) /\ 0 <= childcount n <= 8)
  /\ (forall maxdepth vol fuel (parent c : Octnode),
        wf parent ->
        child parent !! Z.to_nat (idx c) = Some (Some c) ->
        childcount c = 0 ->
        inside_flag vol (center c) (scale c) = true ->
        (ndebug = false -> childcount parent = 1 ->
         inside_flag vol (center parent) (scale parent) = true) ->
        exists parent',
          diff_negative ndebug maxdepth vol (S fuel) (Some parent) c
          = Ok (Deleted parent')
          /\ child parent' !! Z.to_nat (idx c) = Some None
          /\ (forall m, m <> Z.to_nat (idx c) -> child parent' !! m = child parent !! m)
          /\ occupied (child parent) = S (occupied (child parent'))
          /\ childcount parent' = childcount parent - 1
          /\ childcount parent' = Z.of_nat (occupied (child parent'))
          /\ 0 <= childcount parent' <= 8)
  /\ (forall maxdepth vol fuel (parent c x parent' : Octnode),
        wf parent ->
        child parent !! Z.to_nat (idx c) = Some (Some x) ->
        diff_negative ndebug maxdepth vol fuel (Some parent) c = Ok (Deleted parent') ->
        child parent' = <[Z.to_nat (idx c) := None]> (child parent)
        /\ occupied (child parent) = S (occupied (child parent'))
        /\ childcount parent' = childcount parent - 1
        /\ childcount parent' = Z.of_nat (occupied (child parent'))
        /\ 0 <= childcount parent' <= 8).
Proof.
  assert (Hdel : forall vol (parent c x : Octnode),
             wf parent -> 0 <= idx c ->
             child parent !! Z.to_nat (idx c) = Some (Some x) ->
             child (collapsed vol parent c) = <[Z.to_nat (idx c) := None]> (child parent)
             /\ occupied (child parent) = S (occupied (child (collapsed vol parent c)))
             /\ childcount (collapsed vol parent c) = childcount parent - 1
             /\ childcount (collapsed vol parent c)
                = Z.of_nat (occupied (child (collapsed vol parent c)))
             /\ 0 <= childcount (collapsed vol parent c) <= 8).
  { intros vol parent c x Hwf Hidx Hx.
    assert (Hw : wf (collapsed vol parent c))
      by (eapply wf_collapsed; [exact Hwf | exact Hidx | exact Hx]).
    apply wf_count_ok in Hw as [Hocc Hrange].
    rewrite child_collapsed, childcount_collapsed in *.
    split; [reflexivity |]. split; [apply (occupied_clear _ _ _ Hx) |]. auto. }
  split; [| split].
  - intros t Ht p n Hn. apply wf_count_ok.
    eapply wf_node_at; [apply (reachable_wf ndebug), Ht | exact Hn].
  - intros maxdepth vol fuel parent c Hwf Hc Hleaf Hin Hlast.
    pose proof (wf_child_idx _ _ _ Hwf Hc) as Hidx.
    pose proof (lookup_lt_Some _ _ _ Hc) as Hlt.
    pose proof Hwf as (Hlen & Hcount & _)%wf_unfold. rewrite Hlen in Hlt.
    pose proof (occupied_clear _ _ _ Hc) as Hocc.
    pose proof (occupied_le_length (child parent)) as Hle. rewrite Hlen in Hle.
    destruct (Hdel vol parent c c Hwf ltac:(lia) Hc) as (Hch & Ho & Hcc & Hcc' & Hrange).
    exists (collapsed vol parent c). split.
    + rewrite diff_negative_S. cbv zeta.
      rewrite childcount_evaluate, inside_evaluate, Hleaf, Hin. simpl.
      rewrite assert_true. simpl.
      destruct ndebug.
      * rewrite delete_leaf_ndebug by (rewrite idx_evaluate; lia).
        rewrite collapsed_evaluate. reflexivity.
      * rewrite delete_leaf_safe; rewrite ?idx_evaluate; try lia.
        -- rewrite collapsed_evaluate. reflexivity.
        -- intros H1. apply Hlast; [reflexivity | exact H1].
    + split; [rewrite Hch; apply list_lookup_insert_eq; rewrite Hlen; lia |].
      split; [intros m Hm; rewrite Hch; apply list_lookup_insert_ne; lia |]. auto.
  - intros maxdepth vol fuel parent c x parent' Hwf Hx Hcall.
    pose proof Hcall as (p0 & [= <-] & -> & _ & _ & Hidx)%diff_negative_deleted.
    apply (Hdel vol parent c x Hwf ltac:(lia) Hx).
Qed.

(** The deletion at work: in the unit tree subdivided once, the call on
    the first child of the root under the cube that contains the tree
    clears slot 0 and leaves the root seven children. *)
Lemma childcount_invariant_witness :
  (childcount (root (uniform_tree 3 1))
   = Z.of_nat (occupied (child (root (uniform_tree 3 1))))
   /\ 0 <= childcount (root (uniform_tree 3 1)) <= 8)
  /\ exists parent',
       diff_negative false 3 everything 1 (Some (root (uniform_tree 3 1)))
                     (octant (root (unit_tree 3)) 0)
       = Ok (Deleted parent')
       /\ child parent' !! 0%nat = Some None
       /\ (forall m, m <> 0%nat ->
             child parent' !! m = child (root (uniform_tree 3 1)) !! m)
       /\ occupied (child (root (uniform_tree 3 1))) = S (occupied (child parent'))
       /\ childcount parent' = 8 - 1
       /\ childcount parent' = Z.of_nat (occupied (child parent'))
       /\ 0 <= childcount parent' <= 8.
Proof.
  split.
  - apply (proj1 (childcount_invariant false) (uniform_tree 3 1)) with (p := []).
    + apply (reachable_init false 1 (unit_tree 3)); [apply reachable_new | reflexivity].
    + reflexivity.
  - apply (proj1 (proj2 (childcount_invariant false)) 3 everything 0%nat
                 (root (uniform_tree 3 1)) (octant (root (unit_tree 3)) 0)).
    + reflexivity.
    + reflexivity.
    + reflexivity.
    + vm_compute. reflexivity.
    + intros _ H. discriminate H.
Defined.

(** ** The collapse of a node that lost all its children *)

Lemma full_collapsible (vol : OCTVolume.t) (n : Octnode) :
  full n -> collapsible vol n.
Proof.
  induction 1 as [n Hfull _ IH]. constructor; [| exact IH].
  intros Hcc m Hm Hnone. destruct (Hfull Hcc m Hm Hnone).
Qed.

Lemma placed_child (n ch : Octnode) (m : nat) :
  placed n -> child n !! m = Some (Some ch) ->
  center ch = octant_center (center n) (scale n) m
  /\ scale ch = (scale n / 2)%Q /\ placed ch.
Proof.
  intros Hp Hm. inversion Hp as [n0 Hcell Hrec]; subst.
  destruct (Hcell m ch Hm) as [H1 H2].
  split; [exact H1 | split; [exact H2 | apply (Hrec m ch Hm)]].
Qed.

Lemma placed_same_children (n n' : Octnode) :
  child n' = child n -> center n' = center n -> scale n' = scale n ->
  placed n -> placed n'.
Proof.
  intros Hc Hce Hs Hp. inversion Hp as [n0 Hcell Hrec]; subst.
  constructor; rewrite Hc; [rewrite Hce, Hs |]; assumption.
Qed.

Lemma placed_evaluate (vol : OCTVolume.t) (n : Octnode) :
  placed n -> placed (evaluate vol n).
Proof.
  apply placed_same_children; rewrite evaluate_flags; reflexivity.
Qed.

Lemma octant_no_child (n : Octnode) (m j : nat) (ch : Octnode) :
  child (octant n m) !! j <> Some (Some ch).
Proof.
  unfold octant. cbn [child set_surface new_Octnode].
  intros [H _]%lookup_replicate. discriminate.
Qed.

Lemma placed_octant (n : Octnode) (m : nat) : placed (octant n m).
Proof.
  constructor; intros j ch Hj; destruct (octant_no_child _ _ _ _ Hj).
Qed.

Lemma placed_subdivide (n : Octnode) : placed (subdivide n).
Proof.
  constructor.
  - intros m ch (Hm & ->)%child_subdivide_inv. split; reflexivity.
  - intros m ch (Hm & ->)%child_subdivide_inv. apply placed_octant.
Qed.

Lemma occupied_one (slots : list (option Octnode)) (i : nat) (x : Octnode) :
  occupied slots = 1%nat -> slots !! i = Some (Some x) ->
  forall j, j <> i -> (j < length slots)%nat -> slots !! j = Some None.
Proof.
  intros Hocc Hi j Hne Hj.
  rewrite (occupied_clear _ _ _ Hi) in Hocc. injection Hocc as Hocc.
  rewrite <- (list_lookup_insert_ne slots i j None) by auto.
  apply occupied_none; [exact Hocc | rewrite length_insert; exact Hj].
Qed.

Lemma collapsible_same_children (vol : OCTVolume.t) (n n' : Octnode) :
  child n' = child n -> childcount n' = childcount n ->
  center n' = center n -> scale n' = scale n ->
  collapsible vol n -> collapsible vol n'.
Proof.
  intros Hc Hcc Hce Hs Hn. inversion Hn as [n0 Hcl Hrec]; subst.
  constructor; [| rewrite Hc; exact Hrec].
  unfold cleared_inside in *. rewrite Hc, Hcc, Hce, Hs. exact Hcl.
Qed.

Lemma collapsible_evaluate (vol vol' : OCTVolume.t) (n : Octnode) :
  collapsible vol n -> collapsible vol (evaluate vol' n).
Proof.
  apply collapsible_same_children; rewrite evaluate_flags; reflexivity.
Qed.

Lemma collapsible_octant (vol : OCTVolume.t) (n : Octnode) (m : nat) :
  collapsible vol (octant n m).
Proof.
  constructor.
  - intros Hcc. contradiction Hcc. reflexivity.
  - intros j ch Hj. destruct (octant_no_child _ _ _ _ Hj).
Qed.

Lemma collapsible_child (vol : OCTVolume.t) (n ch : Octnode) (m : nat) :
  collapsible vol n -> child n !! m = Some (Some ch) -> collapsible vol ch.
Proof. intros Hn Hm. inversion Hn as [n0 _ Hrec]; subst. apply (Hrec m ch Hm). Qed.

Section Collapse.
Variable ndebug : bool.
Variable maxdepth : Z.
Variable vol : OCTVolume.t.
Hypothesis Hsound : octant_sound vol.

(** The deletion of a leaf classified as inside passes its assertions,
    when the leaf sits in its slot of a consistent parent whose null
    slots are inside octants. *)
Lemma delete_leaf_collapse (p c : Octnode) :
  wf p -> 0 <= idx c ->
  (exists x, child p !! Z.to_nat (idx c) = Some (Some x)) ->
  center c = octant_center (center p) (scale p) (Z.to_nat (idx c)) ->
  scale c = (scale p / 2)%Q ->
  cleared_inside vol p ->
  inside_flag vol (center c) (scale c) = true ->
  delete_leaf ndebug vol p c = Ok (Deleted (collapsed vol p c)).
Proof.
  intros Hwf Hidx [x Hx] Hce Hsc Hcl Hin.
  pose proof Hwf as (Hlen & Hocc & _)%wf_unfold.
  pose proof (lookup_lt_Some _ _ _ Hx) as Hlt. rewrite Hlen in Hlt.
  pose proof (occupied_clear _ _ _ Hx) as Hclear.
  pose proof (occupied_le_length (child p)) as Hle. rewrite Hlen in Hle.
  apply delete_leaf_safe; [lia | lia |].
  intros Hone. apply Hsound. intros m Hm.
  destruct (Nat.eq_dec m (Z.to_nat (idx c))) as [-> | Hne].
  - rewrite <- Hce, <- Hsc. exact Hin.
  - apply Hcl; [exact Hm |].
    apply (occupied_one _ (Z.to_nat (idx c)) x); [lia | exact Hx | exact Hne | lia].
Qed.

Lemma diff_negative_collapse (fuel : nat) :
  forall (parent : option Octnode) (current : Octnode),
    wf current -> placed current -> collapsible vol current ->
    (forall p, parent = Some p ->
       wf p /\ 0 <= idx current
       /\ (exists x, child p !! Z.to_nat (idx current) = Some (Some x))
       /\ center current = octant_center (center p) (scale p) (Z.to_nat (idx current))
       /\ scale current = (scale p / 2)%Q
       /\ cleared_inside vol p) ->
    match diff_negative ndebug maxdepth vol fuel parent current with
    | Ok (Kept c') => placed c' /\ collapsible vol c'
    | Ok (Deleted _) => True
    | Fault e =>
        e = OutOfFuel
        \/ (parent = None /\ ndebug = false /\ e = AssertionFailed 137
            /\ childcount current = 0
            /\ inside_flag vol (center current) (scale current) = true)
    end.
Proof.
  induction fuel as [| fuel IH]; intros parent current Hwf Hpl Hco Hpar;
    [left; reflexivity |].
  assert (Hloop : forall cur0,
             wf cur0 -> placed cur0 -> cleared_inside vol cur0 ->
             (forall m ch, child cur0 !! m = Some (Some ch) -> collapsible vol ch) ->
             match build_children vol (diff_negative ndebug maxdepth vol fuel) cur0 with
             | Ok cur => placed cur /\ collapsible vol cur
             | Fault e => e = OutOfFuel
             end).
  { intros cur0 Hwf0 Hpl0 Hcl0 Hch0.
    apply (build_children_wf ndebug maxdepth vol fuel
             (fun cur => placed cur /\ cleared_inside vol cur
                         /\ forall m ch, child cur !! m = Some (Some ch) ->
                                         collapsible vol ch)
             (fun _ _ => True)
             (fun r => match r with
                       | Ok cur => placed cur /\ collapsible vol cur
                       | Fault e => e = OutOfFuel
                       end)).
    - exact Hwf0.
    - auto.
    - auto.
    - intros cur _ _ (Hp & Hcl & Hch). split; [exact Hp |].
      constructor; [intros _; exact Hcl | exact Hch].
    - intros m cur ch Hm Hwcur _ (Hp & Hcl & Hch) _ Hslot Hidx Hwch _.
      destruct (placed_child _ _ _ Hp Hslot) as (Hce & Hsc & Hpch).
      inversion Hp as [n0 Hcell Hrec]; subst n0.
      assert (Hpre : forall p, Some cur = Some p ->
                wf p /\ 0 <= idx ch
                /\ (exists x, child p !! Z.to_nat (idx ch) = Some (Some x))
                /\ center ch = octant_center (center p) (scale p) (Z.to_nat (idx ch))
                /\ scale ch = (scale p / 2)%Q
                /\ cleared_inside vol p).
      { intros p [= <-]. rewrite Hidx, Nat2Z.id.
        split; [exact Hwcur |]. split; [lia |]. split; [eauto |]. auto. }
      specialize (IH (Some cur) ch Hwch Hpch (Hch m ch Hslot) Hpre).
      destruct (diff_negative ndebug maxdepth vol fuel (Some cur) ch)
        as [[ch' | x] | e].
      + intros _ (_ & _ & Hsc' & Hce' & _). destruct IH as [Hpch' Hcoch'].
        split; [| split].
        * constructor; intros j chj Hj; cbn [child set_child center scale] in *;
            (destruct (Nat.eq_dec m j) as [<- | Hne];
             [rewrite list_lookup_insert_eq in Hj by (eapply lookup_lt_Some, Hslot);
              injection Hj as <-
             |rewrite list_lookup_insert_ne in Hj by exact Hne]).
          -- rewrite <- Hsc', <- Hce'. auto.
          -- apply (Hcell j chj Hj).
          -- exact Hpch'.
          -- apply (Hrec j chj Hj).
        * intros j Hj Hnone. cbn [child set_child center scale] in *.
          destruct (Nat.eq_dec m j) as [<- | Hne].
          -- rewrite list_lookup_insert_eq in Hnone by (eapply lookup_lt_Some, Hslot).
             discriminate.
          -- rewrite list_lookup_insert_ne in Hnone by exact Hne. apply (Hcl j Hj Hnone).
        * intros j chj Hj. cbn [child set_child] in Hj.
          destruct (Nat.eq_dec m j) as [<- | Hne].
          -- rewrite list_lookup_insert_eq in Hj by (eapply lookup_lt_Some, Hslot).
             injection Hj as <-. exact Hcoch'.
          -- rewrite list_lookup_insert_ne in Hj by exact Hne. apply (Hch j chj Hj).
      + intros -> _ Hin.
        destruct (same_cell_collapsed vol cur ch) as (_ & _ & Hs & Hc & _).
        assert (Hlook : forall j y,
                   child (collapsed vol cur ch) !! j = Some (Some y) ->
                   child cur !! j = Some (Some y)).
        { intros j y Hj. rewrite child_collapsed in Hj.
          apply list_lookup_insert_Some in Hj as [(_ & Habs & _) | (_ & Hj)];
            [discriminate | exact Hj]. }
        split; [| split].
        * constructor; intros j chj Hj%Hlook.
          -- rewrite <- Hs, <- Hc. apply (Hcell j chj Hj).
          -- apply (Hrec j chj Hj).
        * intros j Hj Hnone. rewrite <- Hs, <- Hc. rewrite child_collapsed in Hnone.
          rewrite Hidx, Nat2Z.id in Hnone.
          destruct (Nat.eq_dec m j) as [<- | Hne].
          -- rewrite <- Hce, <- Hsc. exact Hin.
          -- rewrite list_lookup_insert_ne in Hnone by exact Hne. apply (Hcl j Hj Hnone).
        * intros j chj Hj%Hlook. apply (Hch j chj Hj).
      + destruct IH as [-> | (Habs & _)]; [reflexivity | discriminate]. }
  assert (Hev : placed (evaluate vol current) /\ collapsible vol (evaluate vol current))
    by (split; [apply placed_evaluate, Hpl | apply collapsible_evaluate, Hco]).
  rewrite diff_negative_S. cbv zeta.
  rewrite childcount_evaluate, inside_evaluate.
  destruct (Z.eqb_spec (childcount current) 0) as [Hleaf | Hinner].
  - destruct (inside_flag vol (center current) (scale current)) eqn:Hin.
    + destruct parent as [p |].
      * rewrite assert_true. simpl.
        destruct (Hpar p eq_refl) as (Hwp & Hidx & Hx & Hce & Hsc & Hcl).
        rewrite (delete_leaf_collapse p (evaluate vol current)).
        -- exact I.
        -- exact Hwp.
        -- rewrite idx_evaluate. exact Hidx.
        -- rewrite idx_evaluate. exact Hx.
        -- rewrite idx_evaluate, evaluate_flags. exact Hce.
        -- rewrite evaluate_flags. exact Hsc.
        -- exact Hcl.
        -- rewrite evaluate_flags. exact Hin.
      * unfold assert. destruct ndebug; simpl; [exact Hev |]. right. auto.
    + destruct (outside (evaluate vol current)); [exact Hev |].
      destruct (depth (evaluate vol current) <? maxdepth); [| exact Hev].
      change (childcount (subdivide (evaluate vol current)) =? 8) with true.
      rewrite assert_true. simpl. rewrite build_new_children_subdivide.
      specialize (Hloop (subdivide (evaluate vol current))
                        (wf_subdivide _) (placed_subdivide _)).
      destruct (build_children vol (diff_negative ndebug maxdepth vol fuel)
                               (subdivide (evaluate vol current))) as [cur | e].
      * apply Hloop.
        -- intros m Hm Hnone. rewrite child_subdivide in Hnone by exact Hm. discriminate.
        -- intros m ch (_ & ->)%child_subdivide_inv. apply collapsible_octant.
      * left. apply Hloop.
        -- intros m Hm Hnone. rewrite child_subdivide in Hnone by exact Hm. discriminate.
        -- intros m ch (_ & ->)%child_subdivide_inv. apply collapsible_octant.
  - specialize (Hloop (evaluate vol current) (wf_evaluate _ _ Hwf) (proj1 Hev)).
    assert (Hcl : cleared_inside vol (evaluate vol current)).
    { destruct Hev as [_ Hc]. inversion Hc as [n0 Hcl _]; subst.
      apply Hcl. rewrite childcount_evaluate. exact Hinner. }
    assert (Hch : forall m ch, child (evaluate vol current) !! m = Some (Some ch) ->
                               collapsible vol ch).
    { intros m ch Hm. eapply collapsible_child; [exact (proj2 Hev) | exact Hm]. }
    specialize (Hloop Hcl Hch).
    destruct (build_children vol (diff_negative ndebug maxdepth vol fuel)
                             (evaluate vol current)) as [cur | e]; simpl.
    + exact Hloop.
    + left. exact Hloop.
Qed.
End Collapse.

(** ** Checked sample trees and volumes *)

Lemma Q_same_eq (a b : Q) : Q_same a b = true -> a = b.
Proof.
  destruct a as [an ad], b as [bn bd]. unfold Q_same. simpl.
  intros [Hn Hd]%andb_true_iff. apply Z.eqb_eq in Hn. apply Pos.eqb_eq in Hd.
  subst. reflexivity.
Qed.

Lemma Point_same_eq (a b : Point) : Point_same a b = true -> a = b.
Proof.
  destruct a as [ax ay az], b as [bx bz0 bz]. unfold Point_same. simpl.
  intros [[Hx Hy]%andb_true_iff Hz]%andb_true_iff.
  apply Q_same_eq in Hx, Hy, Hz. subst. reflexivity.
Qed.

Lemma placedb_placed (n : Octnode) : placedb n = true -> placed n.
Proof.
  induction n as [n IH] using Octnode_ind. intros Hb.
  destruct n as [i d s ce b cc slots ins outs sf].
  cbn [placedb child center scale] in *. fold placedb in Hb.
  rewrite all_slots_spec in Hb.
  constructor; intros m ch Hm; cbn [child center scale] in *;
    specialize (Hb m ch Hm); simpl in Hb;
    apply andb_true_iff in Hb as [[Hc Hs]%andb_true_iff Hp].
  - split; [apply Point_same_eq, Hc | apply Q_same_eq, Hs].
  - apply (IH m ch Hm Hp).
Qed.

Lemma fullb_full (n : Octnode) : fullb n = true -> full n.
Proof.
  induction n as [n IH] using Octnode_ind. intros Hb.
  destruct n as [i d s ce b cc slots ins outs sf].
  cbn [fullb child childcount] in *. fold fullb in Hb.
  apply andb_true_iff in Hb as [Hall Hch]. rewrite all_slots_spec in Hch.
  constructor; cbn [child childcount].
  - intros Hcc m _ Hnone.
    destruct (Z.eqb_spec cc 0) as [-> | _]; [contradiction |]. simpl in Hall.
    rewrite forallb_forall in Hall.
    specialize (Hall None (proj1 (list_elem_of_In _ _) (list_elem_of_lookup_2 _ _ _ Hnone))).
    discriminate.
  - intros m ch Hm. apply (IH m ch Hm). apply (Hch m ch Hm).
Qed.

Lemma inside_flag_box (b : Bbox) (c : Point) (s : Q) :
  inside_flag (box_volume b) c s = within (cube c s) b.
Proof.
  unfold inside_flag, box_volume. cbn [OCTVolume.classify].
  destruct (within (cube c s) b); [reflexivity |].
  destruct (overlaps b (cube c s)); reflexivity.
Qed.

(** A solid box classifying cells by their extent respects the octant
    partition: the octants 0 and 7 span the cell. *)
Lemma box_volume_octant_sound (b : Bbox) : octant_sound (box_volume b).
Proof.
  intros c s H. rewrite inside_flag_box.
  pose proof (H 0%nat ltac:(lia)) as H0. pose proof (H 7%nat ltac:(lia)) as H7.
  rewrite inside_flag_box in H0, H7. unfold within in *.
  cbn [cube octant_center minpt maxpt px py pz direction Nat.testbit Nat.odd
       Nat.even Nat.div2 Nat.b2n negb] in *.
  repeat match goal with
         | H : _ && _ = true |- _ => apply andb_true_iff in H as [? ?]
         | H : Qle_bool _ _ = true |- _ => apply Qle_bool_iff in H
         end.
  assert (Hs : (s == s / 2 + s / 2)%Q) by field.
  revert Hs. generalize dependent (s / 2)%Q. intros h; intros.
  repeat (apply andb_true_iff; split); apply Qle_bool_iff; lra.
Qed.

(** ** The collapse law *)

(** The law holds of the volumes whose classification respects the
    octant partition, in a pass over a consistent tree, with every child
    in the octant of its slot, in which the children a node has lost
    already are octants this same volume classifies as inside (as in any
    tree whose nodes with children have all eight): a parent whose child
    count drops to 0 classifies as inside when it is evaluated again, and
    the assertion of line 148 holds. *)
Lemma collapse_of_consistent_tree (ndebug : bool) (t : Octree) (vol : OCTVolume.t) :
  octant_sound vol ->
  wf (root t) -> placed (root t) -> collapsible vol (root t) ->
  diff_negative_root ndebug t vol <> Fault (AssertionFailed 148)
  /\ ((exists t', diff_negative_root ndebug t vol = Ok t'
                  /\ wf (root t') /\ placed (root t') /\ collapsible vol (root t'))
      \/ (diff_negative_root ndebug t vol = Fault (AssertionFailed 137)
          /\ ndebug = false /\ childcount (root t) = 0
          /\ inside_flag vol (center (root t)) (scale (root t)) = true)).
Proof.
  intros Hsound Hwf Hpl Hco.
  assert (Hcases :
            (exists t', diff_negative_root ndebug t vol = Ok t'
                        /\ wf (root t') /\ placed (root t')
                        /\ collapsible vol (root t'))
            \/ (diff_negative_root ndebug t vol = Fault (AssertionFailed 137)
                /\ ndebug = false /\ childcount (root t) = 0
                /\ inside_flag vol (center (root t)) (scale (root t)) = true)).
  { pose proof (diff_negative_collapse ndebug (max_depth t) vol Hsound
                  (frames (max_depth t) (root t)) None (root t) Hwf Hpl Hco) as H.
    specialize (H ltac:(discriminate)).
    destruct (diff_negative ndebug (max_depth t) vol
                            (frames (max_depth t) (root t)) None (root t))
      as [[r | x] | e] eqn:Hcall.
    - assert (Hroot : diff_negative_root ndebug t vol
                      = Ok (mkOctree r (root_scale t) (max_depth t)))
        by (unfold diff_negative_root; rewrite Hcall; reflexivity).
      left. eexists. split; [exact Hroot |].
      split; [eapply diff_negative_root_wf; eassumption | exact H].
    - apply diff_negative_deleted in Hcall as (p & Hp & _). discriminate.
    - destruct H as [-> | (_ & Hn & -> & Hleaf & Hin)].
      + exfalso. revert Hcall. apply diff_negative_fuel. reflexivity.
      + right. split; [unfold diff_negative_root; rewrite Hcall; reflexivity | auto]. }
  split; [| exact Hcases].
  destruct Hcases as [(t' & -> & _) | (-> & _)]; discriminate.
Qed.

(** C1.  The code breaks the law it asserts.  The unit tree with ceiling
    1 is subdivided once by [init]; a first pass cuts away the solid box
    below the plane z = 0 and deletes the four lower children of the
    root; a second pass cuts away the solid box above that plane and
    deletes the four upper children.  The child count of the root drops
    to 0 in the second pass, the root is evaluated against the second box,
    which does not contain it, and the assertion of line 148 fails; with
    NDEBUG the root is left a leaf that is not flagged inside. *)
Theorem collapse_assertion_fails :
  init 1 (unit_tree 1) = Ok (uniform_tree 1 1)
  /\ octant_sound lower_half /\ octant_sound upper_half
  /\ exists t1,
       diff_negative_root false (uniform_tree 1 1) lower_half = Ok t1
       /\ reachable false t1
       /\ childcount (root t1) = 4
       /\ inside_flag upper_half (center (root t1)) (scale (root t1)) = false
       /\ diff_negative_root false t1 upper_half = Fault (AssertionFailed 148)
       /\ exists t2,
            diff_negative_root true t1 upper_half = Ok t2
            /\ childcount (root t2) = 0 /\ inside (root t2) = false.
Proof.
  split; [reflexivity |].
  split; [apply box_volume_octant_sound |]. split; [apply box_volume_octant_sound |].
  eexists. split; [vm_compute; reflexivity |].
  split.
  { apply (reachable_diff false lower_half (uniform_tree 1 1)); [| vm_compute; reflexivity].
    apply (reachable_init false 1 (unit_tree 1)); [apply reachable_new | reflexivity]. }
  split; [reflexivity |]. split; [vm_compute; reflexivity |].
  split; [vm_compute; reflexivity |].
  eexists. split; [vm_compute; reflexivity |]. split; reflexivity.
Qed.

(** ** A tree engulfed by the volume *)

(** Below a leaf of a consistent tree there is nothing. *)
Lemma wf_leaf_node_at (n x : Octnode) (p : ptr) :
  wf n -> childcount n = 0 -> node_at n p = Some x -> p = [].
Proof.
  intros Hwf Hleaf Hx. destruct p as [| m p]; [reflexivity |].
  rewrite node_at_cons in Hx.
  destruct (child n !! m) as [[c |] |] eqn:Hm; [| discriminate | discriminate].
  destruct (wf_inner _ _ _ Hwf Hm Hleaf).
Qed.

Lemma perfectb_perfect (d : nat) :
  forall n, perfectb d n = true -> perfect d n.
Proof.
  induction d as [| d IH]; intros n Hb; cbn [perfectb perfect] in *.
  - apply Z.eqb_eq, Hb.
  - apply andb_true_iff in Hb as [Hcc Hall].
    split; [intros Heq; rewrite Heq in Hcc; discriminate |].
    intros m Hm. rewrite forallb_forall in Hall.
    specialize (Hall m (proj2 (in_seq 8 0 m) ltac:(lia))).
    destruct (child n !! m) as [[ch |] |]; [| discriminate | discriminate].
    exists ch. split; [reflexivity | apply IH, Hall].
Qed.




Section Engulfed.
Variable ndebug : bool.
Variable maxdepth : Z.
Variable vol : OCTVolume.t.


End Engulfed.

Lemma present_all (slots : list (option Octnode)) (n k : nat) :
  (forall m, (m < k)%nat -> exists ch, slots !! m = Some (Some ch)) ->
  length (present slots n k) = k.
Proof.
  revert slots n. induction k as [| k IH]; intros slots n H.
  - destruct slots; reflexivity.
  - destruct (H 0%nat ltac:(lia)) as (ch & Hch).
    destruct slots as [| slot slots]; [discriminate |].
    simpl in Hch. injection Hch as ->. simpl. f_equal. apply IH.
    intros m Hm. apply (H (S m)). lia.
Qed.

Lemma length_concat_same {A B : Type} (f : B -> list A) (l : list B) (k : nat) :
  (forall b, In b l -> length (f b) = k) ->
  length (concat (map f l)) = (length l * k)%nat.
Proof.
  induction l as [| b l IH]; intros H; [reflexivity |].
  simpl. rewrite length_app. rewrite (H b) by (left; reflexivity).
  rewrite IH by (intros; apply H; right; assumption). reflexivity.
Qed.

(** A tree subdivided uniformly [d] levels deep has 8^d leaves. *)
Lemma perfect_leaves (d : nat) :
  forall n, perfect d n -> length (leaf_paths n) = (8 ^ d)%nat.
Proof.
  induction d as [| d IH]; intros n Hn.
  - rewrite leaf_paths_leaf by exact Hn. reflexivity.
  - destruct Hn as [Hcc Hch]. rewrite leaf_paths_inner by exact Hcc.
    rewrite (length_concat_same _ _ (8 ^ d)%nat).
    + rewrite present_all; [| intros m Hm; destruct (Hch m Hm) as (ch & ? & _); eauto].
      rewrite Nat.pow_succ_r'. reflexivity.
    + intros [m ch] (j & -> & Hj & Hslot)%in_present. simpl.
      rewrite length_map. apply IH.
      destruct (Hch j Hj) as (ch' & Hslot' & Hp). congruence.
Qed.

(** ** What one pass leaves of an engulfed node *)






Section Peel.
Variable ndebug : bool.
Variable maxdepth : Z.
Variable vol : OCTVolume.t.






End Peel.

Section PeelFacts.
Variable vol : OCTVolume.t.












End PeelFacts.

(** ** One level per call *)




(** ** Which runs stop, and where *)

Section Faults.
Variable ndebug : bool.
Variable maxdepth : Z.
Variable vol : OCTVolume.t.

(** On a consistent tree the pass stops at the assertions of lines 137
    and 148 only; with NDEBUG it does not stop. *)
Lemma diff_negative_faults (fuel : nat) :
  forall (parent : option Octnode) (current : Octnode) (e : fault),
    wf current ->
    (forall p, parent = Some p ->
       wf p /\ 0 <= idx current
       /\ exists x, child p !! Z.to_nat (idx current) = Some (Some x)) ->
    diff_negative ndebug maxdepth vol fuel parent current = Fault e ->
    e = OutOfFuel
    \/ (ndebug = false /\ (e = AssertionFailed 137 \/ e = AssertionFailed 148)).
Proof.
  induction fuel as [| fuel IH]; intros parent current e Hwf Hpar.
  { intros [= <-]. left. reflexivity. }
  assert (Hloop : forall cur0 e0,
             wf cur0 ->
             build_children vol (diff_negative ndebug maxdepth vol fuel) cur0 = Fault e0 ->
             e0 = OutOfFuel
             \/ (ndebug = false
                 /\ (e0 = AssertionFailed 137 \/ e0 = AssertionFailed 148))).
  { intros cur0 e0 Hwf0.
    apply (build_children_wf ndebug maxdepth vol fuel (fun _ => True) (fun _ _ => True)
             (fun r => r = Fault e0 ->
                       e0 = OutOfFuel
                       \/ (ndebug = false
                           /\ (e0 = AssertionFailed 137 \/ e0 = AssertionFailed 148))));
      [exact Hwf0 | exact I | auto | discriminate |].
    intros m cur ch Hm Hwcur _ _ _ Hslot Hidx Hwch _.
    destruct (diff_negative ndebug maxdepth vol fuel (Some cur) ch)
      as [[ch' | x] | e1] eqn:Hcall; [auto | auto |].
    intros [= <-]. apply (IH _ _ _ Hwch) in Hcall; [exact Hcall |].
    intros p [= <-]. rewrite Hidx, Nat2Z.id. split; [exact Hwcur |]. split; [lia | eauto]. }
  rewrite diff_negative_S. cbv zeta. rewrite childcount_evaluate.
  destruct (Z.eqb_spec (childcount current) 0) as [Hleaf | Hinner].
  - destruct (inside (evaluate vol current)).
    + intros [H | (_ & _ & H)]%bind_fault.
      * destruct (assert_cases ndebug 137 (bool_decide (is_Some parent)))
          as [Hok | (Hn & _ & Hf)]; [congruence |].
        right. split; [exact Hn |]. left. congruence.
      * destruct parent as [p |]; [| discriminate].
        destruct (Hpar p eq_refl) as (Hwp & Hidx & x & Hx).
        pose proof Hwp as (Hlen & Hocc & _)%wf_unfold.
        pose proof (lookup_lt_Some _ _ _ Hx) as Hlt. rewrite Hlen in Hlt.
        pose proof (occupied_clear _ _ _ Hx) as Hclear.
        pose proof (occupied_le_length (child p)) as Hle. rewrite Hlen in Hle.
        apply delete_leaf_fault in H as [[Hr _] | [(_ & Hr & _) | (Hn & _ & _ & ->)]].
        -- rewrite idx_evaluate in Hr. lia.
        -- lia.
        -- right. auto.
    + destruct (outside (evaluate vol current)); [discriminate |].
      destruct (depth (evaluate vol current) <? maxdepth); [| discriminate].
      change (childcount (subdivide (evaluate vol current)) =? 8) with true.
      rewrite assert_true. simpl. rewrite build_new_children_subdivide.
      intros [H | (x & _ & H)]%bind_fault; [| discriminate].
      apply (Hloop _ _ (wf_subdivide _) H).
  - intros [H | (x & _ & H)]%bind_fault; [| discriminate].
    apply (Hloop _ _ (wf_evaluate vol _ Hwf) H).
Qed.
End Faults.

(** A call on a consistent tree returns a consistent tree, unless the
    assertion of line 137 or of line 148 fails. *)
Lemma diff_negative_root_returns (ndebug : bool) (t : Octree) (vol : OCTVolume.t) :
  wf (root t) ->
  (exists t', diff_negative_root ndebug t vol = Ok t' /\ wf (root t'))
  \/ (ndebug = false
      /\ (diff_negative_root ndebug t vol = Fault (AssertionFailed 137)
          \/ diff_negative_root ndebug t vol = Fault (AssertionFailed 148))).
Proof.
  intros Hwf. destruct (diff_negative_root ndebug t vol) as [t' | e] eqn:Hroot.
  - left. exists t'. split; [reflexivity |]. eapply diff_negative_root_wf; eassumption.
  - right. unfold diff_negative_root in Hroot.
    apply bind_fault in Hroot as [H | ([r | x] & Hcall & H)].
    + pose proof H as Hf.
      apply diff_negative_faults in Hf; [| exact Hwf | discriminate].
      destruct Hf as [-> | (Hn & [-> | ->])]; [| auto | auto].
      exfalso. revert H. apply diff_negative_fuel. reflexivity.
    + discriminate.
    + apply diff_negative_deleted in Hcall as (p & Hp & _). discriminate.
Qed.

(** ** Uniform subdivision always returns *)

Lemma update_at_valid (line : Z) (f : Octnode -> Octnode) (p : ptr) :
  forall r n, node_at r p = Some n ->
              exists r', update_at line f p r = Ok r'
                         /\ node_at r' p = Some (f n).
Proof.
  induction p as [| m p IH]; intros r n Hn; simpl in *.
  - injection Hn as <-. eauto.
  - destruct (child r !! m) as [[c |] |] eqn:Hm; try discriminate.
    destruct (IH c n Hn) as (c' & -> & Hc'). simpl.
    eexists. split; [reflexivity |]. cbn [child set_child].
    rewrite list_lookup_insert_eq by (eapply lookup_lt_Some, Hm). exact Hc'.
Qed.

Lemma update_at_diverge (line : Z) (f : Octnode -> Octnode) (p : ptr) :
  forall q r r', update_at line f p r = Ok r' -> diverge p q ->
                 node_at r' q = node_at r q.
Proof.
  induction p as [| m p IH]; intros q r r' Hup Hd; [destruct Hd |].
  destruct q as [| k q]; [destruct Hd |]. simpl in Hup.
  destruct (child r !! m) as [[c |] |] eqn:Hm; try discriminate.
  apply bind_ok in Hup as (c' & Hc' & [= <-]).
  rewrite !node_at_cons. cbn [child set_child].
  destruct Hd as [Hne | [<- Hd]].
  - rewrite list_lookup_insert_ne by exact Hne. reflexivity.
  - rewrite list_lookup_insert_eq by (eapply lookup_lt_Some, Hm). rewrite Hm.
    apply (IH q c c' Hc' Hd).
Qed.

Lemma leaves_diverge (r : Octnode) (p q : ptr) (x y : Octnode) :
  reaches r p x -> childcount x = 0 ->
  reaches r q y -> childcount y = 0 ->
  p = q \/ diverge p q.
Proof.
  intros Hp Hx. revert q. induction Hp as [r | r m c p x Hcc Hm Hslot _ IH]; intros q Hq Hy.
  - inversion Hq; subst; [left; reflexivity | contradiction].
  - inversion Hq as [| k c' q' y' _ Hk Hslot' Hq']; subst; [contradiction |].
    destruct (Nat.eq_dec m k) as [<- | Hne]; [| right; left; exact Hne].
    rewrite Hslot in Hslot'. injection Hslot' as <-.
    destruct (IH Hx q' Hq' Hy) as [-> | Hd]; [left; reflexivity |].
    right. right. auto.
Qed.

Lemma subdivide_all (nodelist : list ptr) :
  forall r,
    (forall p, In p nodelist -> is_Some (node_at r p)) ->
    (forall p q, In p nodelist -> In q nodelist -> p = q \/ diverge p q) ->
    exists r',
      foldl (fun acc node => r' ← acc; update_at 70 subdivide node r') (Ok r) nodelist
      = Ok r'.
Proof.
  induction nodelist as [| node nodelist IH]; intros r Hvalid Hdiv; [simpl; eauto |].
  destruct (Hvalid node (or_introl eq_refl)) as [n Hn].
  destruct (update_at_valid 70 subdivide node r n Hn) as (r1 & Hup & Hn1).
  simpl. rewrite Hup. apply IH.
  - intros p Hp.
    destruct (Hdiv node p (or_introl eq_refl) (or_intror Hp)) as [<- | Hd].
    + rewrite Hn1. eauto.
    + rewrite (update_at_diverge _ _ _ _ _ _ Hup Hd). apply Hvalid. right. exact Hp.
  - intros p q Hp Hq. apply Hdiv; right; assumption.
Qed.

Lemma init_round_total (r : Octnode) : exists r', init_round r = Ok r'.
Proof.
  unfold init_round. rewrite get_leaf_nodes_root. apply subdivide_all.
  - intros p (x & Hx & _)%leaf_paths_valid. rewrite Hx. eauto.
  - intros p q (x & Hp & Hx)%in_leaf_paths (y & Hq & Hy)%in_leaf_paths.
    eapply leaves_diverge; eassumption.
Qed.

(** [init] returns on every tree, whatever the number of rounds. *)
Lemma init_total (n : nat) (t : Octree) : exists t', init n t = Ok t'.
Proof.
  unfold init.
  assert (H : forall r, exists r', init_rounds n r = Ok r').
  { induction n as [| n IH]; intros r; simpl; [eauto |].
    destruct (init_round_total r) as (r1 & ->). simpl. apply IH. }
  destruct (H (root t)) as (r' & ->). simpl. eauto.
Qed.

(** ** Cells and bounding boxes *)

Lemma within_spec (a b : Bbox) :
  within a b = true <->
  (px (minpt b) <= px (minpt a) /\ px (maxpt a) <= px (maxpt b)
   /\ py (minpt b) <= py (minpt a) /\ py (maxpt a) <= py (maxpt b)
   /\ pz (minpt b) <= pz (minpt a) /\ pz (maxpt a) <= pz (maxpt b))%Q.
Proof.
  unfold within. rewrite !andb_true_iff, !Qle_bool_iff. tauto.
Qed.

Lemma overlaps_spec (a b : Bbox) :
  overlaps a b = true <->
  (px (minpt b) <= px (maxpt a) /\ px (minpt a) <= px (maxpt b)
   /\ py (minpt b) <= py (maxpt a) /\ py (minpt a) <= py (maxpt b)
   /\ pz (minpt b) <= pz (maxpt a) /\ pz (minpt a) <= pz (maxpt b))%Q.
Proof.
  unfold overlaps. rewrite !andb_true_iff, !Qle_bool_iff. tauto.
Qed.

Lemma within_trans (a b c : Bbox) :
  within a b = true -> within b c = true -> within a c = true.
Proof.
  rewrite !within_spec. intros (? & ? & ? & ? & ? & ?) (? & ? & ? & ? & ? & ?).
  repeat split; eapply Qle_trans; eassumption.
Qed.

Lemma direction_cases (n k : nat) : direction n k = 1%Q \/ direction n k = (-1)%Q.
Proof. unfold direction. destruct (Nat.testbit n k); auto. Qed.

(** An octant lies within its cell. *)
Lemma octant_within (c : Point) (s : Q) (m : nat) :
  (0 <= s)%Q -> within (cube (octant_center c s m) (s / 2)) (cube c s) = true.
Proof.
  intros Hs. apply within_spec. cbn [cube octant_center minpt maxpt px py pz].
  assert (Hh : (s == s / 2 + s / 2)%Q) by field.
  revert Hh. generalize (s / 2)%Q. intros h Hh.
  destruct (direction_cases m 0) as [-> | ->],
           (direction_cases m 1) as [-> | ->],
           (direction_cases m 2) as [-> | ->];
    repeat split; lra.
Qed.

(** Every cell below a root with a non-negative half-width lies within
    the root cell, and has a non-negative half-width. *)
Lemma cell_within_root (p : ptr) :
  forall r x, placed r -> (0 <= scale r)%Q -> node_at r p = Some x ->
              (0 <= scale x)%Q
              /\ within (cube (center x) (scale x)) (cube (center r) (scale r)) = true.
Proof.
  induction p as [| m p IH]; intros r x Hpl Hs Hx.
  - injection Hx as <-. split; [exact Hs |]. apply within_spec.
    repeat split; apply Qle_refl.
  - rewrite node_at_cons in Hx.
    destruct (child r !! m) as [[c |] |] eqn:Hm; [| discriminate | discriminate].
    destruct (placed_child _ _ _ Hpl Hm) as (Hce & Hsc & Hplc).
    assert (Hsc0 : (0 <= scale c)%Q).
    { rewrite Hsc. apply Qle_shift_div_l; [reflexivity |]. rewrite Qmult_0_l. exact Hs. }
    destruct (IH c x Hplc Hsc0 Hx) as [Hsx Hw]. split; [exact Hsx |].
    eapply within_trans; [exact Hw |]. rewrite Hce, Hsc. apply octant_within, Hs.
Qed.

(** A volume whose bounding box contains the root's, and which classifies
    every cell within the root cell as inside, engulfs the tree. *)
Lemma containing_volume_engulfs (vol : OCTVolume.t) (r : Octnode) :
  placed r -> boxed r -> (0 <= scale r)%Q ->
  within (bb r) (OCTVolume.bb vol) = true ->
  (forall c s, (0 <= s)%Q -> within (cube c s) (bb r) = true ->
               inside_flag vol c s = true) ->
  engulfs vol r.
Proof.
  intros Hpl Hbox Hs Hbb Hin p x Hx.
  destruct (cell_within_root p r x Hpl Hs Hx) as [Hsx Hw].
  rewrite <- (Hbox [] r eq_refl) in Hw.
  split; [apply (Hin _ _ Hsx Hw) |].
  rewrite (Hbox p x Hx). pose proof (within_trans _ _ _ Hw Hbb) as Hwv.
  apply overlaps_spec. apply within_spec in Hwv.
  cbn [cube minpt maxpt px py pz] in *.
  destruct Hwv as (? & ? & ? & ? & ? & ?). repeat split; lra.
Qed.

(** In particular a solid box containing the root's bounding box. *)
Lemma box_volume_engulfs (b : Bbox) (r : Octnode) :
  placed r -> boxed r -> (0 <= scale r)%Q -> within (bb r) b = true ->
  engulfs (box_volume b) r.
Proof.
  intros Hpl Hbox Hs Hbb. apply containing_volume_engulfs; try assumption.
  intros c s _ Hw. rewrite inside_flag_box. eapply within_trans; eassumption.
Qed.

(** The half-width of a cell [length p] levels below the root. *)
Lemma scale_at (p : ptr) :
  forall r x, placed r -> node_at r p = Some x ->
              (scale x == scale r / 2 ^ Z.of_nat (length p))%Q.
Proof.
  induction p as [| m p IH]; intros r x Hpl Hx.
  - injection Hx as <-. simpl. field.
  - rewrite node_at_cons in Hx.
    destruct (child r !! m) as [[c |] |] eqn:Hm; [| discriminate | discriminate].
    destruct (placed_child _ _ _ Hpl Hm) as (_ & Hsc & Hplc).
    rewrite (IH c x Hplc Hx), Hsc.
    change (length (m :: p)) with (S (length p)). rewrite Nat2Z.inj_succ.
    unfold Z.succ. rewrite (Qpower_plus 2 _ 1 two_not_zero).
    change (2 ^ 1)%Q with 2%Q.
    assert (Hpos : (0 < 2 ^ Z.of_nat (length p))%Q) by (apply Qpower_0_lt; reflexivity).
    field. intros Heq. rewrite Heq in Hpos. inversion Hpos.
Qed.


(** ** The geometry of reachable trees *)

Lemma boxed_unfold (r : Octnode) :
  boxed r <->
  bb r = cube (center r) (scale r)
  /\ forall m c, child r !! m = Some (Some c) -> boxed c.
Proof.
  split.
  - intros H. split; [apply (H [] r eq_refl) |].
    intros m c Hm p x Hx. apply (H (m :: p)). rewrite node_at_cons, Hm. exact Hx.
  - intros [Hr Hch] p x Hx. destruct p as [| m p].
    + injection Hx as <-. exact Hr.
    + rewrite node_at_cons in Hx.
      destruct (child r !! m) as [[c |] |] eqn:Hm; [| discriminate | discriminate].
      apply (Hch m c Hm p x Hx).
Qed.

Lemma placed_replace_child (n c c' : Octnode) (m : nat) :
  placed n -> child n !! m = Some (Some c) -> same_cell c c' -> placed c' ->
  placed (set_child n (<[m := Some c']> (child n))).
Proof.
  intros Hn Hm (_ & _ & Hs & Hc & _) Hc'. inversion Hn as [n0 Hcell Hrec]; subst.
  constructor; intros j x Hj; cbn [child set_child center scale] in *;
    (destruct (Nat.eq_dec m j) as [<- | Hne];
     [rewrite list_lookup_insert_eq in Hj by (eapply lookup_lt_Some, Hm);
      injection Hj as <-
     |rewrite list_lookup_insert_ne in Hj by exact Hne]).
  - rewrite <- Hs, <- Hc. apply (Hcell m c Hm).
  - apply (Hcell j x Hj).
  - exact Hc'.
  - apply (Hrec j x Hj).
Qed.

Lemma boxed_replace_child (n c' : Octnode) (m : nat) :
  boxed n -> boxed c' -> boxed (set_child n (<[m := Some c']> (child n))).
Proof.
  intros [Hn Hch]%boxed_unfold Hc'. apply boxed_unfold. split; [exact Hn |].
  intros j x Hj. cbn [child set_child] in Hj.
  apply list_lookup_insert_Some in Hj as [(_ & [= <-] & _) | (_ & Hj)];
    [exact Hc' | apply (Hch j x Hj)].
Qed.

Lemma placed_collapsed (vol : OCTVolume.t) (p c : Octnode) :
  placed p -> placed (collapsed vol p c).
Proof.
  intros Hp. inversion Hp as [n0 Hcell Hrec]; subst.
  destruct (same_cell_collapsed vol p c) as (_ & _ & Hs & Hc & _).
  constructor; intros j x Hj; rewrite child_collapsed in Hj;
    apply list_lookup_insert_Some in Hj as [(_ & Habs & _) | (_ & Hj)];
    try discriminate.
  - rewrite <- Hs, <- Hc. apply (Hcell j x Hj).
  - apply (Hrec j x Hj).
Qed.

Lemma boxed_collapsed (vol : OCTVolume.t) (p c : Octnode) :
  boxed p -> boxed (collapsed vol p c).
Proof.
  intros [Hp Hch]%boxed_unfold. apply boxed_unfold.
  destruct (same_cell_collapsed vol p c) as (_ & _ & Hs & Hc & Hb & _).
  split; [rewrite <- Hs, <- Hc, <- Hb; exact Hp |].
  intros j x Hj. rewrite child_collapsed in Hj.
  apply list_lookup_insert_Some in Hj as [(_ & Habs & _) | (_ & Hj)];
    [discriminate | apply (Hch j x Hj)].
Qed.

Lemma boxed_evaluate (vol : OCTVolume.t) (n : Octnode) :
  boxed n -> boxed (evaluate vol n).
Proof.
  intros [Hn Hch]%boxed_unfold. apply boxed_unfold. rewrite evaluate_flags.
  split; [exact Hn | exact Hch].
Qed.

Lemma boxed_subdivide (n : Octnode) :
  bb n = cube (center n) (scale n) -> boxed (subdivide n).
Proof.
  intros Hn. apply boxed_unfold. split; [exact Hn |].
  intros m c (_ & ->)%child_subdivide_inv. apply boxed_unfold.
  split; [reflexivity |]. intros j x Hj. destruct (octant_no_child _ _ _ _ Hj).
Qed.

Section Geometry.
Variable ndebug : bool.
Variable maxdepth : Z.
Variable vol : OCTVolume.t.

(** The pass moves no cell. *)
Lemma diff_negative_geometry (fuel : nat) :
  forall (parent : option Octnode) (current : Octnode) (o : outcome),
    wf current -> placed current -> boxed current ->
    (forall p, parent = Some p ->
       wf p /\ placed p /\ boxed p
       /\ exists x, child p !! Z.to_nat (idx current) = Some (Some x)) ->
    diff_negative ndebug maxdepth vol fuel parent current = Ok o ->
    match o with
    | Kept c' => placed c' /\ boxed c'
    | Deleted p' => placed p' /\ boxed p'
    end.
Proof.
  induction fuel as [| fuel IH]; intros parent current o Hwf Hpl Hbox Hpar;
    [discriminate |].
  assert (Hloop : forall cur0 cur',
             wf cur0 -> placed cur0 -> boxed cur0 ->
             build_children vol (diff_negative ndebug maxdepth vol fuel) cur0 = Ok cur' ->
             placed cur' /\ boxed cur').
  { intros cur0 cur' Hwf0 Hpl0 Hbox0.
    apply (build_children_wf ndebug maxdepth vol fuel
             (fun cur => placed cur /\ boxed cur) (fun _ _ => True)
             (fun r => r = Ok cur' -> placed cur' /\ boxed cur'));
      [exact Hwf0 | auto | auto | intros cur _ _ H [= <-]; exact H |].
    intros m cur ch Hm Hwcur _ [Hplc Hboxc] _ Hslot Hidx Hwch _.
    destruct (placed_child _ _ _ Hplc Hslot) as (_ & _ & Hplch).
    pose proof (proj2 (proj1 (boxed_unfold cur) Hboxc) m ch Hslot) as Hboxch.
    assert (Hpre : forall p, Some cur = Some p ->
              wf p /\ placed p /\ boxed p
              /\ exists x, child p !! Z.to_nat (idx ch) = Some (Some x)).
    { intros p [= <-]. rewrite Hidx, Nat2Z.id. eauto 6. }
    destruct (diff_negative ndebug maxdepth vol fuel (Some cur) ch)
      as [[ch' | x] | e] eqn:Hcall; [| | discriminate].
    - intros _ Hcell. destruct (IH _ _ _ Hwch Hplch Hboxch Hpre Hcall) as [Hp' Hb'].
      split; [eapply placed_replace_child; eassumption
             | apply boxed_replace_child; assumption].
    - intros -> _ _. split; [apply placed_collapsed | apply boxed_collapsed]; assumption. }
  rewrite diff_negative_S. cbv zeta.
  pose proof (placed_evaluate vol _ Hpl) as Hple.
  pose proof (boxed_evaluate vol _ Hbox) as Hboxe.
  destruct (childcount (evaluate vol current) =? 0).
  - destruct (inside (evaluate vol current)).
    + intros (_ & _ & H)%bind_ok. destruct parent as [p |].
      * apply delete_leaf_ok in H as [-> _]. rewrite collapsed_evaluate.
        destruct (Hpar p eq_refl) as (_ & Hpp & Hbp & _).
        split; [apply placed_collapsed | apply boxed_collapsed]; assumption.
      * injection H as <-. auto.
    + destruct (outside (evaluate vol current)); [intros [= <-]; auto |].
      destruct (depth (evaluate vol current) <? maxdepth); [| intros [= <-]; auto].
      intros (_ & _ & (x & Hl & [= <-])%bind_ok)%bind_ok.
      rewrite build_new_children_subdivide in Hl.
      eapply Hloop; [apply wf_subdivide | apply placed_subdivide | | exact Hl].
      apply boxed_subdivide. apply (proj1 (proj1 (boxed_unfold _) Hboxe)).
  - intros (x & Hl & [= <-])%bind_ok.
    eapply Hloop; [apply wf_evaluate, Hwf | exact Hple | exact Hboxe | exact Hl].
Qed.
End Geometry.

Lemma update_at_geometry (line : Z) (p : ptr) :
  forall r r', placed r -> boxed r -> update_at line subdivide p r = Ok r' ->
               placed r' /\ boxed r' /\ same_cell r r'.
Proof.
  induction p as [| m p IH]; intros r r' Hpl Hbox Hup; simpl in Hup.
  - injection Hup as <-. split; [apply placed_subdivide |].
    split; [| repeat split]. apply boxed_subdivide, (proj1 (proj1 (boxed_unfold r) Hbox)).
  - destruct (child r !! m) as [[c |] |] eqn:Hm; try discriminate.
    apply bind_ok in Hup as (c' & Hc' & [= <-]).
    destruct (placed_child _ _ _ Hpl Hm) as (_ & _ & Hplc).
    pose proof (proj2 (proj1 (boxed_unfold r) Hbox) m c Hm) as Hboxc.
    destruct (IH c c' Hplc Hboxc Hc') as (Hp' & Hb' & Hcell).
    split; [eapply placed_replace_child; eassumption |].
    split; [apply boxed_replace_child; assumption | repeat split].
Qed.

Lemma init_round_geometry (r r' : Octnode) :
  placed r -> boxed r -> init_round r = Ok r' -> placed r' /\ boxed r'.
Proof.
  unfold init_round. generalize (get_leaf_nodes r [] []) as nodelist.
  intros nodelist. revert r.
  induction nodelist as [| node nodelist IH]; intros r Hpl Hbox Hround; simpl in Hround.
  - injection Hround as <-. auto.
  - destruct (update_at 70 subdivide node r) as [r1 | e] eqn:Hup.
    + destruct (update_at_geometry _ _ _ _ Hpl Hbox Hup) as (Hp1 & Hb1 & _).
      apply (IH r1 Hp1 Hb1 Hround).
    + rewrite (fold_fault (fun node r' => update_at 70 subdivide node r')) in Hround.
      discriminate.
Qed.

(** In a reachable tree every child occupies the octant of its slot and
    every bounding box is the cube of its cell. *)
Lemma reachable_geometry (ndebug : bool) (t : Octree) :
  reachable ndebug t -> placed (root t) /\ boxed (root t).
Proof.
  induction 1 as [scale0 depth0 centerp | n t t' Ht [Hpl Hbox] Hinit
                  | vol t t' Ht [Hpl Hbox] Hdiff].
  - assert (Hnone : forall m ch,
               child (root (new_Octree scale0 depth0 centerp)) !! m <> Some (Some ch)).
    { intros m ch Hm. cbn [root new_Octree child set_surface new_Octnode] in Hm.
      apply lookup_replicate in Hm as [Hm _]. discriminate. }
    split.
    + constructor; intros m ch Hm; destruct (Hnone m ch Hm).
    + apply boxed_unfold. split; [reflexivity |].
      intros m ch Hm. destruct (Hnone m ch Hm).
  - unfold init in Hinit. apply bind_ok in Hinit as (r & Hr & [= <-]). cbn [root].
    clear Ht. revert Hpl Hbox Hr. generalize (root t) as r0. clear t.
    induction n as [| n IH]; intros r0 Hpl Hbox Hr; simpl in Hr.
    + injection Hr as <-. auto.
    + apply bind_ok in Hr as (r1 & Hround & Hrest).
      destruct (init_round_geometry _ _ Hpl Hbox Hround) as [Hp1 Hb1].
      apply (IH r1 Hp1 Hb1 Hrest).
  - apply diff_negative_root_ok in Hdiff as (r & Hcall & ->). cbn [root].
    apply (diff_negative_geometry _ _ _ _ _ _ _ (reachable_wf _ _ Ht) Hpl Hbox) in Hcall;
      [exact Hcall | discriminate].
Qed.

(** ** Trees built by the constructor and [init] *)

Lemma full_octant (n : Octnode) (m : nat) : full (octant n m).
Proof.
  constructor.
  - intros Hcc. contradiction Hcc. reflexivity.
  - intros j ch Hj. destruct (octant_no_child _ _ _ _ Hj).
Qed.

Lemma full_subdivide (n : Octnode) : full (subdivide n).
Proof.
  constructor.
  - intros _ m Hm Hnone. rewrite child_subdivide in Hnone by exact Hm. discriminate.
  - intros m ch (_ & ->)%child_subdivide_inv. apply full_octant.
Qed.

Lemma full_replace_child (n c' : Octnode) (m : nat) :
  full n -> full c' -> full (set_child n (<[m := Some c']> (child n))).
Proof.
  intros Hn Hc'. inversion Hn as [n0 Hall Hrec]; subst.
  constructor; cbn [child childcount set_child].
  - intros Hcc j Hj Hnone.
    apply list_lookup_insert_Some in Hnone as [(_ & Habs & _) | (_ & Hnone)];
      [discriminate | apply (Hall Hcc j Hj Hnone)].
  - intros j x Hj.
    apply list_lookup_insert_Some in Hj as [(_ & [= <-] & _) | (_ & Hj)];
      [exact Hc' | apply (Hrec j x Hj)].
Qed.

Lemma update_at_full (line : Z) (p : ptr) :
  forall r r', full r -> update_at line subdivide p r = Ok r' -> full r'.
Proof.
  induction p as [| m p IH]; intros r r' Hr Hup; simpl in Hup.
  - injection Hup as <-. apply full_subdivide.
  - destruct (child r !! m) as [[c |] |] eqn:Hm; try discriminate.
    apply bind_ok in Hup as (c' & Hc' & [= <-]).
    apply full_replace_child; [exact Hr |].
    apply (IH c c'); [| exact Hc']. inversion Hr as [n0 _ Hrec]; subst.
    apply (Hrec m c Hm).
Qed.

Lemma init_round_full (r r' : Octnode) : full r -> init_round r = Ok r' -> full r'.
Proof.
  unfold init_round. generalize (get_leaf_nodes r [] []) as nodelist.
  intros nodelist. revert r.
  induction nodelist as [| node nodelist IH]; intros r Hr Hround; simpl in Hround.
  - injection Hround as <-. exact Hr.
  - destruct (update_at 70 subdivide node r) as [r1 | e] eqn:Hup.
    + apply (IH r1 (update_at_full _ _ _ _ Hr Hup) Hround).
    + rewrite (fold_fault (fun node r' => update_at 70 subdivide node r')) in Hround.
      discriminate.
Qed.

(** After the constructor and any number of [init] rounds the tree meets
    the conditions of the collapse law, for every volume. *)
Lemma init_tree_collapsible (vol : OCTVolume.t) (n : nat) (scale0 : Q) (depth0 : Z)
      (centerp : Point) (t : Octree) :
  init n (new_Octree scale0 depth0 centerp) = Ok t ->
  wf (root t) /\ placed (root t) /\ boxed (root t) /\ collapsible vol (root t).
Proof.
  intros Hinit.
  assert (Hreach : reachable false t)
    by (eapply reachable_init; [apply reachable_new | exact Hinit]).
  split; [apply (reachable_wf false), Hreach |].
  destruct (reachable_geometry false t Hreach) as [Hpl Hbox].
  split; [exact Hpl |]. split; [exact Hbox |]. apply full_collapsible.
  unfold init in Hinit. apply bind_ok in Hinit as (r & Hr & [= <-]). cbn [root].
  assert (Hfull : full (root (new_Octree scale0 depth0 centerp))).
  { constructor.
    - intros Hcc. contradiction Hcc. reflexivity.
    - intros m ch Hm. cbn [root new_Octree child set_surface new_Octnode] in Hm.
      apply lookup_replicate in Hm as [Hm _]. discriminate. }
  revert Hfull Hr. generalize (root (new_Octree scale0 depth0 centerp)) as r0.
  clear. induction n as [| n IH]; intros r0 Hfull Hr; simpl in Hr.
  - injection Hr as <-. exact Hfull.
  - apply bind_ok in Hr as (r1 & Hround & Hrest).
    apply (IH r1 (init_round_full _ _ Hfull Hround) Hrest).
Qed.

(** ** Classification by containment *)

(** Every point of a cell lies in one of its octants. *)
Lemma in_some_octant (pt c : Point) (s : Q) :
  in_cube pt c s ->
  exists m, (m < 8)%nat /\ in_cube pt (octant_center c s m) (s / 2).
Proof.
  unfold in_cube. intros (Hx & Hy & Hz).
  assert (Hh : (s == s / 2 + s / 2)%Q) by field.
  destruct (Qlt_le_dec (px pt) (px c)) as [Hbx | Hbx],
           (Qlt_le_dec (py pt) (py c)) as [Hby | Hby],
           (Qlt_le_dec (pz pt) (pz c)) as [Hbz | Hbz];
    [exists 0%nat | exists 4%nat | exists 2%nat | exists 6%nat
     | exists 1%nat | exists 5%nat | exists 3%nat | exists 7%nat];
    (split; [lia |]);
    cbn [octant_center px py pz direction Nat.testbit Nat.odd Nat.even
         Nat.div2 Nat.b2n negb];
    revert Hh; generalize (s / 2)%Q as h; intros h Hh;
    repeat split; lra.
Qed.

(** A volume that classifies as inside exactly the cells all of whose
    points it holds respects the octant partition. *)
Lemma containment_octant_sound (vol : OCTVolume.t) (holds : Point -> Prop) :
  (forall c s, inside_flag vol c s = true <-> forall pt, in_cube pt c s -> holds pt) ->
  octant_sound vol.
Proof.
  intros Hexact c s Hoct. apply Hexact. intros pt Hpt.
  destruct (in_some_octant pt c s Hpt) as (m & Hm & Hin).
  apply (proj1 (Hexact _ _) (Hoct m Hm) pt Hin).
Qed.

(** ** The count of frames does not matter *)

Lemma for_each_more {S : Type} (body1 body2 : nat -> S -> Res S) (ms : list nat) :
  (forall m s r, body1 m s = r -> r <> Fault OutOfFuel -> body2 m s = r) ->
  forall s r, for_each ms body1 s = r -> r <> Fault OutOfFuel ->
              for_each ms body2 s = r.
Proof.
  intros Hbody. induction ms as [| m ms IH]; intros s r Hr Hne; [exact Hr |].
  simpl in *. destruct (body1 m s) as [s' | e] eqn:H1.
  - rewrite (Hbody m s (Ok s') H1) by discriminate. simpl in *. apply IH; assumption.
  - simpl in Hr. subst r. rewrite (Hbody m s (Fault e) H1) by exact Hne. reflexivity.
Qed.

Section Fuel.
Variable ndebug : bool.
Variable maxdepth : Z.
Variable vol : OCTVolume.t.

Lemma build_child_more (call1 call2 : option Octnode -> Octnode -> Res outcome)
      (m : nat) (cur c : Octnode) (r : Res Octnode) :
  (forall p x o, call1 p x = o -> o <> Fault OutOfFuel -> call2 p x = o) ->
  build_child vol call1 m cur c = r -> r <> Fault OutOfFuel ->
  build_child vol call2 m cur c = r.
Proof.
  intros Hcall. unfold build_child.
  destruct (overlaps (OCTVolume.bb vol) (bb c)); [| auto].
  destruct (call1 (Some cur) c) as [o | e] eqn:H1.
  - rewrite (Hcall _ _ _ H1) by discriminate. auto.
  - simpl. intros <- Hne. rewrite (Hcall _ _ _ H1); [reflexivity |].
    intros [= ->]. contradiction.
Qed.

(** A call that ended by itself gives the same result with more frames
    at hand. *)
Lemma diff_negative_more_fuel (fuel : nat) :
  forall (parent : option Octnode) (current : Octnode) (r : Res outcome),
    diff_negative ndebug maxdepth vol fuel parent current = r ->
    r <> Fault OutOfFuel ->
    diff_negative ndebug maxdepth vol (S fuel) parent current = r.
Proof.
  induction fuel as [| fuel IH]; intros parent current r Hr Hne.
  { simpl in Hr. subst r. contradiction. }
  assert (Hkept : forall (loop1 loop2 : Res Octnode),
             (loop1 <> Fault OutOfFuel -> loop2 = loop1) ->
             (cur ← loop1; Ok (Kept cur)) = r ->
             (cur ← loop2; Ok (Kept cur)) = r).
  { intros loop1 loop2 Hloop Hb. rewrite Hloop; [exact Hb |].
    intros ->. apply Hne. rewrite <- Hb. reflexivity. }
  rewrite diff_negative_S in Hr. rewrite diff_negative_S. cbv zeta in *.
  destruct (childcount (evaluate vol current) =? 0).
  - destruct (inside (evaluate vol current)); [exact Hr |].
    destruct (outside (evaluate vol current)); [exact Hr |].
    destruct (depth (evaluate vol current) <? maxdepth); [| exact Hr].
    destruct (assert ndebug 155 (childcount (subdivide (evaluate vol current)) =? 8));
      [| exact Hr].
    simpl in *. revert Hr. apply Hkept. intros Hl.
    unfold build_new_children.
    apply (for_each_more
             (fun m cur =>
                _ ← assert ndebug 157 (bool_decide (is_Some (mjoin (child cur !! m))));
                match child cur !! m with
                | Some (Some c) =>
                    build_child vol (diff_negative ndebug maxdepth vol fuel) m cur c
                | _ => Fault (NullDereference 158)
                end)); [| reflexivity | exact Hl].
    intros m s r0 Hb Hr0.
    destruct (assert ndebug 157 (bool_decide (is_Some (mjoin (child s !! m)))));
      [| exact Hb].
    simpl in *. destruct (child s !! m) as [[c |] |]; [| exact Hb | exact Hb].
    eapply build_child_more; [| exact Hb | exact Hr0]. apply IH.
  - revert Hr. apply Hkept. intros Hl. unfold build_children.
    apply (for_each_more
             (fun m cur =>
                match child cur !! m with
                | Some (Some c) =>
                    build_child vol (diff_negative ndebug maxdepth vol fuel) m cur c
                | _ => Ok cur
                end)); [| reflexivity | exact Hl].
    intros m s r0 Hb Hr0.
    destruct (child s !! m) as [[c |] |]; [| exact Hb | exact Hb].
    eapply build_child_more; [| exact Hb | exact Hr0]. apply IH.
Qed.

(** With [frames] frames or more the result is the same. *)
Lemma diff_negative_enough_fuel (fuel : nat) (parent : option Octnode)
      (current : Octnode) :
  (frames maxdepth current <= fuel)%nat ->
  diff_negative ndebug maxdepth vol fuel parent current
  = diff_negative ndebug maxdepth vol (frames maxdepth current) parent current.
Proof.
  induction 1 as [| fuel Hle IH]; [reflexivity |].
  rewrite <- IH. apply diff_negative_more_fuel; [reflexivity |].
  apply diff_negative_fuel. exact Hle.
Qed.
End Fuel.

(** ** The leaf scale and the cells at the ceiling *)

Lemma Zlog2_53 (m : Z) : 0 < Z.abs m < 2 ^ 53 -> Z.log2 (Z.abs m) <= 52.
Proof.
  intros [Hlo Hhi]. apply Z.log2_lt_pow2 in Hhi; [lia | exact Hlo].
Qed.

(** With a wrapped exponent the power underflows to zero, and the
    quotient of a positive root scale is infinite. *)
Lemma leaf_scale_underflow (t : Octree) :
  2 ^ 31 <= max_depth t <= 2 ^ 32 - 1076 ->
  int_of_unsigned (max_depth t) = max_depth t - 2 ^ 32
  /\ pow2 (int_of_unsigned (max_depth t)) = Zero false
  /\ ((2 ^ (-1074) <= root_scale t)%Q -> leaf_scale t = Infinity false).
Proof.
  intros HD.
  assert (Hint : int_of_unsigned (max_depth t) = max_depth t - 2 ^ 32).
  { unfold int_of_unsigned. destruct (Z.ltb_spec (max_depth t) (2 ^ 31)); [lia | reflexivity]. }
  assert (Hpow : pow2 (int_of_unsigned (max_depth t)) = Zero false)
    by (rewrite Hint; apply pow2_underflow; lia).
  split; [exact Hint |]. split; [exact Hpow |].
  intros Hrs. unfold leaf_scale. rewrite Hpow.
  assert (Hsign : forall q, (2 ^ (-1074) <= q)%Q -> Qnegative q = false).
  { intros q Hq. apply Qnegative_false.
    pose proof (Qpow2_pos (-1074)). lra. }
  destruct (round64_positive _ Hrs) as [(q1 & -> & Hq1) | ->]; cbn [dmul].
  - assert (Hq2 : (2 ^ (-1074) <= 2 * q1)%Q) by (pose proof (Qpow2_pos (-1074)); lra).
    destruct (round64_positive _ Hq2) as [(q2 & -> & Hq2') | ->]; cbn [ddiv signbit].
    + rewrite (Hsign q2 Hq2'). reflexivity.
    + reflexivity.
  - reflexivity.
Qed.

(** C9 (as amended).  For a ceiling between 1 and 1023, and a root
    half-width that is a binary64 value m * 2^e, with |m| < 2^53, neither
    so large that its double overflows nor so small that the quotient
    leaves the grid of the subnormal values, the leaf scale is the root
    half-width divided by 2^(max_depth - 1), that is, twice the root
    half-width divided by 2^max_depth, without any rounding.  This is the
    full width, twice the half-width, of a cell max_depth levels below the
    root. *)
Theorem leaf_scale_formula (t : Octree) (m e : Z) :
  1 <= max_depth t <= 1023 ->
  (root_scale t == inject_Z m * 2 ^ e)%Q -> Z.abs m < 2 ^ 53 ->
  max_depth t - 1075 <= e <= 970 ->
  exists q,
    double_value (leaf_scale t) = Some q
    /\ (q == root_scale t / 2 ^ (max_depth t - 1))%Q
    /\ (q == (2 * root_scale t) / 2 ^ max_depth t)%Q
    /\ forall p x,
         placed (root t) -> scale (root t) = root_scale t ->
         node_at (root t) p = Some x -> Z.of_nat (length p) = max_depth t ->
         (q == 2 * scale x)%Q.
Proof.
  intros HD Hrs Hm He.
  destruct (pow2_exact (max_depth t) ltac:(lia)) as (q3 & Hq3 & Hv3).
  assert (Hval : exists q, double_value (leaf_scale t) = Some q
                           /\ (q == (2 * root_scale t) / 2 ^ max_depth t)%Q).
  { unfold leaf_scale. rewrite int_of_unsigned_small, Hq3 by lia.
    destruct (Z.eq_dec m 0) as [-> | Hm0].
    - assert (H0 : (root_scale t == 0)%Q) by (rewrite Hrs; change (inject_Z 0) with 0%Q; ring).
      rewrite (round64_zero _ H0). cbn.
      exists 0%Q. split; [reflexivity |]. rewrite H0. field. apply Qpow2_nonzero.
    - pose proof (Zlog2_53 m ltac:(lia)) as Hlog.
      destruct (round64_exact (root_scale t) m e Hrs) as (q1 & -> & Hv1); [lia | lia | lia |].
      cbn [dmul].
      destruct (round64_exact (2 * q1) m (e + 1)) as (q2 & -> & Hv2); [| lia | lia | lia |].
      { rewrite Hv1, Hrs, <- Qpow2_mul. change (2 ^ 1)%Q with 2%Q. ring. }
      cbn [ddiv].
      destruct (round64_exact (q2 / q3) m (e + 1 - max_depth t)) as (q4 & -> & Hv4);
        [| lia | lia | lia |].
      { rewrite Hv2, Hv3, Hv1, Hrs. unfold Zminus. rewrite <- !Qpow2_mul, Qpower_opp.
        change (2 ^ 1)%Q with 2%Q. field. apply Qpow2_nonzero. }
      exists q4. split; [reflexivity |]. rewrite Hv4, Hv2, Hv3, Hv1. reflexivity. }
  destruct Hval as (q & Hq & Hv). exists q. split; [exact Hq |].
  split; [| split; [exact Hv |]].
  - rewrite Hv. replace (max_depth t) with (1 + (max_depth t - 1)) at 1 by lia.
    rewrite <- Qpow2_mul. change (2 ^ 1)%Q with 2%Q. field. apply Qpow2_nonzero.
  - intros p x Hpl Hroot Hx Hlen.
    rewrite Hv, (scale_at p _ _ Hpl Hx), Hroot, Hlen. field. apply Qpow2_nonzero.
Qed.

Lemma leaf_scale_formula_witness :
  exists q,
    double_value (leaf_scale (unit_tree 3)) = Some q
    /\ (q == root_scale (unit_tree 3) / 2 ^ (max_depth (unit_tree 3) - 1))%Q
    /\ (q == (2 * root_scale (unit_tree 3)) / 2 ^ max_depth (unit_tree 3))%Q
    /\ forall p x,
         placed (root (unit_tree 3)) ->
         scale (root (unit_tree 3)) = root_scale (unit_tree 3) ->
         node_at (root (unit_tree 3)) p = Some x ->
         Z.of_nat (length p) = max_depth (unit_tree 3) ->
         (q == 2 * scale x)%Q.
Proof.
  apply (leaf_scale_formula (unit_tree 3) 1 0).
  - simpl. lia.
  - reflexivity.
  - reflexivity.
  - simpl. lia.
Defined.

(** At the ceiling 1024 the power overflows and the leaf scale of the
    unit tree is zero, not 2^-1023, which is a binary64 value.  At the
    ceiling 2^31 the conversion to [int] makes the exponent negative, the
    power underflows and the leaf scale is infinite.  With the root
    half-width 2^1023 its double overflows, and the leaf scale is
    infinite at the ceiling 1; with the root half-width 2^-1074, the
    least positive value, the quotient at the ceiling 2 is rounded to
    zero.  And the leaf scale
    is not a half-width of the smallest cells: in the unit tree with
    ceiling 1 the leaves made by the cut have half-width 1/2, the leaf
    scale is 1. *)
Lemma leaf_scale_formula_counterexample :
  (leaf_scale (new_Octree 1 1024 origin) = Zero false
   /\ ~ (0 == 1 / 2 ^ (1024 - 1))%Q
   /\ exists q, round64 (1 / 2 ^ (1024 - 1)) = Finite q /\ (q == 1 / 2 ^ (1024 - 1))%Q)
  /\ leaf_scale (new_Octree 1 (2 ^ 31) origin) = Infinity false
  /\ leaf_scale (new_Octree (2 ^ 1023) 1 origin) = Infinity false
  /\ leaf_scale (new_Octree (2 ^ (-1074)) 2 origin) = Zero false
  /\ (exists x, node_at (root corner_cut_tree) [0%nat] = Some x
                /\ childcount x = 0
                /\ depth x = max_depth corner_cut_tree
                /\ (scale x == 1 / 2)%Q
                /\ exists q, leaf_scale corner_cut_tree = Finite q /\ (q == 1)%Q).
Proof.
  split; [| split; [| split; [| split]]].
  - split; [vm_compute; reflexivity |]. split; [vm_compute; discriminate |].
    eexists. split; [vm_compute; reflexivity | vm_compute; reflexivity].
  - apply (leaf_scale_underflow (new_Octree 1 (2 ^ 31) origin)).
    + simpl. lia.
    + vm_compute. discriminate.
  - vm_compute. reflexivity.
  - vm_compute. reflexivity.
  - eexists. split; [vm_compute; reflexivity |]. repeat split; try reflexivity.
    eexists. split; [vm_compute; reflexivity | reflexivity].
Qed.

(** * Further properties of the code *)

(** ** The traversal of all nodes *)

Lemma all_paths_unfold (n : Octnode) :
  all_paths n
  = [] :: concat (map (fun mc => map (cons (fst mc)) (all_paths (snd mc)))
                      (present (child n) 0 8)).
Proof.
  destruct n as [i d s ce b cc slots ins outs sf]. simpl.
  rewrite for_slots_present. f_equal.
  apply (foldl_app_blocks (fun mc => map (cons (fst mc)) (all_paths (snd mc)))).
Qed.

Lemma get_all_nodes_all_paths (start : Octnode) :
  forall here nodelist,
    get_all_nodes start here nodelist
    = nodelist ++ map (app here) (all_paths start).
Proof.
  induction start as [start IH] using Octnode_ind. intros here nodelist.
  rewrite all_paths_unfold.
  destruct start as [i d s ce b cc slots ins outs sf]. simpl in *.
  rewrite for_slots_present, app_nil_r.
  assert (Hin : forall m c, In (m, c) (present slots 0 8) ->
                            slots !! m = Some (Some c)).
  { intros m c (j & -> & _ & Hj)%in_present. exact Hj. }
  assert (Hloop : forall l acc,
            (forall m c, In (m, c) l -> slots !! m = Some (Some c)) ->
            foldl (fun acc mc => get_all_nodes (snd mc) (here ++ [fst mc]) acc) acc l
            = acc ++ map (app here)
                         (concat (map (fun mc => map (cons (fst mc)) (all_paths (snd mc)))
                                      l))).
  { induction l as [| [m c] l IHl]; intros acc Hl; simpl.
    - symmetry. apply app_nil_r.
    - rewrite IHl by (intros; apply Hl; right; assumption).
      rewrite (IH m c) by (apply Hl; left; reflexivity).
      rewrite map_app, map_map, app_assoc. do 2 f_equal.
      apply map_ext. intros p. rewrite <- app_assoc. reflexivity. }
  rewrite (Hloop _ _ Hin), <- app_assoc. reflexivity.
Qed.

Lemma in_all_paths (n : Octnode) :
  forall p, In p (all_paths n)
            <-> Forall (fun m => (m < 8)%nat) p /\ is_Some (node_at n p).
Proof.
  induction n as [n IH] using Octnode_ind. intros p.
  rewrite all_paths_unfold. simpl. rewrite in_concat. split.
  - intros [<- | (block & Hblock & Hp)]; [split; [constructor | simpl; eauto] |].
    apply in_map_iff in Hblock as ([m c] & <- & Hmc). simpl in Hp.
    apply in_map_iff in Hp as (p' & <- & Hp').
    apply in_present in Hmc as (j & -> & Hj & Hslot). simpl in *.
    apply (IH j c Hslot) in Hp' as [Hall Hsome].
    split; [constructor; assumption |]. rewrite Hslot. exact Hsome.
  - intros [Hall Hsome]. destruct p as [| m p]; [left; reflexivity | right].
    apply Forall_cons in Hall as [Hm Hall]. simpl in Hsome.
    destruct (child n !! m) as [[c |] |] eqn:Hslot;
      [| destruct Hsome; discriminate | destruct Hsome; discriminate].
    exists (map (cons m) (all_paths c)). split.
    + apply in_map_iff. exists (m, c). split; [reflexivity |].
      apply in_present. exists m. auto.
    + apply in_map. apply (IH m c Hslot). auto.
Qed.

Lemma sorted_blocks (paths : Octnode -> list ptr) (l : list (nat * Octnode)) :
  (forall m c, In (m, c) l -> StronglySorted preorder_lt (paths c)) ->
  StronglySorted (fun a b : nat * Octnode => (fst a < fst b)%nat) l ->
  StronglySorted preorder_lt
    (concat (map (fun mc => map (cons (fst mc)) (paths (snd mc))) l)).
Proof.
  induction l as [| [m c] l IHl]; intros Hin Hs; simpl; [constructor |].
  apply StronglySorted_inv in Hs as [Hs Hm].
  apply sorted_app.
  - apply sorted_below, (Hin m c). left. reflexivity.
  - apply IHl; [| exact Hs]. intros m' c' H'. apply (Hin m' c'). right. exact H'.
  - intros x y Hx Hy.
    apply in_map_iff in Hx as (p & <- & _).
    apply in_concat in Hy as (block & Hblock & Hy).
    apply in_map_iff in Hblock as ([m' c'] & <- & Hmc').
    apply in_map_iff in Hy as (q & <- & _).
    rewrite Forall_forall in Hm.
    specialize (Hm (m', c')). simpl in *. left. apply Hm, list_elem_of_In, Hmc'.
Qed.

Lemma all_paths_sorted (n : Octnode) :
  StronglySorted preorder_lt (all_paths n).
Proof.
  induction n as [n IH] using Octnode_ind.
  rewrite all_paths_unfold. constructor.
  - apply sorted_blocks; [| apply present_sorted].
    intros m c (j & -> & _ & Hj)%in_present. apply (IH _ _ Hj).
  - apply Forall_forall. intros q Hq%list_elem_of_In.
    apply in_concat in Hq as (block & Hblock & Hq).
    apply in_map_iff in Hblock as ([m' c'] & <- & _).
    apply in_map_iff in Hq as (q' & <- & _). exact I.
Qed.

(** X1.  [get_all_nodes] appends to [nodelist] the pointer of the start
    node and then the pointers of all the nodes below it, in depth-first
    pre-order: these are exactly the pointers that lead from the start
    node through non-null slots 0..7.  What [nodelist] held stays in
    front.  On the null pointer it appends nothing. *)
Theorem get_all_nodes_preorder (start : Octnode) (here : ptr) (nodelist : list ptr) :
  get_all_nodes_ptr None here nodelist = nodelist
  /\ exists nodes : list ptr,
       get_all_nodes_ptr (Some start) here nodelist = nodelist ++ map (app here) nodes
       /\ hd_error nodes = Some []
       /\ (forall p, In p nodes <->
                     Forall (fun m => (m < 8)%nat) p /\ is_Some (node_at start p))
       /\ StronglySorted preorder_lt nodes.
Proof.
  split; [reflexivity |].
  exists (all_paths start). split; [apply get_all_nodes_all_paths |].
  split; [rewrite all_paths_unfold; reflexivity |].
  split; [apply in_all_paths | apply all_paths_sorted].
Qed.

Lemma wf_leaf_no_child (n : Octnode) :
  wf n -> childcount n = 0 -> present (child n) 0 8 = [].
Proof.
  intros (Hlen & Hocc & _)%wf_unfold Hcc.
  destruct (present (child n) 0 8) as [| [m c] l] eqn:Hp; [reflexivity |].
  assert (Hin : In (m, c) (present (child n) 0 8)) by (rewrite Hp; left; reflexivity).
  apply in_present in Hin as (j & -> & Hj & Hslot).
  rewrite (occupied_none (child n)) in Hslot; [discriminate | lia |].
  apply lookup_lt_Some in Hslot. exact Hslot.
Qed.

Lemma filter_concat {A : Type} (f : A -> bool) (ls : list (list A)) :
  List.filter f (concat ls) = concat (map (List.filter f) ls).
Proof.
  induction ls as [| l ls IH]; [reflexivity |].
  simpl. rewrite List.filter_app, IH. reflexivity.
Qed.

Lemma filter_map_swap {A B : Type} (f : B -> bool) (g : A -> B) (l : list A) :
  List.filter f (map g l) = map g (List.filter (fun a => f (g a)) l).
Proof.
  induction l as [| a l IH]; [reflexivity |].
  simpl. rewrite IH. destruct (f (g a)); reflexivity.
Qed.

Lemma leaf_paths_filter (n : Octnode) :
  wf n -> leaf_paths n = List.filter (leaf_at n) (all_paths n).
Proof.
  induction n as [n IH] using Octnode_ind. intros Hwf.
  rewrite all_paths_unfold.
  destruct (Z.eq_dec (childcount n) 0) as [Hleaf | Hinner].
  - rewrite (leaf_paths_leaf _ Hleaf), (wf_leaf_no_child _ Hwf Hleaf). simpl.
    unfold leaf_at. simpl. rewrite Hleaf. reflexivity.
  - rewrite (leaf_paths_inner _ Hinner). simpl.
    unfold leaf_at at 1. simpl.
    destruct (Z.eqb_spec (childcount n) 0) as [| _]; [contradiction |].
    rewrite filter_concat, map_map. f_equal.
    apply map_ext_in. intros [m c] (j & -> & _ & Hslot)%in_present. simpl in *.
    rewrite filter_map_swap.
    rewrite (IH j c Hslot) by (eapply wf_child; eassumption).
    f_equal. apply List.filter_ext. intros p. unfold leaf_at. simpl.
    rewrite Hslot. reflexivity.
Qed.

(** X2.  In a consistent tree the two traversals agree: the list of
    [get_leaf_nodes] is the list of [get_all_nodes] with the nodes that
    have children left out, in the same order. *)
Theorem leaves_among_all_nodes (start : Octnode) :
  wf start ->
  get_leaf_nodes start [] []
  = List.filter (leaf_at start) (get_all_nodes start [] []).
Proof.
  intros Hwf. rewrite get_leaf_nodes_root, get_all_nodes_all_paths. simpl.
  rewrite map_id. apply leaf_paths_filter, Hwf.
Qed.

Lemma leaves_among_all_nodes_witness :
  get_leaf_nodes (root (uniform_tree 3 1)) [] []
  = List.filter (leaf_at (root (uniform_tree 3 1)))
                (get_all_nodes (root (uniform_tree 3 1)) [] []).
Proof. apply (leaves_among_all_nodes (root (uniform_tree 3 1))). reflexivity. Defined.

(** ** Surface extraction *)

Lemma leaves_leaf (n : Octnode) : childcount n = 0 -> leaves n = [n].
Proof. intros H. destruct n. simpl in *. subst. reflexivity. Qed.

Lemma leaves_inner (n : Octnode) :
  childcount n <> 0 ->
  leaves n = concat (map (fun mc => leaves (snd mc)) (present (child n) 0 8)).
Proof.
  intros H. destruct n as [i d s ce b cc slots ins outs sf]. simpl in *.
  destruct (Z.eqb_spec cc 0); [contradiction |].
  rewrite for_slots_present.
  apply (foldl_app_blocks (fun mc : nat * Octnode => leaves (snd mc))).
Qed.

(** The leaf pointers designate the leaves, in the same order. *)
Lemma leaf_paths_leaves (n : Octnode) :
  map (node_at n) (leaf_paths n) = map Some (leaves n).
Proof.
  induction n as [n IH] using Octnode_ind.
  destruct (Z.eq_dec (childcount n) 0) as [Hleaf | Hinner].
  - rewrite (leaf_paths_leaf _ Hleaf), (leaves_leaf _ Hleaf). reflexivity.
  - rewrite (leaf_paths_inner _ Hinner), (leaves_inner _ Hinner).
    rewrite !concat_map, !map_map. f_equal.
    apply map_ext_in. intros [m c] (j & -> & _ & Hslot)%in_present. simpl in *.
    rewrite map_map, <- (IH j c Hslot). apply map_ext. intros p.
    rewrite node_at_cons, Hslot. reflexivity.
Qed.

Section Gather.
Variable Triangle : Type.
Variable tris_of : Octnode -> list Triangle.
Variable line : Z.

Lemma push_back_all_app (tris triangles : list Triangle) :
  push_back_all Triangle tris triangles = triangles ++ tris.
Proof.
  unfold push_back_all. revert triangles.
  induction tris as [| t tris IH]; intros triangles; simpl.
  - symmetry. apply app_nil_r.
  - rewrite IH, <- app_assoc. reflexivity.
Qed.

Lemma gather_leaves (r : Octnode) (paths : list ptr) (nodes : list Octnode) :
  map (node_at r) paths = map Some nodes ->
  forall acc,
    foldl (fun acc n =>
             triangles ← acc;
             match node_at r n with
             | None => Fault (NullDereference line)
             | Some nd => Ok (push_back_all Triangle (tris_of nd) triangles)
             end) (Ok acc) paths
    = Ok (acc ++ concat (map tris_of nodes)).
Proof.
  revert nodes. induction paths as [| p paths IH]; intros nodes Hmap acc.
  - destruct nodes; [| discriminate]. simpl. rewrite app_nil_r. reflexivity.
  - destruct nodes as [| nd nodes]; [discriminate |]. simpl in Hmap.
    injection Hmap as Hp Hrest. simpl. rewrite Hp, push_back_all_app.
    rewrite (IH nodes Hrest), <- app_assoc. reflexivity.
Qed.
End Gather.

(** X3.  [mc] and [side_triangles] always return: no leaf pointer is
    null.  Each returns the triangles of the leaves, leaf after leaf in
    the order of [get_leaf_nodes], each leaf's triangles in the order its
    triangulation gave them; nodes that have children contribute
    nothing. *)
Theorem surface_of_leaves (Triangle : Type)
        (node_mc_triangles node_side_triangles : Octnode -> list Triangle)
        (t : Octree) :
  mc Triangle node_mc_triangles t
  = Ok (concat (map node_mc_triangles (leaves (root t))))
  /\ side_triangles Triangle node_side_triangles t
     = Ok (concat (map node_side_triangles (leaves (root t))))
  /\ map (node_at (root t)) (get_leaf_nodes (root t) [] [])
     = map Some (leaves (root t)).
Proof.
  pose proof (leaf_paths_leaves (root t)) as Hl.
  unfold mc, side_triangles. rewrite get_leaf_nodes_root.
  split; [apply (gather_leaves Triangle node_mc_triangles 105 _ _ _ Hl []) |].
  split; [apply (gather_leaves Triangle node_side_triangles 120 _ _ _ Hl []) | exact Hl].
Qed.

(** ** Uniform subdivision, round by round *)

Lemma update_at_same_cell (line : Z) (p : ptr) :
  forall r r', update_at line subdivide p r = Ok r' -> same_cell r r'.
Proof.
  destruct p as [| m p]; intros r r' Hup; simpl in Hup.
  - injection Hup as <-. repeat split.
  - destruct (child r !! m) as [[c |] |]; try discriminate.
    apply bind_ok in Hup as (c' & _ & [= <-]). repeat split.
Qed.

Lemma init_round_same_cell (r r' : Octnode) : init_round r = Ok r' -> same_cell r r'.
Proof.
  unfold init_round. generalize (get_leaf_nodes r [] []) as nodelist.
  intros nodelist. revert r.
  induction nodelist as [| node nodelist IH]; intros r Hround; simpl in Hround.
  - injection Hround as <-. apply same_cell_refl.
  - destruct (update_at 70 subdivide node r) as [r1 | e] eqn:Hup.
    + eapply same_cell_trans; [eapply update_at_same_cell, Hup | apply IH, Hround].
    + rewrite (fold_fault (fun node r' => update_at 70 subdivide node r')) in Hround.
      discriminate.
Qed.

Lemma init_rounds_same_cell (n : nat) :
  forall r r', init_rounds n r = Ok r' -> same_cell r r'.
Proof.
  induction n as [| n IH]; intros r r' Hinit; simpl in Hinit.
  - injection Hinit as <-. apply same_cell_refl.
  - apply bind_ok in Hinit as (r1 & Hround & Hrest).
    eapply same_cell_trans; [eapply init_round_same_cell, Hround | apply IH, Hrest].
Qed.

Lemma refine_leaf (n : Octnode) : childcount n = 0 -> refine n = subdivide n.
Proof. intros H. destruct n. simpl in *. subst. reflexivity. Qed.

Lemma refine_inner (n : Octnode) :
  childcount n <> 0 -> refine n = set_child n (map (option_map refine) (child n)).
Proof.
  intros H. destruct n as [i d s ce b cc slots ins outs sf]. simpl in *.
  destruct (Z.eqb_spec cc 0); [contradiction | reflexivity].
Qed.

Lemma set_child_id (r : Octnode) : set_child r (child r) = r.
Proof. destruct r. reflexivity. Qed.

(** Updates below the child in slot [m] are updates of that child. *)
Lemma updates_below (f : Octnode -> Octnode) (line : Z) (m : nat) (ps : list ptr) :
  forall r c,
    child r !! m = Some (Some c) ->
    foldl (fun acc node => r' ← acc; update_at line f node r') (Ok r) (map (cons m) ps)
    = (c' ← foldl (fun acc node => r' ← acc; update_at line f node r') (Ok c) ps;
       Ok (set_child r (<[m := Some c']> (child r)))).
Proof.
  induction ps as [| p ps IH]; intros r c Hm; simpl.
  - rewrite list_insert_id by exact Hm. rewrite set_child_id. reflexivity.
  - rewrite Hm. destruct (update_at line f p c) as [c1 | e]; simpl.
    + rewrite (IH _ c1).
      * destruct (foldl _ (Ok c1) ps) as [c' | e]; [| reflexivity]. simpl.
        cbn [child set_child]. rewrite list_insert_insert_eq. reflexivity.
      * cbn [child set_child]. apply list_lookup_insert_eq. eapply lookup_lt_Some, Hm.
    + rewrite !(fold_fault (fun node r' => update_at line f node r')). reflexivity.
Qed.

(** The children met by the slot loop, updated one after the other. *)
Lemma updates_children (f : Octnode -> Octnode) (line : Z) (g : Octnode -> Octnode)
      (paths : Octnode -> list ptr) (l : list (nat * Octnode)) :
  forall r,
    NoDup (map fst l) ->
    (forall m c, In (m, c) l ->
       child r !! m = Some (Some c)
       /\ foldl (fun acc node => r' ← acc; update_at line f node r') (Ok c) (paths c)
          = Ok (g c)) ->
    foldl (fun acc node => r' ← acc; update_at line f node r') (Ok r)
          (concat (map (fun mc => map (cons (fst mc)) (paths (snd mc))) l))
    = Ok (set_child r (foldl (fun cs mc => <[fst mc := Some (g (snd mc))]> cs)
                             (child r) l)).
Proof.
  induction l as [| [m c] l IH]; intros r Hnd Hl; simpl.
  - rewrite set_child_id. reflexivity.
  - apply NoDup_cons in Hnd as [Hm Hnd].
    destruct (Hl m c (or_introl eq_refl)) as [Hslot Hc].
    rewrite foldl_app, (updates_below f line m (paths c) r c Hslot), Hc. simpl.
    rewrite IH; [reflexivity | exact Hnd |].
    intros m' c' Hin. destruct (Hl m' c' (or_intror Hin)) as [Hslot' Hc'].
    split; [| exact Hc']. cbn [child set_child].
    rewrite list_lookup_insert_ne; [exact Hslot' |].
    intros <-. apply Hm. apply list_elem_of_In, in_map_iff. exists (m, c'). auto.
Qed.

Lemma inserts_present (g : Octnode -> Octnode) (slots : list (option Octnode)) :
  forall pre k,
    (length slots <= k)%nat ->
    foldl (fun cs mc => <[fst mc := Some (g (snd mc))]> cs) (pre ++ slots)
          (present slots (length pre) k)
    = pre ++ map (option_map g) slots.
Proof.
  induction slots as [| slot slots IH]; intros pre k Hk.
  - destruct k; reflexivity.
  - destruct k as [| k]; simpl in Hk; [lia |]. simpl.
    specialize (IH (pre ++ [option_map g slot]) k ltac:(lia)).
    rewrite length_app, Nat.add_1_r, <- !app_assoc in IH. simpl in IH.
    destruct slot as [c |]; simpl in *; [| exact IH].
    rewrite insert_app_r_alt, Nat.sub_diag by lia. simpl. exact IH.
Qed.

Lemma present_NoDup (slots : list (option Octnode)) (n k : nat) :
  NoDup (map fst (present slots n k)).
Proof.
  pose proof (present_sorted slots n k) as Hs.
  induction Hs as [| a l _ IH Ha]; simpl; constructor; [| exact IH].
  intros Hin%list_elem_of_In. apply in_map_iff in Hin as (b & Hb & Hin).
  rewrite Forall_forall in Ha. specialize (Ha b (proj2 (list_elem_of_In _ _) Hin)). lia.
Qed.

(** One round of [init] subdivides every leaf once and nothing else: the
    children made in a round are not subdivided in that round. *)
Lemma init_round_refine (r : Octnode) : wf r -> init_round r = Ok (refine r).
Proof.
  unfold init_round. rewrite get_leaf_nodes_root.
  induction r as [r IH] using Octnode_ind. intros Hwf.
  destruct (Z.eq_dec (childcount r) 0) as [Hleaf | Hinner].
  - rewrite (leaf_paths_leaf _ Hleaf), (refine_leaf _ Hleaf). reflexivity.
  - rewrite (leaf_paths_inner _ Hinner), (refine_inner _ Hinner).
    rewrite (updates_children subdivide 70 refine leaf_paths).
    + pose proof Hwf as (Hlen & _)%wf_unfold.
      pose proof (inserts_present refine (child r) [] 8 ltac:(lia)) as Hins.
      simpl in Hins. rewrite Hins. reflexivity.
    + apply present_NoDup.
    + intros m c (j & -> & _ & Hslot)%in_present. simpl. split; [exact Hslot |].
      apply (IH j c Hslot). eapply wf_child; eassumption.
Qed.

Lemma present_map (g : Octnode -> Octnode) (slots : list (option Octnode)) :
  forall n k,
    present (map (option_map g) slots) n k
    = map (fun mc => (fst mc, g (snd mc))) (present slots n k).
Proof.
  induction slots as [| slot slots IH]; intros n k.
  - destruct k; reflexivity.
  - destruct k as [| k]; [reflexivity |]. simpl. rewrite IH.
    destruct slot; reflexivity.
Qed.

Lemma leaf_paths_subdivide (n : Octnode) :
  leaf_paths (subdivide n) = map (fun m => [m]) (seq 0 8).
Proof. reflexivity. Qed.

Lemma length_concat_times {A B : Type} (f g : B -> list A) (l : list B) (k : nat) :
  (forall b, In b l -> length (g b) = (k * length (f b))%nat) ->
  length (concat (map g l)) = (k * length (concat (map f l)))%nat.
Proof.
  induction l as [| b l IH]; intros H; simpl; [lia |].
  rewrite !length_app, IH by (intros; apply H; right; assumption).
  rewrite (H b) by (left; reflexivity). lia.
Qed.

(** A round multiplies the number of leaves by eight. *)
Lemma leaf_paths_refine (n : Octnode) :
  length (leaf_paths (refine n)) = (8 * length (leaf_paths n))%nat.
Proof.
  induction n as [n IH] using Octnode_ind.
  destruct (Z.eq_dec (childcount n) 0) as [Hleaf | Hinner].
  - rewrite (refine_leaf _ Hleaf), leaf_paths_subdivide, (leaf_paths_leaf _ Hleaf).
    reflexivity.
  - rewrite (refine_inner _ Hinner).
    rewrite (leaf_paths_inner (set_child _ _)) by exact Hinner.
    rewrite (leaf_paths_inner n) by exact Hinner.
    cbn [child set_child]. rewrite present_map, map_map.
    apply length_concat_times.
    intros [m c] (j & -> & _ & Hslot)%in_present. simpl.
    rewrite !length_map. apply (IH j c Hslot).
Qed.

Lemma wf_refine (r : Octnode) : wf r -> wf (refine r).
Proof.
  intros Hwf. apply (init_round_wf r (refine r) Hwf), init_round_refine, Hwf.
Qed.

Lemma init_rounds_refine (n : nat) :
  forall r, wf r -> init_rounds n r = Ok (Nat.iter n refine r).
Proof.
  induction n as [| n IH]; intros r Hwf; [reflexivity |].
  simpl. rewrite (init_round_refine r Hwf). simpl.
  rewrite (IH _ (wf_refine r Hwf)). f_equal.
  clear. induction n as [| n IHn]; [reflexivity |]. simpl. rewrite IHn. reflexivity.
Qed.

Lemma init_refine (n : nat) (t : Octree) :
  wf (root t) ->
  init n t = Ok (mkOctree (Nat.iter n refine (root t)) (root_scale t) (max_depth t)).
Proof.
  intros Hwf. unfold init. rewrite (init_rounds_refine n _ Hwf). reflexivity.
Qed.

(** X4.  On a consistent tree [init(n)] returns, and it is [n] rounds of
    the structural refinement: a round subdivides every leaf it finds,
    once, and leaves every node that has children as it is; the children
    made in a round are subdivided in the next round only.  The ceiling
    [max_depth] plays no part. *)
Theorem init_refines (n : nat) (t : Octree) :
  wf (root t) ->
  init n t = Ok (mkOctree (Nat.iter n refine (root t)) (root_scale t) (max_depth t))
  /\ (forall r, childcount r = 0 -> refine r = subdivide r)
  /\ (forall r, childcount r <> 0 ->
        refine r = set_child r (map (option_map refine) (child r))).
Proof.
  intros Hwf. split; [apply init_refine, Hwf |].
  split; [apply refine_leaf | apply refine_inner].
Qed.

Lemma init_refines_witness :
  init 1 (unit_tree 3) = Ok (mkOctree (subdivide (root (unit_tree 3))) 1 3).
Proof. apply (init_refines 1 (unit_tree 3)). reflexivity. Defined.

(** X5.  Every round of [init] multiplies the number of leaves by eight:
    after [init(n)] on a consistent tree [get_leaf_nodes] returns 8^n
    times as many leaves as before. *)
Theorem init_multiplies_leaves (n : nat) (t t' : Octree) :
  wf (root t) ->
  init n t = Ok t' ->
  length (get_leaf_nodes (root t') [] [])
  = (8 ^ n * length (get_leaf_nodes (root t) [] []))%nat.
Proof.
  intros Hwf Hinit. rewrite (init_refine n t Hwf) in Hinit. injection Hinit as <-.
  cbn [root]. rewrite !get_leaf_nodes_root.
  induction n as [| n IH]; [simpl; lia |].
  change (Nat.iter (S n) refine (root t)) with (refine (Nat.iter n refine (root t))).
  rewrite leaf_paths_refine, IH, Nat.pow_succ_r'. lia.
Qed.

Lemma init_multiplies_leaves_witness :
  length (get_leaf_nodes (root (uniform_tree 3 2)) [] [])
  = (8 ^ 2 * length (get_leaf_nodes (root (unit_tree 3)) [] []))%nat.
Proof.
  apply (init_multiplies_leaves 2 (unit_tree 3) (uniform_tree 3 2));
    [reflexivity | vm_compute; reflexivity].
Defined.

Lemma perfect_refine (d : nat) :
  forall n, perfect d n -> perfect (S d) (refine n).
Proof.
  induction d as [| d IH]; intros n Hn.
  - simpl in Hn. rewrite (refine_leaf _ Hn). split; [discriminate |].
    intros m Hm. exists (octant n m). split; [apply child_subdivide, Hm | reflexivity].
  - destruct Hn as [Hcc Hch]. rewrite (refine_inner _ Hcc).
    split; [exact Hcc |]. intros m Hm. destruct (Hch m Hm) as (ch & Hslot & Hp).
    exists (refine ch). cbn [child set_child].
    rewrite list_lookup_fmap, Hslot. split; [reflexivity | apply IH, Hp].
Qed.

Lemma perfect_iter (n : nat) (r : Octnode) :
  childcount r = 0 -> perfect n (Nat.iter n refine r).
Proof.
  intros Hr. induction n as [| n IH]; [exact Hr |]. simpl. apply perfect_refine, IH.
Qed.

Lemma perfect_paths (d : nat) :
  forall n p, perfect d n -> In p (leaf_paths n) -> length p = d.
Proof.
  induction d as [| d IH]; intros n p Hn Hp.
  - rewrite leaf_paths_leaf in Hp by exact Hn. destruct Hp as [<- | []]. reflexivity.
  - destruct Hn as [Hcc Hch]. rewrite leaf_paths_inner in Hp by exact Hcc.
    apply in_concat in Hp as (block & Hblock & Hp).
    apply in_map_iff in Hblock as ([m c] & <- & (j & -> & Hj & Hslot)%in_present).
    simpl in Hp. apply in_map_iff in Hp as (p' & <- & Hp'). simpl. f_equal.
    apply (IH c p'); [| exact Hp'].
    destruct (Hch j Hj) as (ch & Hslot' & Hperf). congruence.
Qed.

Lemma leveled_child (r c : Octnode) (m : nat) :
  leveled r -> child r !! m = Some (Some c) -> depth c = depth r + 1 /\ leveled c.
Proof.
  intros Hr Hm.
  assert (Hc : depth c = depth r + 1).
  { rewrite (Hr [m] c); [simpl; lia |]. simpl. rewrite Hm. reflexivity. }
  split; [exact Hc |]. intros p x Hx.
  rewrite (Hr (m :: p) x); [simpl length; lia |]. simpl. rewrite Hm. exact Hx.
Qed.

Lemma depth_refine (n : Octnode) : depth (refine n) = depth n.
Proof.
  destruct (Z.eq_dec (childcount n) 0) as [Hleaf | Hinner].
  - rewrite (refine_leaf _ Hleaf). reflexivity.
  - rewrite (refine_inner _ Hinner). reflexivity.
Qed.

Lemma scale_refine (n : Octnode) : scale (refine n) = scale n.
Proof.
  destruct (Z.eq_dec (childcount n) 0) as [Hleaf | Hinner].
  - rewrite (refine_leaf _ Hleaf). reflexivity.
  - rewrite (refine_inner _ Hinner). reflexivity.
Qed.

Lemma leveled_refine (p : ptr) :
  forall r x, leveled r -> node_at (refine r) p = Some x ->
              depth x = depth r + Z.of_nat (length p).
Proof.
  induction p as [| m p IH]; intros r x Hr Hx.
  - injection Hx as <-. rewrite depth_refine. simpl. lia.
  - rewrite node_at_cons in Hx.
    destruct (Z.eq_dec (childcount r) 0) as [Hleaf | Hinner].
    + rewrite (refine_leaf _ Hleaf) in Hx.
      destruct (child (subdivide r) !! m) as [[c |] |] eqn:Hm; try discriminate.
      apply child_subdivide_inv in Hm as [_ ->].
      destruct p as [| k p].
      * injection Hx as <-. simpl. lia.
      * rewrite node_at_cons in Hx.
        destruct (child (octant r m) !! k) as [[c |] |] eqn:Hk; try discriminate.
        destruct (octant_no_child _ _ _ _ Hk).
    + rewrite (refine_inner _ Hinner) in Hx. cbn [child set_child] in Hx.
      rewrite list_lookup_fmap in Hx.
      destruct (child r !! m) as [[c |] |] eqn:Hm; try discriminate.
      simpl in Hx. destruct (leveled_child r c m Hr Hm) as [Hc Hlc].
      rewrite (IH c x Hlc Hx), Hc. simpl length. lia.
Qed.

Lemma iter_refine_root (n : nat) (r : Octnode) :
  leveled r ->
  leveled (Nat.iter n refine r)
  /\ depth (Nat.iter n refine r) = depth r
  /\ scale (Nat.iter n refine r) = scale r.
Proof.
  intros Hr. induction n as [| n (Hl & Hd & Hs)]; [auto |]. simpl.
  split; [| rewrite depth_refine, scale_refine; auto].
  intros p x Hx. rewrite depth_refine. apply leveled_refine; assumption.
Qed.

(** The tree that [init(n)] makes of a freshly constructed tree. *)
Lemma init_fresh (n : nat) (scale0 : Q) (depth0 : Z) (centerp : Point) :
  exists t',
    init n (new_Octree scale0 depth0 centerp) = Ok t'
    /\ max_depth t' = depth0
    /\ perfect n (root t')
    /\ forall p, In p (get_leaf_nodes (root t') [] []) ->
         length p = n
         /\ exists x, node_at (root t') p = Some x
                      /\ childcount x = 0
                      /\ depth x = Z.of_nat n
                      /\ (scale x == scale0 / 2 ^ Z.of_nat n)%Q.
Proof.
  set (t := new_Octree scale0 depth0 centerp).
  assert (Hwf : wf (root t)) by reflexivity.
  assert (Hleaf : childcount (root t) = 0) by reflexivity.
  assert (Hlev : leveled (root t)).
  { intros [| m p] x Hx; [injection Hx as <-; reflexivity |].
    rewrite node_at_cons in Hx. cbn [t root new_Octree child set_surface new_Octnode] in Hx.
    destruct (replicate 8 None !! m) as [[c |] |] eqn:Hm; try discriminate.
    apply lookup_replicate in Hm as [Hm _]. discriminate. }
  pose proof (init_refine n t Hwf) as Hinit.
  exists (mkOctree (Nat.iter n refine (root t)) (root_scale t) (max_depth t)).
  split; [exact Hinit |]. split; [reflexivity |]. cbn [root].
  pose proof (perfect_iter n (root t) Hleaf) as Hperf.
  split; [exact Hperf |]. rewrite get_leaf_nodes_root.
  intros p Hp. pose proof (perfect_paths n _ p Hperf Hp) as Hlen.
  split; [exact Hlen |].
  destruct (leaf_paths_valid _ _ Hp) as (x & Hx & Hcc).
  exists x. split; [exact Hx |]. split; [exact Hcc |].
  destruct (iter_refine_root n (root t) Hlev) as (Hl & Hd & Hs).
  split; [rewrite (Hl p x Hx), Hd, Hlen; reflexivity |].
  assert (Hreach : reachable false
            (mkOctree (Nat.iter n refine (root t)) (root_scale t) (max_depth t))).
  { eapply reachable_init; [apply reachable_new | exact Hinit]. }
  apply reachable_geometry in Hreach as [Hpl _]. cbn [root] in Hpl.
  rewrite (scale_at p _ x Hpl Hx), Hs, Hlen. reflexivity.
Qed.

(** X6.  [init(n)] on a freshly constructed tree returns the tree
    subdivided uniformly [n] levels deep, whatever the ceiling
    [max_depth] is: it has 8^n leaves, each of them [n] slots below the
    root, at depth [n], with half-width scale / 2^n. *)
Theorem init_fresh_uniform (n : nat) (scale0 : Q) (depth0 : Z) (centerp : Point) :
  exists t',
    init n (new_Octree scale0 depth0 centerp) = Ok t'
    /\ perfect n (root t')
    /\ length (get_leaf_nodes (root t') [] []) = (8 ^ n)%nat
    /\ forall p, In p (get_leaf_nodes (root t') [] []) ->
         length p = n
         /\ exists x, node_at (root t') p = Some x
                      /\ childcount x = 0
                      /\ depth x = Z.of_nat n
                      /\ (scale x == scale0 / 2 ^ Z.of_nat n)%Q.
Proof.
  destruct (init_fresh n scale0 depth0 centerp) as (t' & Hinit & _ & Hperf & Hleaves).
  exists t'. split; [exact Hinit |]. split; [exact Hperf |].
  split; [| exact Hleaves]. rewrite get_leaf_nodes_root. apply perfect_leaves, Hperf.
Qed.

Lemma length_blocks {A B : Type} (f : B -> list A) (l : list B) (M : nat) :
  (forall b, In b l -> (7 * length (f b) + 1 = M)%nat) ->
  (7 * length (concat (map f l)) + length l = length l * M)%nat.
Proof.
  induction l as [| b l IH]; intros H; [reflexivity |].
  simpl. rewrite length_app.
  specialize (IH (fun b' Hb' => H b' (or_intror Hb'))).
  pose proof (H b (or_introl eq_refl)). lia.
Qed.

Lemma perfect_all_paths (d : nat) :
  forall r, wf r -> perfect d r ->
            (7 * length (all_paths r) + 1 = 8 ^ S d)%nat.
Proof.
  induction d as [| d IH]; intros r Hwf Hr; rewrite all_paths_unfold.
  - simpl in Hr. rewrite (wf_leaf_no_child _ Hwf Hr). reflexivity.
  - destruct Hr as [Hcc Hch]. cbn [length].
    pose proof (length_blocks
                  (fun mc : nat * Octnode => map (cons (fst mc)) (all_paths (snd mc)))
                  (present (child r) 0 8) (8 ^ S d)%nat) as Hlen.
    rewrite present_all in Hlen
      by (intros m Hm; destruct (Hch m Hm) as (ch & ? & _); eauto).
    rewrite (Nat.pow_succ_r' 8 (S d)).
    assert (Hblocks : forall b, In b (present (child r) 0 8) ->
              (7 * length (map (cons (fst b)) (all_paths (snd b))) + 1 = 8 ^ S d)%nat).
    { intros [m c] (j & -> & Hj & Hslot)%in_present. simpl. rewrite length_map.
      apply IH; [eapply wf_child; eassumption |].
      destruct (Hch j Hj) as (ch & Hslot' & Hp). congruence. }
    assert (Harith : forall L M : nat,
               (7 * L + 8 = 8 * M -> 7 * S L + 1 = 8 * M)%nat) by lia.
    apply Harith, Hlen, Hblocks.
Qed.

(** X7.  After [init(n)] on a freshly constructed tree [get_all_nodes]
    returns the nodes of all levels 0 .. n, 1 + 8 + ... + 8^n of them:
    seven times their number plus one is 8^(n+1), and is eight times the
    number of leaves that [get_leaf_nodes] returns. *)
Theorem init_fresh_node_count (n : nat) (scale0 : Q) (depth0 : Z) (centerp : Point) :
  exists t',
    init n (new_Octree scale0 depth0 centerp) = Ok t'
    /\ (7 * length (get_all_nodes (root t') [] []) + 1 = 8 ^ S n)%nat
    /\ (7 * length (get_all_nodes (root t') [] []) + 1
        = 8 * length (get_leaf_nodes (root t') [] []))%nat.
Proof.
  destruct (init_fresh n scale0 depth0 centerp) as (t' & Hinit & _ & Hperf & _).
  exists t'. split; [exact Hinit |].
  assert (Hwf : wf (root t')).
  { apply (reachable_wf false).
    eapply reachable_init; [apply reachable_new | exact Hinit]. }
  rewrite get_all_nodes_all_paths, get_leaf_nodes_root.
  change (map (app []) (all_paths (root t'))) with (map id (all_paths (root t'))).
  rewrite map_id, app_nil_l.
  rewrite (perfect_all_paths n _ Hwf Hperf), (perfect_leaves n _ Hperf).
  rewrite Nat.pow_succ_r'. auto.
Qed.

(** X8.  [init] returns on every tree, consistent or not, whatever the
    number of rounds: the pointers collected at the start of a round stay
    valid while the round subdivides the leaves one after the other.  It
    keeps the configuration and the cell of the root. *)
Theorem init_always_returns (n : nat) (t : Octree) :
  exists t',
    init n t = Ok t'
    /\ root_scale t' = root_scale t
    /\ max_depth t' = max_depth t
    /\ same_cell (root t) (root t').
Proof.
  destruct (init_total n t) as (t' & Hinit). exists t'. split; [exact Hinit |].
  unfold init in Hinit. apply bind_ok in Hinit as (r & Hr & [= <-]).
  split; [reflexivity |]. split; [reflexivity |].
  apply (init_rounds_same_cell n _ _ Hr).
Qed.

Lemma init_rounds_add (n m : nat) :
  forall r, init_rounds (n + m) r = (r1 ← init_rounds n r; init_rounds m r1).
Proof.
  induction n as [| n IH]; intros r; [reflexivity |].
  simpl. destruct (init_round r) as [r1 | e]; [apply IH | reflexivity].
Qed.

(** X9.  Rounds add up: [init(n + m)] is [init(n)] followed by [init(m)]
    on its result, on every tree. *)
Theorem init_rounds_compose (n m : nat) (t : Octree) :
  init (n + m) t = (t1 ← init n t; init m t1).
Proof.
  unfold init. rewrite init_rounds_add.
  destruct (init_rounds n (root t)) as [r1 | e]; reflexivity.
Qed.

(** ** The report of [str] *)

Lemma nodelevels_ok (t : Octree) (nodelevel : list Z) :
  nodelevels t = Ok nodelevel ->
  forall d, In d (leaf_depths t) -> 0 <= d < max_depth t.
Proof.
  intros Hok d Hd.
  destruct (Z_le_dec 0 d) as [H0 |]; [destruct (Z_lt_dec d (max_depth t)) |];
    [lia | exfalso | exfalso].
  all: rewrite nodelevels_fold in Hok;
    rewrite (fold_bump_fault _ _ d Hd) in Hok; [discriminate |];
    rewrite length_replicate; lia.
Qed.

Lemma length_leaf_depths (t : Octree) :
  length (leaf_depths t) = length (get_leaf_nodes (root t) [] []).
Proof.
  unfold leaf_depths. rewrite get_leaf_nodes_root.
  pose proof (leaf_paths_valid (root t)) as Hvalid.
  revert Hvalid. generalize (leaf_paths (root t)) as l.
  induction l as [| p l IH]; intros Hvalid; [reflexivity |].
  destruct (Hvalid p (or_introl eq_refl)) as (n & Hn & _).
  simpl. rewrite Hn. simpl. f_equal. apply IH. intros q Hq. apply Hvalid. right. exact Hq.
Qed.

Lemma total_count_insert (lv : list Z) (i : nat) (c c' : Z) :
  lv !! i = Some c -> total_count (<[i := c']> lv) = total_count lv - c + c'.
Proof.
  revert i. induction lv as [| a lv IH]; intros i Hi; [discriminate |].
  destruct i as [| i]; simpl in *.
  - injection Hi as ->. lia.
  - rewrite (IH i Hi). lia.
Qed.

Lemma fold_bump_total (ds : list Z) :
  forall lv lv',
    foldl (fun acc d => nodelevel ← acc; bump d nodelevel) (Ok lv) ds = Ok lv' ->
    total_count lv' = total_count lv + Z.of_nat (length ds).
Proof.
  induction ds as [| d ds IH]; intros lv lv' H; simpl in H.
  - injection H as <-. simpl. lia.
  - unfold bump at 2 in H. destruct (lv !! Z.to_nat d) as [count |] eqn:Hc.
    + destruct (0 <=? d).
      * rewrite (IH _ _ H), (total_count_insert _ _ _ _ Hc). simpl length. lia.
      * rewrite (fold_fault bump) in H. discriminate.
    + rewrite (fold_fault bump) in H. discriminate.
Qed.

Lemma total_count_replicate (n : nat) : total_count (replicate n 0) = 0.
Proof. induction n as [| n IH]; [reflexivity | simpl; exact IH]. Qed.

Lemma fold_bump_stops (ds : list Z) :
  forall lv e,
    foldl (fun acc d => nodelevel ← acc; bump d nodelevel) (Ok lv) ds = Fault e ->
    e = OutOfBounds 184.
Proof.
  induction ds as [| d ds IH]; intros lv e H; simpl in H; [discriminate |].
  unfold bump at 2 in H. destruct (lv !! Z.to_nat d) as [count |].
  - destruct (0 <=? d); [apply (IH _ _ H) |].
    rewrite (fold_fault bump) in H. congruence.
  - rewrite (fold_fault bump) in H. congruence.
Qed.

(** X10.  The run of [str] stays within [nodelevel], and then returns
    its report, exactly when every leaf is at a depth below [max_depth].
    In every other case the increment of line 184 indexes [nodelevel]
    outside its bounds, an access whose outcome is undefined; it is the
    only such access in [str]. *)
Theorem str_in_bounds_iff (t : Octree) :
  ((exists s, str t = Ok s)
   <-> forall d, In d (leaf_depths t) -> 0 <= d < max_depth t)
  /\ forall e, str t = Fault e -> e = OutOfBounds 184.
Proof.
  unfold str. split; [split |].
  - intros (s & (nodelevel & Hn & _)%bind_ok). eapply nodelevels_ok, Hn.
  - intros (nodelevel & -> & _)%nodelevels_counts. simpl. eauto.
  - intros e [H | (nodelevel & _ & H)]%bind_fault; [| discriminate].
    rewrite nodelevels_fold in H. apply (fold_bump_stops _ _ _ H).
Qed.

(** X11.  When every leaf is at a depth below [max_depth], [str] returns
    the header with the number of leaves, followed by one line for each
    level 0 .. max_depth - 1 with the number of leaves at that depth; the
    numbers of the lines add up to the number of the header. *)
Theorem str_report (t : Octree) :
  (forall d, In d (leaf_depths t) -> 0 <= d < max_depth t) ->
  exists nodelevel,
    str t = Ok (" Octree:
" +:+ "  " +:+ pretty (length (get_leaf_nodes (root t) [] [])) +:+ " leaf-nodes:
" +:+ level_lines nodelevel)
    /\ nodelevel = map (fun d => leaves_at_depth t (Z.of_nat d))
                       (seq 0 (Z.to_nat (max_depth t)))
    /\ total_count nodelevel = Z.of_nat (length (get_leaf_nodes (root t) [] [])).
Proof.
  intros Hds. destruct (nodelevels_counts t Hds) as (lv & Hlv & Hlen & Hget).
  exists lv. unfold str. rewrite Hlv. split; [reflexivity |]. split.
  - apply list_eq. intros i. rewrite list_lookup_fmap.
    destruct (Nat.lt_ge_cases i (Z.to_nat (max_depth t))) as [Hi | Hi].
    + rewrite lookup_seq_lt by exact Hi. simpl.
      rewrite <- (Nat2Z.id i) at 1. apply Hget. lia.
    + rewrite lookup_seq_ge by exact Hi. apply lookup_ge_None. lia.
  - rewrite nodelevels_fold in Hlv. rewrite (fold_bump_total _ _ _ Hlv).
    rewrite total_count_replicate, length_leaf_depths. lia.
Qed.

Lemma str_report_witness :
  exists nodelevel,
    str (uniform_tree 3 1) = Ok (" Octree:
" +:+ "  " +:+ pretty (length (get_leaf_nodes (root (uniform_tree 3 1)) [] []))
      +:+ " leaf-nodes:
" +:+ level_lines nodelevel)
    /\ nodelevel = map (fun d => leaves_at_depth (uniform_tree 3 1) (Z.of_nat d))
                       (seq 0 (Z.to_nat (max_depth (uniform_tree 3 1))))
    /\ total_count nodelevel
       = Z.of_nat (length (get_leaf_nodes (root (uniform_tree 3 1)) [] [])).
Proof.
  apply (str_report (uniform_tree 3 1)).
  change (max_depth (uniform_tree 3 1)) with 3.
  intros d Hd. vm_compute in Hd. decompose [or] Hd; subst; try contradiction; lia.
Defined.

Lemma leaf_depths_uniform (r : Octnode) (d : Z) (l : list ptr) :
  (forall p, In p l -> exists x, node_at r p = Some x /\ depth x = d) ->
  omap (fun p => depth <$> node_at r p) l = replicate (length l) d.
Proof.
  induction l as [| p l IH]; intros H; [reflexivity |].
  destruct (H p (or_introl eq_refl)) as (x & Hx & Hd).
  simpl. rewrite Hx. simpl. rewrite Hd. f_equal. apply IH.
  intros q Hq. apply H. right. exact Hq.
Qed.

Lemma fold_bump_replicate (k : nat) (d : Z) :
  forall lv c,
    0 <= d -> lv !! Z.to_nat d = Some c ->
    foldl (fun acc d => nodelevel ← acc; bump d nodelevel) (Ok lv) (replicate k d)
    = Ok (<[Z.to_nat d := c + Z.of_nat k]> lv).
Proof.
  induction k as [| k IH]; intros lv c Hd Hc.
  - simpl. rewrite Z.add_0_r, list_insert_id by exact Hc. reflexivity.
  - cbn [replicate foldl]. simpl. unfold bump at 2. rewrite Hc.
    destruct (Z.leb_spec 0 d); [| lia].
    rewrite (IH _ (c + 1)); [| exact Hd |].
    + rewrite list_insert_insert_eq. do 2 f_equal. lia.
    + apply list_lookup_insert_eq. eapply lookup_lt_Some, Hc.
Qed.

(** X12.  After [init(n)] on a freshly constructed tree, [str] counts the
    8^n leaves at level [n] and no leaf at the other levels, provided
    that [n] is below [max_depth]; with [n] at or above [max_depth], a
    depth that [init] does not keep the tree from, the increment of line
    184 indexes [nodelevel] outside its bounds. *)
Theorem str_after_init (n : nat) (scale0 : Q) (depth0 : Z) (centerp : Point) :
  exists t',
    init n (new_Octree scale0 depth0 centerp) = Ok t'
    /\ (Z.of_nat n < depth0 ->
        nodelevels t'
        = Ok (<[n := Z.of_nat (8 ^ n)]> (replicate (Z.to_nat depth0) 0)))
    /\ (depth0 <= Z.of_nat n -> str t' = Fault (OutOfBounds 184)).
Proof.
  destruct (init_fresh n scale0 depth0 centerp) as (t' & Hinit & Hmax & Hperf & Hleaves).
  exists t'. split; [exact Hinit |].
  assert (Hdepths : leaf_depths t' = replicate (8 ^ n) (Z.of_nat n)).
  { unfold leaf_depths. rewrite (leaf_depths_uniform _ (Z.of_nat n)).
    - rewrite get_leaf_nodes_root, (perfect_leaves n _ Hperf). reflexivity.
    - intros p Hp. destruct (Hleaves p Hp) as (_ & x & Hx & _ & Hd & _). eauto. }
  split.
  - intros Hn. rewrite nodelevels_fold, Hdepths, Hmax.
    rewrite (fold_bump_replicate _ _ _ 0); [rewrite Nat2Z.id; reflexivity | lia |].
    apply lookup_replicate_2. lia.
  - intros Hn.
    assert (Hin : In (Z.of_nat n) (leaf_depths t')).
    { rewrite Hdepths. pose proof (Nat.pow_nonzero 8 n ltac:(lia)) as Hpos.
      destruct (8 ^ n)%nat; [contradiction | left; reflexivity]. }
    assert (H : nodelevels t' = Fault (OutOfBounds 184)).
    { rewrite nodelevels_fold. apply (fold_bump_fault _ _ _ Hin).
      rewrite length_replicate, Hmax. lia. }
    unfold str. rewrite H. reflexivity.
Qed.

(** ** The release build and the debug build *)

Lemma for_each_ok {S : Type} (body1 body2 : nat -> S -> Res S) (ms : list nat) :
  (forall m s s', body1 m s = Ok s' -> body2 m s = Ok s') ->
  forall s s', for_each ms body1 s = Ok s' -> for_each ms body2 s = Ok s'.
Proof.
  intros Hbody. induction ms as [| m ms IH]; intros s s' Hs; [exact Hs |].
  simpl in *. apply bind_ok in Hs as (s1 & H1 & Hrest).
  rewrite (Hbody _ _ _ H1). simpl. apply IH, Hrest.
Qed.

Lemma assert_release (line : Z) (cond : bool) : assert true line cond = Ok tt.
Proof. reflexivity. Qed.

Section Builds.
Variable maxdepth : Z.
Variable vol : OCTVolume.t.

Lemma delete_leaf_release (p c : Octnode) (o : outcome) :
  delete_leaf false vol p c = Ok o -> delete_leaf true vol p c = Ok o.
Proof.
  intros H. pose proof H as [-> Hidx]%delete_leaf_ok.
  unfold delete_leaf, collapsed. fold (detached p c).
  destruct (Z.leb_spec 0 (idx c)), (Z.leb_spec (idx c) 7); try lia.
  simpl. change (childcount (detached p c)) with (childcount p - 1).
  destruct (childcount p - 1 =? 0); reflexivity.
Qed.

Lemma build_child_release (call1 call2 : option Octnode -> Octnode -> Res outcome)
      (m : nat) (cur c cur' : Octnode) :
  (forall p x o, call1 p x = Ok o -> call2 p x = Ok o) ->
  build_child vol call1 m cur c = Ok cur' ->
  build_child vol call2 m cur c = Ok cur'.
Proof.
  intros Hcall. unfold build_child.
  destruct (overlaps (OCTVolume.bb vol) (bb c)); [| auto].
  intros (o & Ho & H)%bind_ok. rewrite (Hcall _ _ _ Ho). exact H.
Qed.

(** A call that returns in the debug build returns the same in the
    release build. *)
Lemma diff_negative_release (fuel : nat) :
  forall (parent : option Octnode) (current : Octnode) (o : outcome),
    diff_negative false maxdepth vol fuel parent current = Ok o ->
    diff_negative true maxdepth vol fuel parent current = Ok o.
Proof.
  induction fuel as [| fuel IH]; intros parent current o; [discriminate |].
  rewrite !diff_negative_S. cbv zeta.
  destruct (childcount (evaluate vol current) =? 0).
  - destruct (inside (evaluate vol current)).
    + intros (_ & _ & H)%bind_ok. rewrite assert_release. simpl.
      destruct parent as [p |]; [apply delete_leaf_release, H | exact H].
    + destruct (outside (evaluate vol current)); [auto |].
      destruct (depth (evaluate vol current) <? maxdepth); [| auto].
      intros (_ & _ & (cur & Hl & H)%bind_ok)%bind_ok.
      rewrite assert_release. simpl.
      unfold build_new_children in *.
      erewrite for_each_ok; [exact H | | exact Hl].
      intros m s s' (_ & _ & Hb)%bind_ok. rewrite assert_release. simpl.
      destruct (child s !! m) as [[c |] |]; [| discriminate | discriminate].
      eapply build_child_release; [apply IH | exact Hb].
  - intros (cur & Hl & H)%bind_ok. unfold build_children in *.
    erewrite for_each_ok; [exact H | | exact Hl].
    intros m s s' Hb. simpl in *.
    destruct (child s !! m) as [[c |] |]; [| exact Hb | exact Hb].
    eapply build_child_release; [apply IH | exact Hb].
Qed.
End Builds.

(** X13.  The assertions only watch: whenever [diff_negative_root]
    returns in the debug build, it returns the same tree in the build
    with NDEBUG. *)
Theorem release_agrees_with_debug (t t' : Octree) (vol : OCTVolume.t) :
  diff_negative_root false t vol = Ok t' ->
  diff_negative_root true t vol = Ok t'.
Proof.
  unfold diff_negative_root. intros (o & Ho & H)%bind_ok.
  rewrite (diff_negative_release _ _ _ _ _ _ Ho). exact H.
Qed.

Lemma release_agrees_with_debug_witness :
  diff_negative_root true (uniform_tree 3 1) corner
  = Ok (tree_of (unit_tree 3) (diff_negative_root false (uniform_tree 3 1) corner)).
Proof.
  apply (release_agrees_with_debug (uniform_tree 3 1)). vm_compute. reflexivity.
Defined.

(** ** Where the debug build stops *)

Section Stops.
Variable ndebug : bool.
Variable vol : OCTVolume.t.

Lemma build_child_has_parent (call : option Octnode -> Octnode -> Res outcome)
      (m : nat) (cur c : Octnode) :
  (forall p x, call (Some p) x <> Fault (AssertionFailed 137)) ->
  build_child vol call m cur c <> Fault (AssertionFailed 137).
Proof.
  intros Hcall. unfold build_child.
  destruct (overlaps (OCTVolume.bb vol) (bb c)); [| discriminate].
  specialize (Hcall cur c).
  destruct (call (Some cur) c) as [[c' | x] | e]; simpl; congruence.
Qed.

Lemma build_children_has_parent (call : option Octnode -> Octnode -> Res outcome)
      (cur0 : Octnode) :
  (forall p x, call (Some p) x <> Fault (AssertionFailed 137)) ->
  build_children vol call cur0 <> Fault (AssertionFailed 137).
Proof.
  intros Hcall. unfold build_children.
  apply (for_each_rule (fun _ _ => True)
           (fun r => r <> Fault (AssertionFailed 137))); [exact I | discriminate |].
  intros m ms' cur _.
  destruct (child cur !! m) as [[c |] |]; [| exact I | exact I].
  pose proof (build_child_has_parent call m cur c Hcall) as Hb.
  destruct (build_child vol call m cur c); [exact I | exact Hb].
Qed.

Lemma build_new_children_has_parent
      (call : option Octnode -> Octnode -> Res outcome) (cur0 : Octnode) :
  (forall p x, call (Some p) x <> Fault (AssertionFailed 137)) ->
  build_new_children ndebug vol call cur0 <> Fault (AssertionFailed 137).
Proof.
  intros Hcall. unfold build_new_children.
  apply (for_each_rule (fun _ _ => True)
           (fun r => r <> Fault (AssertionFailed 137))); [exact I | discriminate |].
  intros m ms' cur _.
  destruct (assert_cases ndebug 157 (bool_decide (is_Some (mjoin (child cur !! m)))))
    as [-> | (_ & _ & ->)]; simpl; [| discriminate].
  destruct (child cur !! m) as [[c |] |]; [| discriminate | discriminate].
  pose proof (build_child_has_parent call m cur c Hcall) as Hb.
  destruct (build_child vol call m cur c); [exact I | exact Hb].
Qed.

(** The assertion of line 137 holds in every call made from a loop: such
    a call has a parent. *)
Lemma diff_negative_has_parent (maxdepth : Z) (fuel : nat) :
  forall (p current : Octnode),
    diff_negative ndebug maxdepth vol fuel (Some p) current
    <> Fault (AssertionFailed 137).
Proof.
  induction fuel as [| fuel IH]; intros p current; [discriminate |].
  rewrite diff_negative_S. cbv zeta.
  destruct (childcount (evaluate vol current) =? 0).
  - destruct (inside (evaluate vol current)).
    + rewrite bool_decide_true by eauto. rewrite assert_true. simpl.
      intros H. apply delete_leaf_fault in H
        as [[_ H] | [(_ & _ & H) | (_ & _ & _ & H)]]; [destruct ndebug |..]; discriminate.
    + destruct (outside (evaluate vol current)); [discriminate |].
      destruct (depth (evaluate vol current) <? maxdepth); [| discriminate].
      intros [H | (_ & _ & [H | (x & _ & H)]%bind_fault)]%bind_fault;
        [| | discriminate].
      * destruct (assert_cases ndebug 155
                    (childcount (subdivide (evaluate vol current)) =? 8))
          as [Hok | (_ & _ & Hf)]; congruence.
      * revert H. apply build_new_children_has_parent, IH.
  - intros [H | (x & _ & H)]%bind_fault; [| discriminate].
    revert H. apply build_children_has_parent, IH.
Qed.
End Stops.

(** X14.  The debug build stops at the assertion of line 137 exactly
    when the root is a leaf that the volume classifies as inside: the
    root is the one node without a parent.  No other call fails that
    assertion. *)
Theorem line_137_is_the_root (t : Octree) (vol : OCTVolume.t) :
  diff_negative_root false t vol = Fault (AssertionFailed 137)
  <-> childcount (root t) = 0
      /\ inside_flag vol (center (root t)) (scale (root t)) = true.
Proof.
  unfold diff_negative_root.
  destruct (frames (max_depth t) (root t)) as [| fuel] eqn:Hfr.
  { destruct (root t); discriminate. }
  assert (Hloops : forall cur0,
             build_children vol (diff_negative false (max_depth t) vol fuel) cur0
             <> Fault (AssertionFailed 137)).
  { intros cur0. apply build_children_has_parent, diff_negative_has_parent. }
  rewrite diff_negative_S. cbv zeta.
  rewrite childcount_evaluate, inside_evaluate.
  destruct (Z.eqb_spec (childcount (root t)) 0) as [Hleaf | Hinner].
  - destruct (inside_flag vol (center (root t)) (scale (root t))).
    + split; [auto | reflexivity].
    + split; [| intros [_ H]; discriminate].
      destruct (outside (evaluate vol (root t))); [discriminate |].
      destruct (depth (evaluate vol (root t)) <? max_depth t); [| discriminate].
      simpl. rewrite build_new_children_subdivide.
      intros [H | ([r | x] & _ & H)]%bind_fault; [| discriminate | discriminate].
      apply bind_fault in H as [H | (x & _ & H)]; [| discriminate].
      destruct (Hloops _ H).
  - split; [| intros [H _]; contradiction].
    intros [H | ([r | x] & _ & H)]%bind_fault; [| discriminate | discriminate].
    apply bind_fault in H as [H | (x & _ & H)]; [| discriminate].
    destruct (Hloops _ H).
Qed.

(** X15.  On a consistent tree the pass always returns in the build with
    NDEBUG, and returns a consistent tree: no null child is dereferenced
    and no slot outside [child] is written.  In the debug build the pass
    stops, if at all, at the assertion of line 137 or of line 148; the
    assertions of lines 140, 144, 155 and 157 never fail. *)
Theorem pass_over_consistent_tree (t : Octree) (vol : OCTVolume.t) :
  wf (root t) ->
  (exists t', diff_negative_root true t vol = Ok t' /\ wf (root t'))
  /\ forall e, diff_negative_root false t vol = Fault e ->
               e = AssertionFailed 137 \/ e = AssertionFailed 148.
Proof.
  intros Hwf. split.
  - destruct (diff_negative_root_returns true t vol Hwf) as [H | [H _]];
      [exact H | discriminate].
  - intros e He.
    destruct (diff_negative_root_returns false t vol Hwf)
      as [(t' & H & _) | (_ & [H | H])]; rewrite H in He;
      [discriminate | injection He as <- | injection He as <-]; auto.
Qed.

Lemma pass_over_consistent_tree_witness :
  (exists t', diff_negative_root true (unit_tree 3) everything = Ok t' /\ wf (root t'))
  /\ forall e, diff_negative_root false (unit_tree 3) everything = Fault e ->
               e = AssertionFailed 137 \/ e = AssertionFailed 148.
Proof. apply (pass_over_consistent_tree (unit_tree 3) everything). reflexivity. Defined.

(** ** The depth ceiling *)

Lemma shallow_unfold (D : Z) (n : Octnode) :
  shallow D n <->
  depth n <= D /\ forall m c, child n !! m = Some (Some c) -> shallow D c.
Proof.
  split.
  - intros H. split; [apply (H [] n eq_refl) |].
    intros m c Hm p x Hx. apply (H (m :: p) x). rewrite node_at_cons, Hm. exact Hx.
  - intros [Hd Hch] [| m p] x Hx.
    + injection Hx as <-. exact Hd.
    + rewrite node_at_cons in Hx.
      destruct (child n !! m) as [[c |] |] eqn:Hm; [| discriminate | discriminate].
      apply (Hch m c Hm p x Hx).
Qed.

Lemma shallow_same_children (D : Z) (n n' : Octnode) :
  depth n' = depth n -> child n' = child n -> shallow D n -> shallow D n'.
Proof.
  intros Hd Hc (Hn & Hch)%shallow_unfold. apply shallow_unfold.
  rewrite Hd, Hc. auto.
Qed.

Lemma shallow_replace_child (D : Z) (n c' : Octnode) (m : nat) :
  shallow D n -> shallow D c' -> shallow D (set_child n (<[m := Some c']> (child n))).
Proof.
  intros (Hn & Hch)%shallow_unfold Hc'. apply shallow_unfold.
  split; [exact Hn |]. cbn [child set_child]. intros j x Hj.
  apply list_lookup_insert_Some in Hj as [(_ & [= <-] & _) | (_ & Hj)];
    [exact Hc' | apply (Hch j x Hj)].
Qed.

Lemma shallow_collapsed (D : Z) (vol : OCTVolume.t) (p c : Octnode) :
  shallow D p -> shallow D (collapsed vol p c).
Proof.
  intros (Hp & Hch)%shallow_unfold. apply shallow_unfold.
  destruct (same_cell_collapsed vol p c) as (_ & <- & _).
  split; [exact Hp |]. rewrite child_collapsed. intros j x Hj.
  apply list_lookup_insert_Some in Hj as [(_ & Habs & _) | (_ & Hj)];
    [discriminate | apply (Hch j x Hj)].
Qed.

Lemma shallow_subdivide (D : Z) (n : Octnode) :
  depth n + 1 <= D -> shallow D (subdivide n).
Proof.
  intros Hd. apply shallow_unfold. split; [simpl; lia |].
  intros m c (_ & ->)%child_subdivide_inv. apply shallow_unfold.
  split; [exact Hd |]. intros j x Hj. destruct (octant_no_child _ _ _ _ Hj).
Qed.

Section Ceiling.
Variable ndebug : bool.
Variable maxdepth : Z.
Variable vol : OCTVolume.t.
Variable D : Z.
Hypothesis ceiling : maxdepth <= D.

Lemma diff_negative_shallow (fuel : nat) :
  forall (parent : option Octnode) (current : Octnode) (o : outcome),
    shallow D current ->
    (forall p, parent = Some p -> shallow D p) ->
    diff_negative ndebug maxdepth vol fuel parent current = Ok o ->
    match o with
    | Kept c' => shallow D c'
    | Deleted p' => shallow D p'
    end.
Proof.
  induction fuel as [| fuel IH]; intros parent current o Hcur Hpar; [discriminate |].
  assert (Hloop : forall cur0 cur',
             shallow D cur0 ->
             build_children vol (diff_negative ndebug maxdepth vol fuel) cur0 = Ok cur' ->
             shallow D cur').
  { intros cur0 cur' Hcur0.
    apply (build_children_rule vol _ (shallow D) (fun r => r = Ok cur' -> shallow D cur')).
    - exact Hcur0.
    - intros cur H [= <-]. exact H.
    - intros m cur ch _ Hc Hch _.
      pose proof (proj2 (proj1 (shallow_unfold D cur) Hc) m ch Hch) as Hsch.
      assert (Hp : forall p, Some cur = Some p -> shallow D p) by (intros p [= <-]; exact Hc).
      destruct (diff_negative ndebug maxdepth vol fuel (Some cur) ch)
        as [[ch' | x] | e] eqn:Hcall; [| | discriminate].
      + apply shallow_replace_child; [exact Hc |]. apply (IH _ _ _ Hsch Hp Hcall).
      + apply (IH _ _ _ Hsch Hp Hcall). }
  assert (Hev : shallow D (evaluate vol current)).
  { eapply shallow_same_children; [apply depth_evaluate | apply child_evaluate | exact Hcur]. }
  rewrite diff_negative_S. cbv zeta.
  destruct (childcount (evaluate vol current) =? 0).
  - destruct (inside (evaluate vol current)).
    + intros (_ & _ & H)%bind_ok. destruct parent as [p |].
      * apply delete_leaf_ok in H as [-> _]. apply shallow_collapsed, Hpar. reflexivity.
      * injection H as <-. exact Hev.
    + destruct (outside (evaluate vol current)); [intros [= <-]; exact Hev |].
      destruct (Z.ltb_spec (depth (evaluate vol current)) maxdepth) as [Hd | Hd];
        [| intros [= <-]; exact Hev].
      intros (_ & _ & (x & Hl & [= <-])%bind_ok)%bind_ok.
      rewrite build_new_children_subdivide in Hl.
      eapply Hloop; [| exact Hl]. apply shallow_subdivide. lia.
  - intros (x & Hl & [= <-])%bind_ok. eapply Hloop; [exact Hev | exact Hl].
Qed.
End Ceiling.

(** X16.  The pass makes no node below the ceiling: if no node of the
    tree is deeper than [D], and [max_depth] is at most [D], then no
    node of the tree the pass returns is deeper than [D].  With
    [D = max_depth], a tree that keeps to the ceiling keeps to it under
    every pass. *)
Theorem depth_ceiling (ndebug : bool) (t t' : Octree) (vol : OCTVolume.t) (D : Z) :
  max_depth t <= D ->
  shallow D (root t) ->
  diff_negative_root ndebug t vol = Ok t' ->
  shallow D (root t').
Proof.
  intros HD Hsh (r & Hcall & ->)%diff_negative_root_ok.
  apply (diff_negative_shallow ndebug (max_depth t) vol D HD _ _ _ _ Hsh) in Hcall;
    [exact Hcall | discriminate].
Qed.

Lemma depth_ceiling_witness : shallow 1 (root corner_cut_tree).
Proof.
  apply (depth_ceiling false (unit_tree 1) corner_cut_tree corner 1).
  - simpl. lia.
  - apply shallow_unfold. split; [simpl; lia |].
    intros m c Hm. apply lookup_replicate in Hm as [Hm _]. discriminate.
  - vm_compute. reflexivity.
Defined.

(** ** No cell moves *)

Section Cells.
Variable ndebug : bool.
Variable maxdepth : Z.
Variable vol : OCTVolume.t.

Lemma diff_negative_cells (fuel : nat) :
  forall (parent : option Octnode) (current c' : Octnode),
    wf current ->
    diff_negative ndebug maxdepth vol fuel parent current = Ok (Kept c') ->
    cells_kept current c'.
Proof.
  induction fuel as [| fuel IH]; intros parent current c' Hwf Hcall; [discriminate |].
  pose proof (diff_negative_kept _ _ _ _ _ _ _ Hcall) as (Hcell & _).
  assert (Hloop : forall cur0,
             wf cur0 ->
             build_children vol (diff_negative ndebug maxdepth vol fuel) cur0 = Ok c' ->
             cells_kept cur0 c').
  { intros cur0 Hwf0.
    apply (build_children_wf ndebug maxdepth vol fuel
             (cells_kept cur0) (fun m ch => child cur0 !! m = Some (Some ch))
             (fun r => r = Ok c' -> cells_kept cur0 c')).
    - exact Hwf0.
    - intros p x y Hx Hy. rewrite Hx in Hy. injection Hy as <-. apply same_cell_refl.
    - auto.
    - intros cur _ _ H [= <-]. exact H.
    - intros m cur ch Hm Hwcur Hcell0 HP HR Hch Hidx Hwch _.
      assert (Hrest : forall slots : list (option Octnode),
                 (forall j, j <> m -> slots !! j = child cur !! j) ->
                 forall j q x y, j <> m ->
                   node_at cur0 (j :: q) = Some x ->
                   match slots !! j with
                   | Some (Some c) => node_at c q
                   | _ => None
                   end = Some y ->
                   same_cell x y).
      { intros slots Hslots j q x y Hne Hx Hy. rewrite (Hslots j Hne) in Hy.
        apply (HP (j :: q) x y Hx). rewrite node_at_cons. exact Hy. }
      destruct (diff_negative ndebug maxdepth vol fuel (Some cur) ch)
        as [[ch' | cur'] | e] eqn:Hcall'; [| | discriminate].
      + intros _ _ [| j q] x y Hx Hy.
        * injection Hx as <-. injection Hy as <-.
          eapply same_cell_trans; [exact Hcell0 | repeat split].
        * rewrite node_at_cons in Hy. cbn [child set_child] in Hy.
          destruct (Nat.eq_dec j m) as [-> | Hne].
          -- rewrite list_lookup_insert_eq in Hy by (eapply lookup_lt_Some, Hch).
             rewrite node_at_cons, HR in Hx.
             apply (IH _ _ _ Hwch Hcall' q x y Hx Hy).
          -- apply (Hrest (<[m := Some ch']> (child cur))) with j q; try assumption.
             intros j' Hj'. apply list_lookup_insert_ne. auto.
      + intros -> _ _ [| j q] x y Hx Hy.
        * injection Hx as <-. injection Hy as <-.
          eapply same_cell_trans; [exact Hcell0 | apply same_cell_collapsed].
        * rewrite node_at_cons, child_collapsed in Hy.
          destruct (Nat.eq_dec j m) as [-> | Hne].
          -- rewrite Hidx, Nat2Z.id in Hy.
             rewrite list_lookup_insert_eq in Hy by (eapply lookup_lt_Some, Hch).
             discriminate.
          -- apply (Hrest (<[Z.to_nat (idx ch) := None]> (child cur))) with j q;
               try assumption.
             intros j' Hj'. apply list_lookup_insert_ne. lia. }
  intros [| j q] x y Hx Hy.
  { injection Hx as <-. injection Hy as <-. exact Hcell. }
  rewrite node_at_cons in Hx.
  destruct (child current !! j) as [[c |] |] eqn:Hj; [| discriminate | discriminate].
  rewrite (diff_negative_inner _ _ _ _ _ _ (wf_inner _ _ _ Hwf Hj)) in Hcall.
  apply bind_ok in Hcall as (c0 & Hl & [= <-]).
  apply (Hloop _ (wf_evaluate vol _ Hwf) Hl (j :: q) x y); [| exact Hy].
  rewrite node_at_cons, child_evaluate, Hj. exact Hx.
Qed.
End Cells.

(** X17.  A pass moves no cell.  In a consistent tree, a pointer that is
    valid before the call and after it designates the same cell: index,
    depth, half-width, centre, bounding box and surface flags are the
    same. *)
Theorem pass_moves_no_cell (ndebug : bool) (t t' : Octree) (vol : OCTVolume.t)
        (p : ptr) (x y : Octnode) :
  wf (root t) ->
  diff_negative_root ndebug t vol = Ok t' ->
  node_at (root t) p = Some x ->
  node_at (root t') p = Some y ->
  same_cell x y.
Proof.
  intros Hwf (r & Hcall & ->)%diff_negative_root_ok Hx Hy.
  apply (diff_negative_cells _ _ _ _ _ _ _ Hwf Hcall p x y Hx Hy).
Qed.

Lemma pass_moves_no_cell_witness :
  same_cell (octant (root (unit_tree 3)) 7)
            (match node_at (root (tree_of (unit_tree 3)
                                   (diff_negative_root false (uniform_tree 3 1) corner)))
                           [7%nat] with
             | Some y => y
             | None => root (unit_tree 3)
             end).
Proof.
  apply (pass_moves_no_cell false (uniform_tree 3 1)
           (tree_of (unit_tree 3) (diff_negative_root false (uniform_tree 3 1) corner))
           corner [7%nat]).
  - reflexivity.
  - vm_compute. reflexivity.
  - reflexivity.
  - vm_compute. reflexivity.
Defined.

(** ** What a pass removes and what it adds *)

Section Removed.
Variable ndebug : bool.
Variable maxdepth : Z.
Variable vol : OCTVolume.t.

Lemma diff_negative_removed (fuel : nat) :
  forall (parent : option Octnode) (current c' : Octnode) (p : ptr) (x : Octnode),
    wf current ->
    diff_negative ndebug maxdepth vol fuel parent current = Ok (Kept c') ->
    node_at current p = Some x ->
    node_at c' p = None ->
    childcount x = 0 /\ inside_flag vol (center x) (scale x) = true
    /\ overlaps (OCTVolume.bb vol) (bb x) = true.
Proof.
  induction fuel as [| fuel IH]; intros parent current c' p x Hwf Hcall Hx Hy;
    [discriminate |].
  destruct p as [| j q]; [discriminate |].
  assert (Hloop : forall cur0,
             wf cur0 ->
             build_children vol (diff_negative ndebug maxdepth vol fuel) cur0 = Ok c' ->
             forall j q x, node_at cur0 (j :: q) = Some x ->
                           node_at c' (j :: q) = None ->
                           childcount x = 0
                           /\ inside_flag vol (center x) (scale x) = true
                           /\ overlaps (OCTVolume.bb vol) (bb x) = true).
  { intros cur0 Hwf0.
    apply (build_children_wf ndebug maxdepth vol fuel
             (fun cur => forall j q x, node_at cur0 (j :: q) = Some x ->
                           node_at cur (j :: q) = None ->
                           childcount x = 0
                           /\ inside_flag vol (center x) (scale x) = true
                           /\ overlaps (OCTVolume.bb vol) (bb x) = true)
             (fun m ch => child cur0 !! m = Some (Some ch))
             (fun r => r = Ok c' ->
                       forall j q x, node_at cur0 (j :: q) = Some x ->
                           node_at c' (j :: q) = None ->
                           childcount x = 0
                           /\ inside_flag vol (center x) (scale x) = true
                           /\ overlaps (OCTVolume.bb vol) (bb x) = true)).
    - exact Hwf0.
    - intros j0 q0 x0 Hx0 Hy0. congruence.
    - auto.
    - intros cur _ _ H [= <-]. exact H.
    - intros m cur ch Hm Hwcur _ HP HR Hch Hidx Hwch Hov.
      destruct (diff_negative ndebug maxdepth vol fuel (Some cur) ch)
        as [[ch' | cur'] | e] eqn:Hcall'; [| | discriminate].
      + intros _ _ j0 q0 x0 Hx0 Hy0.
        rewrite node_at_cons in Hy0. cbn [child set_child] in Hy0.
        destruct (Nat.eq_dec j0 m) as [-> | Hne].
        * rewrite list_lookup_insert_eq in Hy0 by (eapply lookup_lt_Some, Hch).
          rewrite node_at_cons, HR in Hx0.
          apply (IH _ _ _ q0 x0 Hwch Hcall' Hx0 Hy0).
        * rewrite list_lookup_insert_ne in Hy0 by auto.
          apply (HP j0 q0 x0 Hx0). rewrite node_at_cons. exact Hy0.
      + intros -> Hleaf Hin j0 q0 x0 Hx0 Hy0.
        rewrite node_at_cons, child_collapsed in Hy0.
        destruct (Nat.eq_dec j0 m) as [-> | Hne].
        * rewrite node_at_cons, HR in Hx0.
          pose proof (wf_leaf_node_at _ _ _ Hwch Hleaf Hx0) as ->.
          injection Hx0 as <-. repeat split; assumption.
        * rewrite list_lookup_insert_ne in Hy0 by lia.
          apply (HP j0 q0 x0 Hx0). rewrite node_at_cons. exact Hy0. }
  pose proof Hx as Hx'. rewrite node_at_cons in Hx'.
  destruct (child current !! j) as [[c |] |] eqn:Hj; [| discriminate | discriminate].
  rewrite (diff_negative_inner _ _ _ _ _ _ (wf_inner _ _ _ Hwf Hj)) in Hcall.
  apply bind_ok in Hcall as (c0 & Hl & [= <-]).
  apply (Hloop _ (wf_evaluate vol _ Hwf) Hl j q x); [| exact Hy].
  rewrite node_at_cons, child_evaluate, Hj. exact Hx'.
Qed.
End Removed.

(** X18.  A pass removes nothing but inside leaves.  In a consistent
    tree, a node that is there before the call and gone after it was a
    leaf below the root, which the volume classifies as inside and whose
    bounding box overlaps the bounding box of the volume. *)
Theorem pass_removes_inside_leaves_only (ndebug : bool) (t t' : Octree)
        (vol : OCTVolume.t) (p : ptr) (x : Octnode) :
  wf (root t) ->
  diff_negative_root ndebug t vol = Ok t' ->
  node_at (root t) p = Some x ->
  node_at (root t') p = None ->
  p <> []
  /\ childcount x = 0
  /\ inside_flag vol (center x) (scale x) = true
  /\ overlaps (OCTVolume.bb vol) (bb x) = true.
Proof.
  intros Hwf (r & Hcall & ->)%diff_negative_root_ok Hx Hy.
  split; [intros ->; discriminate |].
  apply (diff_negative_removed _ _ _ _ _ _ _ p x Hwf Hcall Hx Hy).
Qed.

Lemma pass_removes_inside_leaves_only_witness :
  [7%nat; 7%nat] <> []
  /\ childcount (octant (octant (root (unit_tree 3)) 7) 7) = 0
  /\ inside_flag corner (center (octant (octant (root (unit_tree 3)) 7) 7))
                        (scale (octant (octant (root (unit_tree 3)) 7) 7)) = true
  /\ overlaps (OCTVolume.bb corner) (bb (octant (octant (root (unit_tree 3)) 7) 7))
     = true.
Proof.
  apply (pass_removes_inside_leaves_only false (uniform_tree 3 2)
           (tree_of (unit_tree 3) (diff_negative_root false (uniform_tree 3 2) corner))
           corner).
  - reflexivity.
  - vm_compute. reflexivity.
  - vm_compute. reflexivity.
  - vm_compute. reflexivity.
Defined.

Section Added.
Variable ndebug : bool.
Variable maxdepth : Z.
Variable vol : OCTVolume.t.

Lemma diff_negative_added (fuel : nat) :
  forall (parent : option Octnode) (current c' : Octnode) (p : ptr) (y : Octnode),
    wf current ->
    diff_negative ndebug maxdepth vol fuel parent current = Ok (Kept c') ->
    node_at c' p = Some y ->
    node_at current p = None ->
    exists q r x,
      p = q ++ r /\ r <> []
      /\ node_at current q = Some x
      /\ childcount x = 0 /\ straddles vol x /\ depth x < maxdepth.
Proof.
  induction fuel as [| fuel IH]; intros parent current c' p y Hwf Hcall Hy Hx;
    [discriminate |].
  destruct p as [| j q]; [discriminate |].
  assert (Hloop : forall cur0,
             wf cur0 ->
             build_children vol (diff_negative ndebug maxdepth vol fuel) cur0 = Ok c' ->
             forall j q y, node_at c' (j :: q) = Some y ->
                           node_at cur0 (j :: q) = None ->
                           exists q' r x, q = q' ++ r /\ r <> []
                             /\ node_at cur0 (j :: q') = Some x
                             /\ childcount x = 0 /\ straddles vol x
                             /\ depth x < maxdepth).
  { intros cur0 Hwf0.
    apply (build_children_wf ndebug maxdepth vol fuel
             (fun cur => forall j q y, node_at cur (j :: q) = Some y ->
                           node_at cur0 (j :: q) = None ->
                           exists q' r x, q = q' ++ r /\ r <> []
                             /\ node_at cur0 (j :: q') = Some x
                             /\ childcount x = 0 /\ straddles vol x
                             /\ depth x < maxdepth)
             (fun m ch => child cur0 !! m = Some (Some ch))
             (fun r => r = Ok c' ->
                       forall j q y, node_at c' (j :: q) = Some y ->
                           node_at cur0 (j :: q) = None ->
                           exists q' r x, q = q' ++ r /\ r <> []
                             /\ node_at cur0 (j :: q') = Some x
                             /\ childcount x = 0 /\ straddles vol x
                             /\ depth x < maxdepth)).
    - exact Hwf0.
    - intros j0 q0 y0 Hy0 Hx0. congruence.
    - auto.
    - intros cur _ _ H [= <-]. exact H.
    - intros m cur ch Hm Hwcur _ HP HR Hch Hidx Hwch Hov.
      destruct (diff_negative ndebug maxdepth vol fuel (Some cur) ch)
        as [[ch' | cur'] | e] eqn:Hcall'; [| | discriminate].
      + intros _ _ j0 q0 y0 Hy0 Hx0.
        rewrite node_at_cons in Hy0. cbn [child set_child] in Hy0.
        destruct (Nat.eq_dec j0 m) as [-> | Hne].
        * rewrite list_lookup_insert_eq in Hy0 by (eapply lookup_lt_Some, Hch).
          rewrite node_at_cons, HR in Hx0.
          destruct (IH _ _ _ q0 y0 Hwch Hcall' Hy0 Hx0)
            as (q' & r & x & -> & Hr & Hq' & Hrest).
          exists q', r, x. split; [reflexivity |]. split; [exact Hr |].
          split; [rewrite node_at_cons, HR; exact Hq' | exact Hrest].
        * rewrite list_lookup_insert_ne in Hy0 by auto.
          apply (HP j0 q0 y0); [rewrite node_at_cons; exact Hy0 | exact Hx0].
      + intros -> _ _ j0 q0 y0 Hy0 Hx0.
        rewrite node_at_cons, child_collapsed in Hy0.
        destruct (Nat.eq_dec j0 m) as [-> | Hne].
        * rewrite Hidx, Nat2Z.id in Hy0.
          rewrite list_lookup_insert_eq in Hy0 by (eapply lookup_lt_Some, Hch).
          discriminate.
        * rewrite list_lookup_insert_ne in Hy0 by lia.
          apply (HP j0 q0 y0); [rewrite node_at_cons; exact Hy0 | exact Hx0]. }
  rewrite diff_negative_S in Hcall. cbv zeta in Hcall.
  rewrite childcount_evaluate, inside_evaluate, outside_evaluate, depth_evaluate in Hcall.
  destruct (Z.eqb_spec (childcount current) 0) as [Hleaf | Hinner].
  - destruct (inside_flag vol (center current) (scale current)) eqn:Hin.
    + apply bind_ok in Hcall as (_ & _ & H). destruct parent as [p |].
      * apply delete_leaf_ok in H as [H _]. discriminate.
      * injection H as <-. rewrite node_at_cons, child_evaluate in Hy.
        rewrite node_at_cons in Hx. congruence.
    + destruct (outside_flag vol (center current) (scale current)) eqn:Hout.
      * injection Hcall as <-. rewrite node_at_cons, child_evaluate in Hy.
        rewrite node_at_cons in Hx. congruence.
      * destruct (Z.ltb_spec (depth current) maxdepth) as [Hd | Hd].
        -- exists [], (j :: q), current. split; [reflexivity |].
           split; [discriminate |]. split; [reflexivity |].
           split; [exact Hleaf |]. split; [split; assumption | exact Hd].
        -- injection Hcall as <-. rewrite node_at_cons, child_evaluate in Hy.
           rewrite node_at_cons in Hx. congruence.
  - apply bind_ok in Hcall as (c0 & Hl & [= <-]).
    destruct (Hloop _ (wf_evaluate vol _ Hwf) Hl j q y Hy)
      as (q' & r & x & -> & Hr & Hq' & Hrest).
    { rewrite node_at_cons, child_evaluate. rewrite node_at_cons in Hx. exact Hx. }
    exists (j :: q'), r, x. split; [reflexivity |]. split; [exact Hr |].
    split; [| exact Hrest].
    rewrite node_at_cons, child_evaluate in Hq'. rewrite node_at_cons. exact Hq'.
Qed.
End Added.

(** X19.  A pass adds nodes below straddling leaves only.  In a
    consistent tree, a node that is there after the call and was not
    there before lies below a node that was a leaf before the call, at a
    depth less than [max_depth], and that the volume classifies as
    neither inside nor outside.  A null slot of a node that has children
    stays null. *)
Theorem pass_adds_below_straddling_leaves (ndebug : bool) (t t' : Octree)
        (vol : OCTVolume.t) (p : ptr) (y : Octnode) :
  wf (root t) ->
  diff_negative_root ndebug t vol = Ok t' ->
  node_at (root t') p = Some y ->
  node_at (root t) p = None ->
  exists q r x,
    p = q ++ r /\ r <> []
    /\ node_at (root t) q = Some x
    /\ childcount x = 0
    /\ straddles vol x
    /\ depth x < max_depth t.
Proof.
  intros Hwf (r & Hcall & ->)%diff_negative_root_ok Hy Hx.
  apply (diff_negative_added _ _ _ _ _ _ _ p y Hwf Hcall Hy Hx).
Qed.

Lemma pass_adds_below_straddling_leaves_witness :
  exists q r x,
    [0%nat] = q ++ r /\ r <> []
    /\ node_at (root (unit_tree 3)) q = Some x
    /\ childcount x = 0
    /\ straddles corner x
    /\ depth x < max_depth (unit_tree 3).
Proof.
  apply (pass_adds_below_straddling_leaves false (unit_tree 3)
           (tree_of (unit_tree 3) (diff_negative_root false (unit_tree 3) corner))
           corner [0%nat] (octant (evaluate corner (root (unit_tree 3))) 0)).
  - reflexivity.
  - vm_compute. reflexivity.
  - vm_compute. reflexivity.
  - reflexivity.
Defined.

(** ** The recursion ends *)

(** X20.  The recursion of [diff_negative] ends by itself: a leaf is
    refined down to [max_depth] at most, and a node that has children is
    as deep as its deepest child.  With [frames] frames or more the call
    does not run out of frames, and its result does not depend on how
    many more there are. *)
Theorem diff_negative_terminates (ndebug : bool) (maxdepth : Z) (vol : OCTVolume.t)
        (fuel : nat) (parent : option Octnode) (current : Octnode) :
  (frames maxdepth current <= fuel)%nat ->
  diff_negative ndebug maxdepth vol fuel parent current <> Fault OutOfFuel
  /\ diff_negative ndebug maxdepth vol fuel parent current
     = diff_negative ndebug maxdepth vol (frames maxdepth current) parent current.
Proof.
  intros Hfuel. split; [apply diff_negative_fuel, Hfuel |].
  apply diff_negative_enough_fuel, Hfuel.
Qed.

Lemma diff_negative_terminates_witness :
  diff_negative false 3 corner 10 None (root (unit_tree 3)) <> Fault OutOfFuel
  /\ diff_negative false 3 corner 10 None (root (unit_tree 3))
     = diff_negative false 3 corner (frames 3 (root (unit_tree 3))) None
                     (root (unit_tree 3)).
Proof.
  apply (diff_negative_terminates false 3 corner 10 None (root (unit_tree 3))).
  vm_compute. lia.
Defined.

(** ** A leaf at the ceiling *)

(** X21.  Resolution exhausted: a root leaf whose depth has reached
    [max_depth], and which the volume does not classify as inside, is
    kept as a leaf by the call, in both builds; only its flags are set,
    to the classification of its cell.  With [max_depth = 0] a freshly
    constructed tree is never subdivided by a pass. *)
Theorem ceiling_leaf_kept (ndebug : bool) (t : Octree) (vol : OCTVolume.t) :
  childcount (root t) = 0 ->
  max_depth t <= depth (root t) ->
  inside_flag vol (center (root t)) (scale (root t)) = false ->
  diff_negative_root ndebug t vol
  = Ok (mkOctree (evaluate vol (root t)) (root_scale t) (max_depth t)).
Proof.
  intros Hleaf Hd Hin. unfold diff_negative_root.
  destruct (frames (max_depth t) (root t)) as [| fuel] eqn:Hfr.
  { destruct (root t); discriminate. }
  rewrite diff_negative_S. cbv zeta.
  rewrite childcount_evaluate, inside_evaluate, depth_evaluate, Hleaf, Hin. simpl.
  destruct (outside (evaluate vol (root t))); [reflexivity |].
  destruct (Z.ltb_spec (depth (root t)) (max_depth t)); [lia | reflexivity].
Qed.

Lemma ceiling_leaf_kept_witness :
  diff_negative_root false (unit_tree 0) corner
  = Ok (mkOctree (evaluate corner (root (unit_tree 0))) 1 0).
Proof.
  apply (ceiling_leaf_kept false (unit_tree 0) corner).
  - reflexivity.
  - simpl. lia.
  - reflexivity.
Defined.

(** ** A volume away from all the children *)

(** X22.  When the root has children and the bounding box of the volume
    overlaps the bounding box of none of them, the call enters no child:
    it returns, in both builds, the same tree with the flags of the root
    set to the classification of the root cell. *)
Theorem far_volume_flags_root_only (ndebug : bool) (t : Octree) (vol : OCTVolume.t) :
  childcount (root t) <> 0 ->
  (forall m c, child (root t) !! m = Some (Some c) ->
               overlaps (OCTVolume.bb vol) (bb c) = false) ->
  diff_negative_root ndebug t vol
  = Ok (mkOctree (evaluate vol (root t)) (root_scale t) (max_depth t)).
Proof.
  intros Hcc Hfar. unfold diff_negative_root.
  destruct (frames (max_depth t) (root t)) as [| fuel] eqn:Hfr.
  { destruct (root t); discriminate. }
  rewrite (diff_negative_inner _ _ _ _ _ _ Hcc).
  assert (Hloop : build_children vol (diff_negative ndebug (max_depth t) vol fuel)
                                 (evaluate vol (root t))
                  = Ok (evaluate vol (root t))).
  { unfold build_children.
    apply (for_each_rule (fun _ cur => cur = evaluate vol (root t))
             (fun r => r = Ok (evaluate vol (root t)))); [reflexivity | congruence |].
    intros m ms' cur ->. rewrite child_evaluate.
    destruct (child (root t) !! m) as [[c |] |] eqn:Hm; [| reflexivity | reflexivity].
    unfold build_child. rewrite (Hfar m c Hm). reflexivity. }
  rewrite Hloop. reflexivity.
Qed.

Lemma far_volume_flags_root_only_witness :
  diff_negative_root false (uniform_tree 3 1) far_away
  = Ok (mkOctree (evaluate far_away (root (uniform_tree 3 1))) 1 3).
Proof.
  apply (far_volume_flags_root_only false (uniform_tree 3 1) far_away).
  - vm_compute. discriminate.
  - intros m c Hm.
    assert (Hlt : (m < 8)%nat) by (apply lookup_lt_Some in Hm; exact Hm).
    do 8 (destruct m as [| m]; [injection Hm as <-; reflexivity |]). lia.
Defined.

(** ** The leaf scale beyond INT_MAX *)

(** X23.  With [max_depth] from 2^31 to 2^32 - 1076 the conversion to
    [int] makes the exponent of [leaf_scale] negative, max_depth - 2^32,
    and so low that the power of 2.0 underflows to zero: for every
    positive root half-width, from the least positive binary64 value on,
    the quotient is plus infinity. *)
Theorem leaf_scale_wraps (t : Octree) :
  2 ^ 31 <= max_depth t <= 2 ^ 32 - 1076 ->
  int_of_unsigned (max_depth t) = max_depth t - 2 ^ 32
  /\ pow2 (int_of_unsigned (max_depth t)) = Zero false
  /\ ((2 ^ (-1074) <= root_scale t)%Q -> leaf_scale t = Infinity false).
Proof. apply leaf_scale_underflow. Qed.

Lemma leaf_scale_wraps_witness :
  leaf_scale (new_Octree (3 # 4) (2 ^ 31 + 5) origin) = Infinity false.
Proof.
  refine (proj2 (proj2 (leaf_scale_wraps (new_Octree (3 # 4) (2 ^ 31 + 5) origin) _)) _).
  - cbn [max_depth new_Octree]. lia.
  - vm_compute. discriminate.
Defined.

(** ** The root of a tree and the arguments of its constructor *)

Lemma built_from_reachable (ndebug : bool) (scale0 : Q) (depth0 : Z)
      (centerp : Point) (t : Octree) :
  built_from ndebug scale0 depth0 centerp t -> reachable ndebug t.
Proof.
  induction 1 as [| n t t' _ IH Hinit | vol t t' _ IH Hdiff].
  - apply reachable_new.
  - eapply reachable_init; eassumption.
  - eapply reachable_diff; eassumption.
Qed.

(** X24.  What the constructor sets up stays for the life of the tree.
    In every tree built by the constructor from a half-width and a
    ceiling and carried through [init] and [diff_negative_root],
    [get_root_scale] and [get_max_depth] return these two arguments,
    [leaf_scale] returns what it returned after construction, and the
    root node has index 0, depth 0, the half-width given to the
    constructor and all six surface flags set. *)
Theorem root_cell_fixed (ndebug : bool) (scale0 : Q) (depth0 : Z)
        (centerp : Point) (t : Octree) :
  built_from ndebug scale0 depth0 centerp t ->
  get_root_scale t = scale0
  /\ get_max_depth t = depth0
  /\ leaf_scale t = leaf_scale (new_Octree scale0 depth0 centerp)
  /\ idx (root t) = 0
  /\ depth (root t) = 0
  /\ scale (root t) = scale0
  /\ surface (root t) = replicate 6 true.
Proof.
  assert (Hleaf : forall t1 t2, root_scale t1 = root_scale t2 ->
                                max_depth t1 = max_depth t2 ->
                                leaf_scale t1 = leaf_scale t2)
    by (intros t1 t2 H1 H2; unfold leaf_scale; rewrite H1, H2; reflexivity).
  induction 1 as [| n t t' _ (Hs & Hd & Hl & IH) Hinit
                  | vol t t' _ (Hs & Hd & Hl & IH) Hdiff].
  - repeat split.
  - unfold init in Hinit. apply bind_ok in Hinit as (r & Hr & [= <-]).
    apply init_rounds_same_cell in Hr as (Hi & Hde & Hsc & _ & _ & Hsf).
    cbn [root get_root_scale get_max_depth root_scale max_depth] in *.
    rewrite <- Hi, <- Hde, <- Hsc, <- Hsf.
    split; [exact Hs |]. split; [exact Hd |]. split; [| exact IH].
    rewrite <- Hl. apply Hleaf; reflexivity.
  - apply diff_negative_root_ok in Hdiff as (r & Hcall & ->).
    apply diff_negative_kept in Hcall as ((Hi & Hde & Hsc & _ & _ & Hsf) & _).
    cbn [root get_root_scale get_max_depth root_scale max_depth] in *.
    rewrite <- Hi, <- Hde, <- Hsc, <- Hsf.
    split; [exact Hs |]. split; [exact Hd |]. split; [| exact IH].
    rewrite <- Hl. apply Hleaf; reflexivity.
Qed.

Lemma root_cell_fixed_witness :
  get_root_scale corner_cut_tree = 1%Q
  /\ get_max_depth corner_cut_tree = 1
  /\ leaf_scale corner_cut_tree = leaf_scale (new_Octree 1 1 origin)
  /\ idx (root corner_cut_tree) = 0
  /\ depth (root corner_cut_tree) = 0
  /\ scale (root corner_cut_tree) = 1%Q
  /\ surface (root corner_cut_tree) = replicate 6 true.
Proof.
  apply (root_cell_fixed false 1 1 origin corner_cut_tree).
  apply (built_diff false 1 1 origin corner (unit_tree 1)); [apply built_new |].
  vm_compute. reflexivity.
Defined.
